(** * BURST questionnaire tools: parser, answer rewriter and structure migrator

    A shallow embedding of [questionnaire/server.py] ([parse_markdown],
    [_process_body], [save_answers], the port selection of [main]) and
    [questionnaire/reorganize.py] ([parse_raw], [generate], the question
    count of [main]), with the properties of the design document stated
    and settled against it, and further properties read off the code.

    Text model.  A Python [str] is a Rocq [string]; a character is a code
    point below 256 (the [ascii] type read as Latin-1), and the character
    classes of [re] and [str] are the ones CPython uses on that range.
    Integers are unbounded, as in Python; the bound an interpreter may
    put on the length of a decimal string given to [int] (4300 digits by
    default in recent CPython) is a setting of the interpreter and is not
    part of the model.  Reading and writing the file is left out: the
    text read is an argument and the text written a value. *)

From Stdlib Require Import Ascii NArith ZArith Sorted.
From stdpp Require Import base option list gmap strings pretty.

#[local] Set Warnings "-clear-no-such-hyp".


(** ** Characters *)

Module Char.

Definition code (c : ascii) : N := N_of_ascii c.

Definition in_range (lo hi : N) (c : ascii) : bool :=
  ((lo <=? code c) && (code c <=? hi))%N.

(** [\d] on a [str] pattern: the decimal digits. *)
Definition is_digit (c : ascii) : bool := in_range 48 57 c.

(** [str.isspace], which is also [\s] and what [str.strip] removes:
    TAB LF VT FF CR, FS GS RS US, SPACE, NEL and NBSP. *)
Definition is_space (c : ascii) : bool :=
  in_range 9 13 c || in_range 28 32 c
  || (code c =? 133)%N || (code c =? 160)%N.

Definition is_lower (c : ascii) : bool := in_range 97 122 c.
Definition is_upper (c : ascii) : bool := in_range 65 90 c.

(** [[a-zA-Z]] *)
Definition is_letter (c : ascii) : bool := is_lower c || is_upper c.

(** [\w]: alphanumeric in the sense of [str.isalnum], or underscore. *)
Definition is_word (c : ascii) : bool :=
  is_digit c || is_letter c || (code c =? 95)%N
  || (code c =? 170)%N || in_range 178 179 c || (code c =? 181)%N
  || in_range 185 186 c || in_range 188 190 c
  || in_range 192 214 c || in_range 216 246 c || in_range 248 255 c.

(** [str.lower] on one character of [[a-zA-Z]]. *)
Definition lower (c : ascii) : ascii :=
  if is_upper c then ascii_of_N (code c + 32) else c.

Definition newline : ascii := "010".
Definition quote : ascii := "034".

Definition is_newline (c : ascii) : bool := (code c =? 10)%N.

End Char.

(** ** Strings: the [str] methods the program uses *)

Module Str.

(** [s.startswith(p)] *)
Fixpoint startswith (p s : string) : bool :=
  match p, s with
  | EmptyString, _ => true
  | String a p', String b s' => if decide (a = b) then startswith p' s' else false
  | String _ _, EmptyString => false
  end.

(** The rest of [s] after the literal prefix [p], when [s] starts with it. *)
Fixpoint after (p s : string) : option string :=
  match p, s with
  | EmptyString, _ => Some s
  | String a p', String b s' => if decide (a = b) then after p' s' else None
  | String _ _, EmptyString => None
  end.

(** [c in s] for a one-character [c] *)
Fixpoint contains (c : ascii) (s : string) : bool :=
  match s with
  | EmptyString => false
  | String b s' => if decide (c = b) then true else contains c s'
  end.

(** [s[1:]] *)
Definition tail (s : string) : string :=
  match s with EmptyString => EmptyString | String _ s' => s' end.

Fixpoint lstrip (s : string) : string :=
  match s with
  | EmptyString => EmptyString
  | String c s' => if Char.is_space c then lstrip s' else s
  end.

Fixpoint rstrip (s : string) : string :=
  match s with
  | EmptyString => EmptyString
  | String c s' =>
      match rstrip s' with
      | EmptyString => if Char.is_space c then EmptyString else String c EmptyString
      | r => String c r
      end
  end.

(** [s.strip()] *)
Definition strip (s : string) : string := rstrip (lstrip s).

(** Truth value of a [str]: non-empty. *)
Definition nonempty (s : string) : bool :=
  match s with EmptyString => false | String _ _ => true end.

(** [s.split(sep)] for a one-character separator; never the empty list. *)
Fixpoint split (sep : ascii) (s : string) : list string :=
  match s with
  | EmptyString => [EmptyString]
  | String c s' =>
      if decide (c = sep) then EmptyString :: split sep s'
      else match split sep s' with
           | [] => [String c EmptyString]
           | h :: t => String c h :: t
           end
  end.

(** [sep.join(l)] for a one-character separator. *)
Fixpoint join (sep : ascii) (l : list string) : string :=
  match l with
  | [] => EmptyString
  | [x] => x
  | x :: l' => x +:+ String sep (join sep l')
  end.

Definition lines (text : string) : list string := split Char.newline text.
Definition unlines (l : list string) : string := join Char.newline l.

(** The longest prefix of characters satisfying [p], and the rest. *)
Fixpoint span (p : ascii → bool) (s : string) : string * string :=
  match s with
  | EmptyString => (EmptyString, EmptyString)
  | String c s' =>
      if p c then let '(a, b) := span p s' in (String c a, b)
      else (EmptyString, s)
  end.

(** [l[1:-1]] *)
Definition inner {A} (l : list A) : list A := removelast (List.tl l).

End Str.

(** ** Regular expressions

    Every pattern of the program is anchored at the start of the line
    ([re.match]) and is translated by hand into a matcher that returns the
    groups the program reads.  Greedy and lazy quantifiers are tried in the
    order the backtracking matcher of [re] tries them. *)

Module Re.

(** [\d+], greedy: one or more digits, and the rest. *)
Definition digits1 (s : string) : option (string * string) :=
  let '(d, r) := Str.span Char.is_digit s in
  if Str.nonempty d then Some (d, r) else None.

(** [.*], greedy: [.] is any character but a newline. *)
Definition dot_star (s : string) : string :=
  fst (Str.span (λ c, negb (Char.is_newline c)) s).

(** [.+], greedy. *)
Definition dot_plus (s : string) : option string :=
  let g := dot_star s in if Str.nonempty g then Some g else None.

(** [\s*] followed by the continuation [k]: the longest run of white
    space is tried first, then shorter ones. *)
Fixpoint ws_then {A} (k : string → option A) (s : string) : option A :=
  match s with
  | String c s' =>
      if Char.is_space c
      then match ws_then k s' with Some x => Some x | None => k s end
      else k s
  | EmptyString => k s
  end.

(** [^## (\d+)\. (.+)]: groups 1 and 2.  After the greedy [\d+] the next
    character must be a dot, so no shorter run of digits can match. *)
Definition section_header (line : string) : option (string * string) :=
  r ← Str.after "## " line;
  '(d, r) ← digits1 r;
  r ← Str.after ". " r;
  t ← dot_plus r;
  Some (d, t).

(** [^### (\d+\.\d+) (.+)]: groups 1 and 2. *)
Definition question_header (line : string) : option (string * string) :=
  r ← Str.after "### " line;
  '(d1, r) ← digits1 r;
  r ← Str.after "." r;
  '(d2, r) ← digits1 r;
  r ← Str.after " " r;
  t ← dot_plus r;
  Some (d1 +:+ "." +:+ d2, t).

(** [^### (\d+\.\d+)]: group 1. *)
Definition question_id (line : string) : option string :=
  r ← Str.after "### " line;
  '(d1, r) ← digits1 r;
  r ← Str.after "." r;
  '(d2, _) ← digits1 r;
  Some (d1 +:+ "." +:+ d2).

(** [^## \d+\.] *)
Definition raw_section (line : string) : bool :=
  bool_decide (is_Some (r ← Str.after "## " line;
                        '(_, r) ← digits1 r;
                        Str.after "." r)).

(** [\b] just after a word character: end of input or a non-word
    character comes next. *)
Definition word_end (s : string) : bool :=
  match s with
  | EmptyString => true
  | String c _ => negb (Char.is_word c)
  end.

(** [^Your answers?\b]: the optional [s] is tried first. *)
Definition answer_marker (line : string) : bool :=
  match Str.after "Your answer" line with
  | None => false
  | Some r =>
      match Str.after "s" r with
      | Some r' => word_end r' || word_end r
      | None => word_end r
      end
  end.

(** [^If \([a-z]\)]: the rest of the line after the match. *)
Definition if_letter (line : string) : option string :=
  r ← Str.after "If (" line;
  match r with
  | String c r' => if Char.is_lower c then Str.after ")" r' else None
  | EmptyString => None
  end.

(** [^If \(([a-z])\),?\s*(.+)]: only whether it matches is used.  The
    optional comma is tried first. *)
Definition sub_prompt (line : string) : bool :=
  match if_letter line with
  | None => false
  | Some r =>
      let k := ws_then dot_plus in
      match Str.after "," r with
      | Some r' => bool_decide (is_Some (k r')) || bool_decide (is_Some (k r))
      | None => bool_decide (is_Some (k r))
      end
  end.

(** The lazy group [(.+?)], two literal stars, then the greedy rest of
    the line: the shortest non-empty group is found first. *)
Fixpoint lazy_bold (s : string) : option (string * string) :=
  match s with
  | EmptyString => None
  | String c s' =>
      if Char.is_newline c then None
      else match Str.after "**" s' with
           | Some r => Some (String c EmptyString, dot_star r)
           | None =>
               '(g, r) ← lazy_bold s';
               Some (String c g, r)
           end
  end.

(** A parenthesised letter [\(([a-zA-Z])\)]: the letter and the rest. *)
Definition paren_letter (s : string) : option (ascii * string) :=
  r ← Str.after "(" s;
  match r with
  | String c r' =>
      if Char.is_letter c then (r'' ← Str.after ")" r'; Some (c, r'')) else None
  | EmptyString => None
  end.

(** The default option line: [- ], two stars, a parenthesised letter,
    [\s*], the lazy group, two stars, the rest: groups 1, 2 and 3. *)
Definition bold_option (line : string) : option (ascii * string * string) :=
  r ← Str.after "- **" line;
  '(c, r) ← paren_letter r;
  '(g2, g3) ← ws_then lazy_bold r;
  Some (c, g2, g3).

(** [^- \(([a-zA-Z])\)\s*(.+)]: groups 1 and 2. *)
Definition plain_option (line : string) : option (ascii * string) :=
  r ← Str.after "- " line;
  '(c, r) ← paren_letter r;
  g2 ← ws_then dot_plus r;
  Some (c, g2).

(** [^[-:]+$]: [$] matches at the end or just before a final newline. *)
Definition separator_cell (c : string) : bool :=
  let '(a, r) := Str.span (λ x, bool_decide (x = "-"%char ∨ x = ":"%char)) c in
  Str.nonempty a && bool_decide (r = "" ∨ r = String Char.newline "").

End Re.

(** [int(s)] on a run of decimal digits. *)
Fixpoint digits_value (acc : N) (s : string) : N :=
  match s with
  | EmptyString => acc
  | String c s' => digits_value (acc * 10 + (Char.code c - 48))%N s'
  end.

Definition int_of_digits (s : string) : N := digits_value 0 s.

(** ** The document model ([server.py]) *)

Record choice := Choice {
  opt_id : string;
  opt_text : string;
  opt_default : bool;
}.

Record table := Table {
  headers : list string;
  rows : list (list string);
}.

Record question := Question {
  q_id : string;
  q_title : string;
  description : string;
  options : list choice;
  q_table : option table;
  answers : list string;
  sub_prompts : list string;
}.

Record section := Section_ {
  sec_id : N;
  sec_title : string;
  questions : list question;
}.

Definition set_answers (f : list string → list string) (q : question) : question :=
  Question (q_id q) (q_title q) (description q) (options q) (q_table q)
           (f (answers q)) (sub_prompts q).

Definition set_sub_prompts (f : list string → list string) (q : question) : question :=
  Question (q_id q) (q_title q) (description q) (options q) (q_table q)
           (answers q) (f (sub_prompts q)).

Definition set_questions (f : list question → list question) (s : section) : section :=
  Section_ (sec_id s) (sec_title s) (f (questions s)).

(** ** Body classification: [_process_body] *)

Module Body.

(** The four locals of [_process_body]. *)
Record acc := Acc {
  desc_parts : list string;
  opts : list choice;
  table_headers : option (list string);
  table_rows : list (list string);
}.

Definition init : acc := Acc [] [] None [].

(** The cells of a table row: [line.strip().split("|")[1:-1]], each
    stripped. *)
Definition cells (line : string) : list string :=
  Str.strip <$> Str.inner (Str.split "|" (Str.strip line)).

(** One iteration of the [for line in lines] loop. *)
Definition step (a : acc) (line : string) : acc :=
  match Re.bold_option line with
  | Some (c, g2, g3) =>
      let txt := Str.strip g2 in
      let extra := Str.strip g3 in
      let txt := if Str.nonempty extra then txt +:+ " " +:+ extra else txt in
      Acc (desc_parts a)
          (opts a ++ [Choice (String (Char.lower c) "") txt true])
          (table_headers a) (table_rows a)
  | None =>
  match Re.plain_option line with
  | Some (c, g2) =>
      Acc (desc_parts a)
          (opts a ++ [Choice (String (Char.lower c) "") (Str.strip g2) false])
          (table_headers a) (table_rows a)
  | None =>
  if Str.startswith "|" (Str.strip line) then
    let cs := cells line in
    if forallb Re.separator_cell cs then a
    else match table_headers a with
         | None => Acc (desc_parts a) (opts a) (Some cs) (table_rows a)
         | Some _ => Acc (desc_parts a) (opts a) (table_headers a) (table_rows a ++ [cs])
         end
  else if Str.nonempty (Str.strip line)
  then Acc (desc_parts a ++ [line]) (opts a) (table_headers a) (table_rows a)
  else a
  end end.

Definition run (lines : list string) : acc := foldl step init lines.

(** The assignments after the loop; [table] is set only when
    [table_headers] is a non-empty list. *)
Definition finish (q : question) (a : acc) : question :=
  Question (q_id q) (q_title q)
    (Str.strip (Str.unlines (desc_parts a)))
    (opts a)
    (match table_headers a with
     | Some (h :: hs) => Some (Table (h :: hs) (table_rows a))
     | _ => q_table q
     end)
    (answers q) (sub_prompts q).

End Body.

Definition _process_body (q : question) (lines : list string) : question :=
  Body.finish q (Body.run lines).

(** ** The parser: [parse_markdown]

    [sections] is the list the function returns.  [cur_sec], when not
    [None], is the dict appended last to [sections], and the question dict
    [cur_q] is either the one appended last to [cur_sec["questions"]] or,
    when no section was open at its header, a dict reachable from nowhere
    else.  The dicts are mutated in place, so the state keeps [sections] as
    the store and [cur_q] as a reference into it. *)

Module Parser.

Inductive qref :=
| QNone                      (* [cur_q is None] *)
| QLast                      (* the last question of the last section *)
| QLoose (q : question).     (* a question outside every section *)

Record state := State {
  sections : list section;
  cur_q : qref;
  answer_buf : list string;
  body_buf : list string;
  collecting_answer : bool;
}.

Definition init : state := State [] QNone [] [] false.

(** Apply [f] to the last element. *)
Fixpoint alter_last {A} (f : A → A) (l : list A) : list A :=
  match l with
  | [] => []
  | [x] => [f x]
  | x :: l' => x :: alter_last f l'
  end.

(** In-place update of the dict [cur_q] refers to. *)
Definition update_cur_q (f : question → question) (st : state) : state :=
  match cur_q st with
  | QNone => st
  | QLast =>
      State (alter_last (set_questions (alter_last f)) (sections st)) QLast
            (answer_buf st) (body_buf st) (collecting_answer st)
  | QLoose q =>
      State (sections st) (QLoose (f q))
            (answer_buf st) (body_buf st) (collecting_answer st)
  end.

(** [cur_q["answers"].append("\n".join(answer_buf).strip())] and
    [answer_buf.clear()]; [collecting_answer] becomes [c]. *)
Definition close_answer (c : bool) (st : state) : state :=
  let a := Str.strip (Str.unlines (answer_buf st)) in
  let st := update_cur_q (set_answers (λ l, l ++ [a])) st in
  State (sections st) (cur_q st) [] (body_buf st) c.

Definition flush_question (st : state) : state :=
  match cur_q st with
  | QNone => st
  | _ =>
      let st := if collecting_answer st then close_answer false st else st in
      let st := update_cur_q (λ q, _process_body q (body_buf st)) st in
      State (sections st) (cur_q st) (answer_buf st) [] (collecting_answer st)
  end.

Definition new_question (qid title : string) : question :=
  Question qid title "" [] None [] [].

(** The body of the [for raw_line in text.split("\n")] loop. *)
Definition step (st : state) (line : string) : state :=
  match Re.section_header line with
  | Some (d, t) =>
      let st := flush_question st in
      State (sections st ++ [Section_ (int_of_digits d) (Str.strip t) []])
            QNone (answer_buf st) (body_buf st) (collecting_answer st)
  | None =>
  match Re.question_header line with
  | Some (qid, t) =>
      let st := flush_question st in
      let q := new_question qid (Str.strip t) in
      match sections st with
      | [] => State [] (QLoose q) [] [] false
      | _ => State (alter_last (set_questions (λ l, l ++ [q])) (sections st))
                   QLast [] [] false
      end
  | None =>
  match cur_q st with
  | QNone => st
  | _ =>
      if Re.answer_marker line then
        let st := if collecting_answer st
                  then close_answer true st else st in
        State (sections st) (cur_q st) (answer_buf st) (body_buf st) true
      else if collecting_answer st then
        if bool_decide (Str.strip line = "---") then close_answer false st
        else if Re.sub_prompt line then
          let st := close_answer false st in
          let st := update_cur_q (set_sub_prompts (λ l, l ++ [line])) st in
          State (sections st) (cur_q st) (answer_buf st)
                (body_buf st ++ [line]) (collecting_answer st)
        else
          State (sections st) (cur_q st) (answer_buf st ++ [line])
                (body_buf st) (collecting_answer st)
      else
        State (sections st) (cur_q st) (answer_buf st)
              (body_buf st ++ [line]) (collecting_answer st)
  end end end.

Definition run (lines : list string) : state := foldl step init lines.

End Parser.

(** The loop over the lines, the last [flush_question()] and the value
    returned. *)
Definition parse_lines (lines : list string) : list section :=
  Parser.sections (Parser.flush_question (Parser.run lines)).

(** [parse_markdown], with the text of the file as its argument. *)
Definition parse_markdown (text : string) : list section :=
  parse_lines (Str.lines text).

(** ** The rewriter: [save_answers] *)

Module Saver.

(** The condition under which the inner loop stops skipping. *)
Definition is_boundary (peek : string) : bool :=
  Str.startswith "### " peek
  || Str.startswith "## " peek
  || Str.startswith "---" peek
  || bool_decide (is_Some (Re.if_letter peek))
  || Re.answer_marker peek
  || (Str.startswith "|" peek && Str.contains "|" (Str.tail peek))
  || Str.startswith "**" peek.

(** The inner [while]: the lines left from the first boundary on. *)
Fixpoint skip_old (lines : list string) : list string :=
  match lines with
  | [] => lines
  | peek :: rest => if is_boundary peek then lines else skip_old rest
  end.

(** [f"{cur_qid}_{answer_idx}" if cur_qid else None] *)
Definition slot_key (cur_qid : option string) (answer_idx : nat) : option string :=
  match cur_qid with
  | Some q => if Str.nonempty q then Some (q +:+ "_" +:+ pretty answer_idx) else None
  | None => None
  end.

(** What is appended for a slot before the blank line: [answers[key]]
    when the key is present and its text is not blank. *)
Definition new_answer (answers : gmap string string) (key : option string) : list string :=
  match key with
  | Some k =>
      match answers !! k with
      | Some a => if Str.nonempty (Str.strip a) then [a] else []
      | None => []
      end
  | None => []
  end.

(** The outer [while], from position [i] on: [lines] is [lines[i:]] and
    the value is what is appended to [result] from there. *)
Fixpoint loop (answers : gmap string string)
    (cur_qid : option string) (answer_idx : nat) (lines : list string)
    {struct lines} : list string :=
  match lines with
  | [] => []
  | line :: rest =>
      let '(cur_qid, answer_idx) :=
        match Re.question_id line with
        | Some q => (Some q, 0)
        | None => (cur_qid, answer_idx)
        end in
      if Re.answer_marker line then
        line :: new_answer answers (slot_key cur_qid answer_idx) ++
        "" :: loop answers cur_qid (S answer_idx) (skip_old rest)
      else
        line :: loop answers cur_qid answer_idx rest
  end.

Definition result (answers : gmap string string) (text : string) : list string :=
  loop answers None 0 (Str.lines text).

End Saver.

(** [save_answers]: the text read from the file is an argument and the
    text written back is the value. *)
Definition save_answers (answers : gmap string string) (text : string) : string :=
  Str.unlines (Saver.result answers text).

(** ** The structure migrator ([reorganize.py]) *)

(** A Python [dict] with string keys: the items in insertion order.
    Assigning to a key that is present replaces its value in place. *)
Module Dict.

Section Ops.
Context {V : Type}.

Fixpoint get (k : string) (d : list (string * V)) : option V :=
  match d with
  | [] => None
  | (k', v) :: d' => if decide (k = k') then Some v else get k d'
  end.

Fixpoint set (k : string) (v : V) (d : list (string * V)) : list (string * V) :=
  match d with
  | [] => [(k, v)]
  | (k', v') :: d' =>
      if decide (k = k') then (k, v) :: d' else (k', v') :: set k v d'
  end.

Definition keys (d : list (string * V)) : list string := fst <$> d.
End Ops.

End Dict.

Record block := Block {
  title : string;
  body : string;
}.

Module Raw.

Record state := State {
  blocks : list (string * block);
  cur_id : option string;
  lines : list string;
}.

Definition init : state := State [] None [].

(** [line.strip() in ("", "---")] *)
Definition blank_or_divider (line : string) : bool :=
  bool_decide (Str.strip line = "" ∨ Str.strip line = "---").

(** [while lines and lines[-1].strip() in ("", "---"): lines.pop()] *)
Fixpoint trim_end (lines : list string) : list string :=
  match lines with
  | [] => []
  | x :: l =>
      match trim_end l with
      | [] => if blank_or_divider x then [] else [x]
      | r => x :: r
      end
  end.

(** [blocks[cur_id]["body"] = b] *)
Definition set_body (k : string) (b : string) (d : list (string * block))
    : list (string * block) :=
  match Dict.get k d with
  | Some blk => Dict.set k (Block (title blk) b) d
  | None => d
  end.

Definition flush (st : state) : state :=
  match cur_id st with
  | None => st
  | Some k =>
      State (set_body k (Str.unlines (trim_end (lines st))) (blocks st)) None []
  end.

(** The body of [for raw in text.split("\n")]. *)
Definition step (st : state) (raw : string) : state :=
  match Re.question_header raw with
  | Some (qid, t) =>
      let st := flush st in
      State (Dict.set qid (Block (Str.strip t) "") (blocks st)) (Some qid) []
  | None =>
      if Re.raw_section raw then flush st
      else match cur_id st with
           | Some _ => State (blocks st) (cur_id st) (lines st ++ [raw])
           | None => st
           end
  end.

End Raw.

Definition parse_raw (text : string) : list (string * block) :=
  Raw.blocks (Raw.flush (foldl Raw.step Raw.init (Str.lines text))).

Module Gen.

(** The restructuring plan ([STRUCTURE]) and the removed ids
    ([REMOVED]) are parameters. *)
Definition plan := list (string * list string).

(** [(int(x.split(".")[0]), int(x.split(".")[1]))] on a key of the form
    digits, dot, digits. *)
Definition sort_key (x : string) : N * N :=
  match Str.split "." x with
  | a :: b :: _ => (int_of_digits a, int_of_digits b)
  | _ => (0%N, 0%N)
  end.

(** Tuple comparison [k1 <= k2]. *)
Definition key_le (k1 k2 : N * N) : bool :=
  ((k1.1 <? k2.1) || ((k1.1 =? k2.1) && (k1.2 <=? k2.2)))%N.

Fixpoint insert_sorted (x : string) (l : list string) : list string :=
  match l with
  | [] => [x]
  | y :: l' =>
      if key_le (sort_key x) (sort_key y) then x :: l
      else y :: insert_sorted x l'
  end.

(** [sorted(keys, key=...)]: the stable sort. *)
Definition sorted (keys : list string) : list string :=
  foldr insert_sorted [] keys.

Definition preamble : list string :=
  [ "# BURST Implementation Decisions";
    "";
    "Fill in your answers below each question. Where a default is suggested " +:+
    "in **bold**, you can just write " +:+ String Char.quote "default" +:+ String Char.quote "" +:+
    " or leave blank to accept it.";
    "" ].

Definition trailer : list string :=
  [ "---";
    "";
    "**Instructions**: Write your answer below each question, or write " +:+
    String Char.quote "default" +:+ String Char.quote "" +:+
    " to accept the bolded suggestion. If you disagree with any " +:+
    "of my suggested defaults, just override them. Leave blank = accept default.";
    "";
    "When you're done, tell me and I'll start implementing.";
    "" ].

(** The two lines the function prints. *)
Definition warning_line (old_id ttl : string) : string :=
  "  WARNING: question " +:+ old_id +:+ " (" +:+ ttl +:+ ") is not mapped!".

Definition error_line (old_id : string) : string :=
  "  ERROR: " +:+ old_id +:+ " not found in source!".

Definition section_line (sec_idx : nat) (sec_title : string) : string :=
  "## " +:+ pretty sec_idx +:+ ". " +:+ sec_title.

Definition question_line (sec_idx q_idx : nat) (ttl : string) : string :=
  "### " +:+ pretty sec_idx +:+ "." +:+ pretty q_idx +:+ " " +:+ ttl.

(** [all_mapped]: every id of every plan entry. *)
Definition all_mapped (p : plan) : gset string := list_to_set (p ≫= snd).

(** The warning loop: what it prints. *)
Definition warnings (p : plan) (removed : gset string)
    (blocks : list (string * block)) : list string :=
  omap (λ old_id,
          if bool_decide (old_id ∈ all_mapped p) || bool_decide (old_id ∈ removed)
          then None
          else (λ b, warning_line old_id (title b)) <$> Dict.get old_id blocks)
       (sorted (Dict.keys blocks)).

(** [for q_idx, old_id in enumerate(qids, 1)]: the lines appended to
    [out] and the lines printed, from position [q_idx] on. *)
Fixpoint questions_from (blocks : list (string * block)) (sec_idx q_idx : nat)
    (qids : list string) : list string * list string :=
  match qids with
  | [] => ([], [])
  | old_id :: qids' =>
      let '(out, log) := questions_from blocks sec_idx (S q_idx) qids' in
      match Dict.get old_id blocks with
      | None => (out, error_line old_id :: log)
      | Some b => (question_line sec_idx q_idx (title b) :: body b :: "" :: out, log)
      end
  end.

(** [for sec_idx, (sec_title, qids) in enumerate(STRUCTURE, 1)] *)
Fixpoint sections_from (blocks : list (string * block)) (sec_idx : nat)
    (p : plan) : list string * list string :=
  match p with
  | [] => ([], [])
  | (sec_title, qids) :: p' =>
      let '(qout, qlog) := questions_from blocks sec_idx 1 qids in
      let '(out, log) := sections_from blocks (S sec_idx) p' in
      ("---" :: "" :: section_line sec_idx sec_title :: "" :: qout ++ out,
       qlog ++ log)
  end.

(** The list [out] before it is joined, and everything printed. *)
Definition run (p : plan) (removed : gset string)
    (blocks : list (string * block)) : list string * list string :=
  let '(out, log) := sections_from blocks 1 p in
  (preamble ++ out ++ trailer, warnings p removed blocks ++ log).

End Gen.

(** [generate]: the text returned, and the lines printed on the way. *)
Definition generate (p : Gen.plan) (removed : gset string)
    (blocks : list (string * block)) : string * list string :=
  let '(out, log) := Gen.run p removed blocks in (Str.unlines out, log).

(** [main] without its file access: the text written and the warnings and
    errors printed. *)
Definition migrate (p : Gen.plan) (removed : gset string) (text : string)
    : string * list string :=
  generate p removed (parse_raw text).

(** ** Auxiliary notions used to state the properties *)

Module Saver_spec.

(** A line that is all there is of its string: splitting it at newlines
    gives it back. *)
Definition single_line (s : string) : Prop := Str.lines s = [s].

(** The position of the rewriter after a line it emitted itself: the
    question id and the slot counter.  Header and marker lines are
    boundaries, so the inner loop never consumes one. *)
Definition advance (st : option string * nat) (line : string) : option string * nat :=
  let '(cur_qid, answer_idx) :=
    match Re.question_id line with
    | Some q => (Some q, 0)
    | None => st
    end in
  if Re.answer_marker line then (cur_qid, S answer_idx) else (cur_qid, answer_idx).

Definition state_after (st : option string * nat) (pre : list string)
    : option string * nat :=
  foldl advance st pre.

(** Where a slot ends: at the end of the input or in front of a boundary. *)
Definition at_boundary (rest : list string) : Prop :=
  match rest with
  | [] => True
  | b :: _ => Saver.is_boundary b = true
  end.

(** The frame of a rewrite: [frame src out] says that [out] is [src] with
    nothing changed but what stands between a marker line and the
    boundary that ends its slot. *)
Inductive frame : list string → list string → Prop :=
| frame_nil :
    frame [] []
| frame_keep line rest out :
    Re.answer_marker line = false →
    frame rest out →
    frame (line :: rest) (line :: out)
| frame_slot marker old new rest out :
    Re.answer_marker marker = true →
    Forall (λ l, Saver.is_boundary l = false) old →
    at_boundary rest →
    frame rest out →
    frame (marker :: old ++ rest) (marker :: new ++ out).

(** No answer supplied for a slot: no key, key absent, or blank text. *)
Definition unanswered (answers : gmap string string) (key : option string) : Prop :=
  match key with
  | None => True
  | Some k =>
      match answers !! k with
      | None => True
      | Some a => Str.strip a = ""
      end
  end.

(** The rewriter run with its slots kept apart: a line passed through, or
    a slot with its marker, its key, the lines skipped and the lines
    written in their place. *)
Inductive piece :=
| Kept (line : string)
| Slot (marker : string) (key : option string) (old new : list string).

Definition source (p : piece) : list string :=
  match p with
  | Kept line => [line]
  | Slot marker _ old _ => marker :: old
  end.

Definition render (p : piece) : list string :=
  match p with
  | Kept line => [line]
  | Slot marker _ _ new => marker :: new
  end.

(** The lines the inner loop of [save_answers] steps over. *)
Fixpoint skipped (lines : list string) : list string :=
  match lines with
  | [] => []
  | peek :: rest => if Saver.is_boundary peek then [] else peek :: skipped rest
  end.

(** [Saver.loop] again, recording a [piece] where the loop appends to
    [result]. *)
Fixpoint pieces (answers : gmap string string)
    (cur_qid : option string) (answer_idx : nat) (lines : list string)
    {struct lines} : list piece :=
  match lines with
  | [] => []
  | line :: rest =>
      let '(cur_qid, answer_idx) :=
        match Re.question_id line with
        | Some q => (Some q, 0)
        | None => (cur_qid, answer_idx)
        end in
      if Re.answer_marker line then
        let key := Saver.slot_key cur_qid answer_idx in
        Slot line key (skipped rest) (Saver.new_answer answers key ++ [""])
        :: pieces answers cur_qid (S answer_idx) (Saver.skip_old rest)
      else
        Kept line :: pieces answers cur_qid answer_idx rest
  end.

(** Two runs agree on a piece unless it is a slot with key [k], where
    only the text written may differ. *)
Definition same_outside (k : string) (p1 p2 : piece) : Prop :=
  p1 = p2 ∨
  ∃ marker old new1 new2,
    p1 = Slot marker (Some k) old new1 ∧ p2 = Slot marker (Some k) old new2.

End Saver_spec.

(** The parser without in-place updates.  [secs] holds the sections with
    the questions that are finished; the question being read is kept in
    [cur] and put in its place ([commit]) when the next header or the end
    of the text is reached.  [embed] gives the state of [Parser] this
    stands for. *)
Module Builder.

Record state := State {
  secs : list section;
  cur : option question;
  answer_buf : list string;
  body_buf : list string;
  collecting_answer : bool;
}.

Definition init : state := State [] None [] [] false.

Definition commit (st : state) : list section :=
  match cur st with
  | Some q => Parser.alter_last (set_questions (λ l, l ++ [q])) (secs st)
  | None => secs st
  end.

Definition embed (st : state) : Parser.state :=
  Parser.State (commit st)
    (match cur st with
     | None => Parser.QNone
     | Some q => match secs st with [] => Parser.QLoose q | _ => Parser.QLast end
     end)
    (answer_buf st) (body_buf st) (collecting_answer st).

Definition update_cur (f : question → question) (st : state) : state :=
  State (secs st) (f <$> cur st) (answer_buf st) (body_buf st) (collecting_answer st).

Definition close_answer (c : bool) (st : state) : state :=
  let a := Str.strip (Str.unlines (answer_buf st)) in
  State (secs st) (set_answers (λ l, l ++ [a]) <$> cur st) [] (body_buf st) c.

Definition flush_question (st : state) : state :=
  match cur st with
  | None => st
  | Some _ =>
      let st := if collecting_answer st then close_answer false st else st in
      State (secs st) ((λ q, _process_body q (body_buf st)) <$> cur st)
            (answer_buf st) [] (collecting_answer st)
  end.

Definition step (st : state) (line : string) : state :=
  match Re.section_header line with
  | Some (d, t) =>
      let st := flush_question st in
      State (commit st ++ [Section_ (int_of_digits d) (Str.strip t) []])
            None (answer_buf st) (body_buf st) (collecting_answer st)
  | None =>
  match Re.question_header line with
  | Some (qid, t) =>
      let st := flush_question st in
      State (commit st) (Some (Parser.new_question qid (Str.strip t))) [] [] false
  | None =>
  match cur st with
  | None => st
  | Some _ =>
      if Re.answer_marker line then
        let st := if collecting_answer st then close_answer true st else st in
        State (secs st) (cur st) (answer_buf st) (body_buf st) true
      else if collecting_answer st then
        if bool_decide (Str.strip line = "---") then close_answer false st
        else if Re.sub_prompt line then
          let st := close_answer false st in
          State (secs st) (set_sub_prompts (λ l, l ++ [line]) <$> cur st)
                (answer_buf st) (body_buf st ++ [line]) (collecting_answer st)
        else
          State (secs st) (cur st) (answer_buf st ++ [line])
                (body_buf st) (collecting_answer st)
      else
        State (secs st) (cur st) (answer_buf st)
              (body_buf st ++ [line]) (collecting_answer st)
  end end end.

Definition run (lines : list string) : state := foldl step init lines.

Definition finish (st : state) : list section := commit (flush_question st).

End Builder.

Module Parser_spec.

(** All questions of a document, in order. *)
Definition all_questions (doc : list section) : list question :=
  doc ≫= questions.

(** The lines at which [parse_markdown] stops buffering an answer: the
    two headers, a marker, a divider and a sub-prompt. *)
Definition ends_slot (line : string) : bool :=
  bool_decide (is_Some (Re.section_header line))
  || bool_decide (is_Some (Re.question_header line))
  || Re.answer_marker line
  || bool_decide (Str.strip line = "---")
  || Re.sub_prompt line.

(** A line that is neither of the two headers. *)
Definition not_header (line : string) : Prop :=
  Re.section_header line = None ∧ Re.question_header line = None.

(** The spans of the slots the rewriter matches in a text. *)
Definition slot_spans (text : string) : list (list string) :=
  omap (λ p, match p with
             | Saver_spec.Slot _ _ old _ => Some old
             | Saver_spec.Kept _ => None
             end)
       (Saver_spec.pieces ∅ None 0 (Str.lines text)).

(** The option a body line gives, by its shape alone. *)
Definition classify (line : string) : option choice :=
  match Re.bold_option line with
  | Some (c, g2, g3) =>
      let txt := Str.strip g2 in
      let extra := Str.strip g3 in
      Some (Choice (String (Char.lower c) "")
                   (if Str.nonempty extra then txt +:+ " " +:+ extra else txt)
                   true)
  | None =>
      match Re.plain_option line with
      | Some (c, g2) => Some (Choice (String (Char.lower c) "") (Str.strip g2) false)
      | None => None
      end
  end.

(** A body line that goes to the description: not an option, not a
    table row, not blank. *)
Definition desc_line (line : string) : bool :=
  bool_decide (Re.bold_option line = None)
  && bool_decide (Re.plain_option line = None)
  && negb (Str.startswith "|" (Str.strip line))
  && Str.nonempty (Str.strip line).

(** The number of marker lines from each question header of a document
    to the next header or the end, written from the words of the
    property: [cur] counts for the question being read, [in_sec] says
    that a section header was seen.  A question header in front of the
    first section header opens no question of the document. *)
Fixpoint marker_counts (cur : option nat) (in_sec : bool) (lines : list string)
    : list nat :=
  match lines with
  | [] => option_list cur
  | line :: rest =>
      if bool_decide (is_Some (Re.section_header line))
      then option_list cur ++ marker_counts None true rest
      else if bool_decide (is_Some (Re.question_header line))
      then option_list cur ++
           marker_counts (if in_sec then Some 0 else None) in_sec rest
      else if Re.answer_marker line
      then marker_counts (S <$> cur) in_sec rest
      else marker_counts cur in_sec rest
  end.

(** In a state of the value-passing parser: whether a section is open,
    and the slots met so far in the question being read when it belongs
    to the document. *)
Definition in_section (st : Builder.state) : bool :=
  match Builder.secs st with [] => false | _ => true end.

Definition slots_so_far (st : Builder.state) : option nat :=
  if in_section st then
    (λ q, length (answers q) + (if Builder.collecting_answer st then 1 else 0))
      <$> Builder.cur st
  else None.

(** The number of answers of each question. *)
Definition answer_counts (qs : list question) : list nat :=
  (λ q, length (answers q)) <$> qs.

(** A question whose options and description are those of the lines
    [body], all of them lines of [L]. *)
Definition classified_by (body : list string) (q : question) : Prop :=
  options q = omap classify body ∧
  description q = Str.strip (Str.unlines (List.filter desc_line body)).

Definition classified (L : list string) (q : question) : Prop :=
  ∃ body, body ⊆ L ∧ classified_by body q.

(** What holds of a state of the value-passing parser while it reads
    lines of [L]. *)
Definition body_inv (L : list string) (st : Builder.state) : Prop :=
  Forall (classified L) (all_questions (Builder.secs st)) ∧
  Builder.body_buf st ⊆ L.

(** A line of the shape of a default option. *)
Definition is_bold (line : string) : bool :=
  bool_decide (is_Some (Re.bold_option line)).

End Parser_spec.

Module Gen_spec.

(** Every id a plan refers to. *)
Definition plan_ids (p : Gen.plan) : list string := p ≫= snd.

(** The lines of one question of the output. *)
Definition question_lines (sec_idx q_idx : nat) (b : block) : list string :=
  [Gen.question_line sec_idx q_idx (title b); body b; ""].

(** The four lines that open a section of the output. *)
Definition section_lines (sec_idx : nat) (sec_title : string) : list string :=
  ["---"; ""; Gen.section_line sec_idx sec_title; ""].

(** Numbering by position in the plan: entry [i] (from 0) is section
    [i + 1], and the id at place [j] of its list, when the source has
    it, is question [j + 1] of that section. *)
Definition positional_questions (blocks : list (string * block))
    (sec_idx : nat) (qids : list string) : list string :=
  concat (imap (λ j old_id,
                  match Dict.get old_id blocks with
                  | Some b => question_lines sec_idx (S j) b
                  | None => []
                  end) qids).

Definition positional_out (blocks : list (string * block)) (p : Gen.plan)
    : list string :=
  Gen.preamble ++
  concat (imap (λ i '(sec_title, qids),
                  section_lines (S i) sec_title ++
                  positional_questions blocks (S i) qids) p) ++
  Gen.trailer.

(** Numbering without gaps, from the words of the property: the
    questions written for a section carry the ordinals 1 to M, M being
    the number of questions written. *)
Definition emitted (blocks : list (string * block)) (qids : list string)
    : list block :=
  omap (λ old_id, Dict.get old_id blocks) qids.

Definition contiguous_questions (sec_idx : nat) (bs : list block) : list string :=
  concat (imap (λ j b, question_lines sec_idx (S j) b) bs).

Definition contiguous_out (blocks : list (string * block)) (p : Gen.plan)
    : list string :=
  Gen.preamble ++
  concat (imap (λ i '(sec_title, qids),
                  section_lines (S i) sec_title ++
                  contiguous_questions (S i) (emitted blocks qids)) p) ++
  Gen.trailer.

(** The number a section header line carries and the two numbers of a
    question header line, read the way the patterns of [parse_raw] and
    [save_answers] read them. *)
Definition section_number (line : string) : option N :=
  r ← Str.after "## " line;
  '(d, r) ← Re.digits1 r;
  _ ← Str.after "." r;
  Some (int_of_digits d).

Definition question_number (line : string) : option (N * N) :=
  r ← Str.after "### " line;
  '(d1, r) ← Re.digits1 r;
  r ← Str.after "." r;
  '(d2, _) ← Re.digits1 r;
  Some (int_of_digits d1, int_of_digits d2).

(** A string of decimal digits. *)
Fixpoint all_digits (s : string) : bool :=
  match s with
  | EmptyString => true
  | String c s' => Char.is_digit c && all_digits s'
  end.

(** An id of the source that is in no plan entry and not removed. *)
Definition unmapped (p : Gen.plan) (removed : gset string)
    (blocks : list (string * block)) (old_id : string) : Prop :=
  old_id ∈ Dict.keys blocks ∧ (old_id ∉ plan_ids p) ∧ (old_id ∉ removed).

(** An id of the plan that the source does not have. *)
Definition missing (p : Gen.plan) (blocks : list (string * block))
    (old_id : string) : Prop :=
  old_id ∈ plan_ids p ∧ Dict.get old_id blocks = None.

End Gen_spec.

Module Roundtrip.

(** The answer mapping read off a parsed document: the key of slot [i]
    of question [q] is bound to the answer recorded at that place. *)
Definition question_answers (q : question) : list (string * string) :=
  imap (λ i a, (q_id q +:+ "_" +:+ pretty i, a)) (answers q).

Definition model_answers (doc : list section) : gmap string string :=
  list_to_map (Parser_spec.all_questions doc ≫= question_answers).

(** [same_but_blank src out]: [out] is [src] but for one blank line that
    may be added at the end of a slot, in front of the boundary. *)
Inductive same_but_blank : list string → list string → Prop :=
| sbb_nil :
    same_but_blank [] []
| sbb_keep line rest out :
    Re.answer_marker line = false →
    same_but_blank rest out →
    same_but_blank (line :: rest) (line :: out)
| sbb_slot marker old blank rest out :
    Re.answer_marker marker = true →
    Forall (λ l, Saver.is_boundary l = false) old →
    Saver_spec.at_boundary rest →
    blank = [] ∨ blank = [""] →
    same_but_blank rest out →
    same_but_blank (marker :: old ++ rest) (marker :: old ++ blank ++ out).

(** The round trip as a property of a text. *)
Definition round_trip (text : string) : Prop :=
  same_but_blank (Str.lines text)
    (Str.lines (save_answers (model_answers (parse_markdown text)) text)).

(** A slot whose lines are the text the mapping has for it, with at most
    one blank line behind; when the mapping has no text for it, or a
    blank one, the slot is empty or one empty line. *)
Definition slot_recorded (answers : gmap string string)
    (p : Saver_spec.piece) : bool :=
  match p with
  | Saver_spec.Kept _ => true
  | Saver_spec.Slot _ key old _ =>
      match Saver.new_answer answers key with
      | a :: _ => bool_decide (old = Str.lines a ∨ old = Str.lines a ++ [""])
      | [] => bool_decide (old = [] ∨ old = [""])
      end
  end.

(** The text the parser records for a slot with the lines [old]. *)
Definition slot_text (old : list string) : string :=
  Str.strip (Str.unlines old).

(** A slot that holds its own recorded text, with at most one blank line
    behind it; or, when that text is blank, nothing or one empty line. *)
Definition clean (old : list string) : bool :=
  let a := slot_text old in
  if Str.nonempty (Str.strip a)
  then bool_decide (old = Str.lines a ∨ old = Str.lines a ++ [""])
  else bool_decide (old = [] ∨ old = [""]).

(** The end of a slot on which parser and rewriter agree: the end of the
    text, or a line that ends the slot for both. *)
Definition slot_end (rest : list string) : Prop :=
  match rest with
  | [] => True
  | b :: _ => Saver.is_boundary b = true ∧ Parser_spec.ends_slot b = true
  end.

(** Documents in canonical form.  [canonical s q lines]: [lines] is the
    rest of such a document, [s] saying that a section header came
    before and [q] that a question is being read.  Question headers
    stand under a section, markers inside a question, the rewriter
    takes no other line for a question header, and each slot is [clean],
    holds no line that ends it for the parser, and ends at a
    [slot_end]. *)
Inductive canonical : bool → bool → list string → Prop :=
| can_nil s q :
    canonical s q []
| can_section s q line rest :
    is_Some (Re.section_header line) →
    canonical true false rest →
    canonical s q (line :: rest)
| can_question q line rest :
    Re.section_header line = None →
    is_Some (Re.question_header line) →
    canonical true true rest →
    canonical true q (line :: rest)
| can_plain s q line rest :
    Parser_spec.not_header line →
    Re.answer_marker line = false →
    Re.question_id line = None →
    canonical s q rest →
    canonical s q (line :: rest)
| can_slot s marker old rest :
    Re.answer_marker marker = true →
    Forall (λ l, Saver.is_boundary l = false ∧ Parser_spec.ends_slot l = false) old →
    clean old = true →
    slot_end rest →
    canonical s true rest →
    canonical s true (marker :: old ++ rest).

(** Key and recorded text of the slots of a text, as the rewriter finds
    them from the position [(q, i)] on. *)
Definition slot_table (q : option string) (i : nat) (lines : list string)
    : list (string * string) :=
  omap (λ p, match p with
             | Saver_spec.Slot _ (Some k) old _ => Some (k, slot_text old)
             | _ => None
             end)
       (Saver_spec.pieces ∅ q i lines).

(** Key and answer of every answer of a document. *)
Definition table (doc : list section) : list (string * string) :=
  Parser_spec.all_questions doc ≫= question_answers.

(** The answers of the question being read, the one still being
    collected included. *)
Definition recorded (st : Builder.state) : list string :=
  match Builder.cur st with
  | Some cq =>
      answers cq ++
      (if Builder.collecting_answer st then [slot_text (Builder.answer_buf st)] else [])
  | None => []
  end.

Definition cur_table (st : Builder.state) : list (string * string) :=
  match Builder.cur st with
  | Some cq => imap (λ i a, (q_id cq +:+ "_" +:+ pretty i, a)) (recorded st)
  | None => []
  end.

(** Parser and rewriter at the same place of a canonical document. *)
Definition linked (inq : bool) (st : Builder.state)
    (rq : option string) (ri : nat) : Prop :=
  if inq then
    ∃ cq, Builder.cur st = Some cq ∧ rq = Some (q_id cq) ∧
          Str.nonempty (q_id cq) = true ∧ ri = length (recorded st)
  else Builder.cur st = None.

(** The lines that are not empty. *)
Definition nonempty_lines (l : list string) : list string :=
  List.filter Str.nonempty l.

End Roundtrip.

(** ** Further notions: slots, outline, fields, blocks, report *)

Module Slots.

(** The keys of the answer slots of a text, in order: the key of a marker
    line is made of the id of the last question header above it and the
    number of markers between the two.  A marker above every question
    header has no key. *)
Fixpoint keys_from (cur_qid : option string) (answer_idx : nat)
    (lines : list string) : list string :=
  match lines with
  | [] => []
  | line :: rest =>
      match Re.question_id line with
      | Some q => keys_from (Some q) 0 rest
      | None =>
          if Re.answer_marker line
          then option_list (Saver.slot_key cur_qid answer_idx) ++
               keys_from cur_qid (S answer_idx) rest
          else keys_from cur_qid answer_idx rest
      end
  end.

Definition keys (text : string) : list string :=
  keys_from None 0 (Str.lines text).

(** An answer mapping whose texts the rewriter will step over when it
    meets them again: no line of a text that is not blank is a boundary. *)
Definition plain (answers : gmap string string) : Prop :=
  ∀ k a, answers !! k = Some a → Str.nonempty (Str.strip a) = true →
         Forall (λ l, Saver.is_boundary l = false) (Str.lines a).

End Slots.

Module Readback.

(** Documents on whose slots parser and rewriter agree.
    [aligned s q lines]: [lines] is the rest of such a document, [s]
    saying that a section header came before and [q] that a question is
    being read.  Question headers stand under a section, markers inside
    a question, the rewriter takes no other line for a question header,
    no line of a slot ends it for the parser, and each slot ends at a
    line that ends it for both, or at the end of the text. *)
Inductive aligned : bool → bool → list string → Prop :=
| al_nil s q :
    aligned s q []
| al_section s q line rest :
    is_Some (Re.section_header line) →
    aligned true false rest →
    aligned s q (line :: rest)
| al_question q line rest :
    Re.section_header line = None →
    is_Some (Re.question_header line) →
    aligned true true rest →
    aligned true q (line :: rest)
| al_plain s q line rest :
    Parser_spec.not_header line →
    Re.answer_marker line = false →
    Re.question_id line = None →
    aligned s q rest →
    aligned s q (line :: rest)
| al_slot s marker old rest :
    Re.answer_marker marker = true →
    Forall (λ l, Saver.is_boundary l = false ∧ Parser_spec.ends_slot l = false) old →
    Roundtrip.slot_end rest →
    aligned s true rest →
    aligned s true (marker :: old ++ rest).

(** Answer texts that stay inside their slot for parser and rewriter. *)
Definition inside (answers : gmap string string) : Prop :=
  ∀ k a, answers !! k = Some a → Str.nonempty (Str.strip a) = true →
         Forall (λ l, Saver.is_boundary l = false ∧ Parser_spec.ends_slot l = false)
                (Str.lines a).

(** What the parser records for the slot with key [k] after a save. *)
Definition saved (answers : gmap string string) (k : string) : string * string :=
  (k, Str.strip (default "" (answers !! k))).

End Readback.

Module Outline.

(** The headers of a text, read off its lines: for each section header
    its number and title and the question headers up to the next section
    header, each with its id and title. *)
Definition entry : Type := N * string * list (string * string).

Fixpoint heads (lines : list string) : list (string * string) :=
  match lines with
  | [] => []
  | line :: rest =>
      match Re.section_header line with
      | Some _ => []
      | None =>
          match Re.question_header line with
          | Some (qid, t) => (qid, Str.strip t) :: heads rest
          | None => heads rest
          end
      end
  end.

Fixpoint sections (lines : list string) : list entry :=
  match lines with
  | [] => []
  | line :: rest =>
      match Re.section_header line with
      | Some (d, t) => (int_of_digits d, Str.strip t, heads rest) :: sections rest
      | None => sections rest
      end
  end.

(** The same of a parsed document. *)
Definition of_question (q : question) : string * string := (q_id q, q_title q).

Definition of_section (s : section) : entry :=
  (sec_id s, sec_title s, of_question <$> questions s).

(** The question headers are added to the entry of the section read
    last. *)
Definition add_heads (hs : list (string * string)) (e : entry) : entry :=
  (e.1, e.2 ++ hs).

End Outline.

Module Fields.

(** A text with no white space at either end. *)
Definition stripped (s : string) : Prop := Str.strip s = s.

(** The shape of an option id: one lower-case letter. *)
Definition lower_letter (s : string) : Prop :=
  ∃ c, s = String c "" ∧ Char.is_lower c = true.

(** A body line that is a row of the table: it is no option line, starts
    with a bar once stripped, and not all of its cells are separator
    cells. *)
Definition is_row (line : string) : bool :=
  bool_decide (Re.bold_option line = None)
  && bool_decide (Re.plain_option line = None)
  && Str.startswith "|" (Str.strip line)
  && negb (forallb Re.separator_cell (Body.cells line)).

Definition rows_of (lines : list string) : list (list string) :=
  Body.cells <$> List.filter is_row lines.

End Fields.

Module Table_spec.

(** The table rows seen so far by the loop of [_process_body], the
    header row first. *)
Definition seen (a : Body.acc) : list (list string) :=
  match Body.table_headers a with
  | None => []
  | Some h => h :: Body.table_rows a
  end.

End Table_spec.

Module Raw_spec.

(** The ids of the question headers of the lines, in order. *)
Definition header_ids (lines : list string) : list string :=
  omap (λ l, fst <$> Re.question_header l) lines.

(** The elements of a list in the order in which they are first met. *)
Definition first_seen (ids : list string) : list string :=
  foldl (λ acc k, if bool_decide (k ∈ acc) then acc else acc ++ [k]) [] ids.

(** A line that [parse_raw] takes into a body: no question header and no
    section header. *)
Definition body_line (line : string) : Prop :=
  Re.question_header line = None ∧ Re.raw_section line = false.

(** Where a block ends: at the end of the text or in front of a header. *)
Definition block_end (rest : list string) : Prop :=
  match rest with
  | [] => True
  | l :: _ => is_Some (Re.question_header l) ∨ Re.raw_section l = true
  end.

(** A text that does not end in blank or divider lines. *)
Definition trimmed (s : string) : Prop :=
  Str.unlines (Raw.trim_end (Str.lines s)) = s.

(** An id of the form digits, dot, digits. *)
Definition dotted (k : string) : Prop :=
  ∃ d1 d2, k = d1 +:+ "." +:+ d2 ∧ Str.split "." k = [d1; d2] ∧
           Gen_spec.all_digits d1 = true ∧ Gen_spec.all_digits d2 = true ∧
           d1 ≠ "" ∧ d2 ≠ "".

(** What holds of every block [parse_raw] returns. *)
Definition well_formed (k : string) (b : block) : Prop :=
  dotted k ∧
  Fields.stripped (title b) ∧ Saver_spec.single_line (title b) ∧
  trimmed (body b) ∧ Forall body_line (Str.lines (body b)).

End Raw_spec.

Module Log_spec.

(** The order of two ids by the numbers they are made of: the tuple
    order on the sort keys. *)
Definition key_order (k1 k2 : string) : Prop :=
  Gen.key_le (Gen.sort_key k1) (Gen.sort_key k2) = true.

(** The ids of the source that are warned about, in the order of the
    report, and the ids of the plan that the source lacks, in the order
    of the plan. *)
Definition warned (p : Gen.plan) (removed : gset string)
    (blocks : list (string * block)) : list string :=
  filter (λ k, (k ∉ Gen_spec.plan_ids p) ∧ (k ∉ removed))
         (Gen.sorted (Dict.keys blocks)).

Definition lacking (p : Gen.plan) (blocks : list (string * block)) : list string :=
  filter (λ k, Dict.get k blocks = None) (Gen_spec.plan_ids p).

Definition title_of (blocks : list (string * block)) (k : string) : string :=
  default "" (title <$> Dict.get k blocks).

End Log_spec.

Module Reparse.

(** The id a question is written with. *)
Definition new_id (sec_idx q_idx : nat) : string :=
  pretty sec_idx +:+ "." +:+ pretty q_idx.

(** The blocks written for the ids of a plan entry, under their new
    ids, counting from [q_idx]. *)
Fixpoint numbered (blocks : list (string * block)) (sec_idx q_idx : nat)
    (qids : list string) : list (string * block) :=
  match qids with
  | [] => []
  | old_id :: qids' =>
      match Dict.get old_id blocks with
      | Some b => (new_id sec_idx q_idx, b) :: numbered blocks sec_idx (S q_idx) qids'
      | None => numbered blocks sec_idx (S q_idx) qids'
      end
  end.

(** A block with the closing lines of the output behind its body, the
    last empty line apart. *)
Definition with_trailer (kb : string * block) : string * block :=
  (kb.1,
   Block (title kb.2)
         (Str.unlines (Str.lines (body kb.2) ++ "" :: removelast Gen.trailer))).

(** The blocks [parse_raw] finds in the text written for a plan. *)
Fixpoint reparsed (blocks : list (string * block)) (sec_idx : nat)
    (p : Gen.plan) : list (string * block) :=
  match p with
  | [] => []
  | (_, qids) :: p' =>
      match p' with
      | [] => Parser.alter_last with_trailer (numbered blocks sec_idx 1 qids)
      | _ => numbered blocks sec_idx 1 qids
      end ++ reparsed blocks (S sec_idx) p'
  end.

(** An id written before the question [q_idx] of the section [sec_idx]. *)
Definition older (sec_idx q_idx : nat) (id : string) : Prop :=
  ((Gen.sort_key id).1 < N.of_nat sec_idx ∨
   ((Gen.sort_key id).1 = N.of_nat sec_idx ∧
    (Gen.sort_key id).2 < N.of_nat q_idx))%N.

(** The state of [parse_raw] between two questions of the text written:
    no question is open, or the one written last is, with its body and
    the empty line behind it in [lines]. *)
Definition closed (st : Raw.state) (B : list (string * block)) : Prop :=
  st = Raw.State B None [].

Definition open (st : Raw.state) (B : list (string * block)) : Prop :=
  ∃ B' id b,
    B = B' ++ [(id, b)] ∧ (id ∉ Dict.keys B') ∧ Raw_spec.trimmed (body b) ∧
    Forall Raw_spec.body_line (Str.lines (body b)) ∧
    st = Raw.State (B' ++ [(id, Block (title b) "")]) (Some id)
                   (Str.lines (body b) ++ [""]).

(** A block that can be written and read back: well formed, with a
    title. *)
Definition writable (b : block) : Prop :=
  Fields.stripped (title b) ∧ Saver_spec.single_line (title b) ∧
  title b ≠ "" ∧
  Raw_spec.trimmed (body b) ∧ Forall Raw_spec.body_line (Str.lines (body b)).

End Reparse.

(** ** The command line of the server ([main] of [server.py]) *)

Module Server.

Section port.
(** [int] on the argument of [--port] is a parameter: its value, or
    [None] where it raises. *)
Variable int : string → option Z.

(** [for i, a in enumerate(sys.argv[1:])]: [args] is what is left of
    [sys.argv[1:]], [a] its first element; [i + 2 < len(sys.argv)] says
    that an element follows [a], and this element is [sys.argv[i + 2]].
    [None] stands for the exception [int] raises. *)
Fixpoint scan (port : Z) (args : list string) : option Z :=
  match args with
  | [] => Some port
  | a :: rest =>
      if decide (a = "--port") then
        match rest with
        | v :: _ =>
            match int v with
            | Some n => scan n rest
            | None => None
            end
        | [] => scan port rest
        end
      else scan port rest
  end.

(** The port [main] gives to the server for the command line [argv]. *)
Definition port_of (argv : list string) : option Z :=
  scan 7890 (List.tl argv).

End port.

End Server.

(** ** The question count of the migrator ([main] of [reorganize.py]) *)

Module Count.

(** [s.count(sub)] for a non-empty [sub]: the occurrences of [sub] from
    left to right that do not overlap; [skip] characters of the match
    found last are still to be passed. *)
Fixpoint count_from (sub : string) (skip : nat) (s : string) : nat :=
  match s with
  | EmptyString => 0
  | String _ s' =>
      match skip with
      | S n => count_from sub n s'
      | O =>
          if Str.startswith sub s
          then S (count_from sub (String.length sub - 1) s')
          else count_from sub 0 s'
      end
  end.

Definition count (sub s : string) : nat := count_from sub 0 s.

(** [new_q_count = result.count("\n### ")] *)
Definition new_q_count (result : string) : nat :=
  count (String Char.newline "### ") result.

(** The lines that start like a question header. *)
Definition starts_question (line : string) : bool := Str.startswith "### " line.

(** The lines a block gives the output that start like a question
    header: its own header and the lines of its body that start so. *)
Definition header_like (b : block) : nat :=
  S (length (List.filter starts_question (Str.lines (body b)))).

(** The blocks written for a plan, one for each occurrence of an id the
    source has. *)
Definition written (blocks : list (string * block)) (p : Gen.plan) : list block :=
  omap (λ old_id, Dict.get old_id blocks) (Gen_spec.plan_ids p).

End Count.

(** * Properties *)

(** ** Lines of a text *)

Lemma split_not_nil sep s : Str.split sep s ≠ [].
Proof.
  destruct s as [|c s]; simpl; [done|].
  destruct (decide (c = sep)); [done|]. by destruct (Str.split sep s).
Qed.

Lemma split_app_sep sep x s :
  Str.split sep (x +:+ String sep s) = Str.split sep x ++ Str.split sep s.
Proof.
  induction x as [|c x IH]; simpl.
  - by rewrite decide_True.
  - change (String c x +:+ String sep s) with (String c (x +:+ String sep s)).
    simpl. destruct (decide (c = sep)); [by rewrite IH|].
    rewrite IH. pose proof (split_not_nil sep x).
    by destruct (Str.split sep x).
Qed.

Lemma lines_unlines l :
  l ≠ [] → Str.lines (Str.unlines l) = l ≫= Str.lines.
Proof.
  unfold Str.lines, Str.unlines.
  induction l as [|x l IH]; [done|intros _].
  destruct l as [|y l].
  - simpl. by rewrite app_nil_r.
  - change (Str.join Char.newline (x :: y :: l))
      with (x +:+ String Char.newline (Str.join Char.newline (y :: l))).
    rewrite split_app_sep, IH by done. done.
Qed.

Lemma unlines_lines s : Str.unlines (Str.lines s) = s.
Proof.
  unfold Str.lines, Str.unlines.
  induction s as [|c s IH]; [done|]. simpl.
  destruct (decide (c = Char.newline)) as [->|Hc].
  - pose proof (split_not_nil Char.newline s).
    destruct (Str.split Char.newline s) as [|h t] eqn:E; [done|].
    change (Str.join Char.newline ("" :: h :: t))
      with ("" +:+ String Char.newline (Str.join Char.newline (h :: t))).
    by rewrite IH.
  - pose proof (split_not_nil Char.newline s).
    destruct (Str.split Char.newline s) as [|h t] eqn:E; [done|].
    destruct t as [|h' t]; simpl in *; [by rewrite IH|].
    change (String c h +:+ ?r) with (String c (h +:+ r)). by rewrite IH.
Qed.

Lemma lines_single_line s : Forall Saver_spec.single_line (Str.lines s).
Proof.
  unfold Saver_spec.single_line, Str.lines.
  induction s as [|c s IH]; simpl; [by constructor|].
  destruct (decide (c = Char.newline)) as [->|Hc].
  - by constructor.
  - pose proof (split_not_nil Char.newline s).
    destruct (Str.split Char.newline s) as [|h t] eqn:E; [done|].
    inversion IH as [|?? Hh Ht]; subst. constructor; [|done].
    simpl. rewrite decide_False by done. by rewrite Hh.
Qed.

(** ** The rewriter: skipping, boundaries and the shape of the loop *)

Section saver_facts.
Import Saver Saver_spec.

Lemma after_startswith p s r : Str.after p s = Some r → Str.startswith p s = true.
Proof.
  revert s. induction p as [|a p IH]; intros [|b s]; simpl; try done.
  destruct (decide (a = b)); [apply IH|done].
Qed.

Lemma marker_is_boundary line :
  Re.answer_marker line = true → is_boundary line = true.
Proof. unfold is_boundary. intros ->. by rewrite !orb_true_r. Qed.

Lemma question_id_is_boundary line q :
  Re.question_id line = Some q → is_boundary line = true.
Proof.
  unfold Re.question_id, is_boundary. intros H.
  destruct (Str.after "### " line) as [r|] eqn:E; [|done].
  by rewrite (after_startswith _ _ _ E).
Qed.

Lemma not_boundary_plain line :
  is_boundary line = false →
  Re.question_id line = None ∧ Re.answer_marker line = false.
Proof.
  intros Hb. split.
  - destruct (Re.question_id line) eqn:E; [|done].
    apply question_id_is_boundary in E. congruence.
  - destruct (Re.answer_marker line) eqn:E; [|done].
    apply marker_is_boundary in E. congruence.
Qed.

Lemma marker_not_header line :
  Re.answer_marker line = true → Re.question_id line = None.
Proof.
  unfold Re.answer_marker, Re.question_id.
  destruct line as [|c line]; [done|]. simpl.
  destruct (decide ("Y"%char = c)) as [<-|]; [|done].
  by rewrite decide_False.
Qed.

Lemma skipped_skip_old rest : skipped rest ++ skip_old rest = rest.
Proof.
  induction rest as [|l rest IH]; simpl; [done|].
  destruct (is_boundary l); simpl; [done|by rewrite IH].
Qed.

Lemma skipped_not_boundary rest :
  Forall (λ l, is_boundary l = false) (skipped rest).
Proof.
  induction rest as [|l rest IH]; simpl; [constructor|].
  destruct (is_boundary l) eqn:E; by constructor.
Qed.

Lemma skip_old_at_boundary rest : at_boundary (skip_old rest).
Proof.
  induction rest as [|l rest IH]; simpl; [done|].
  by destruct (is_boundary l) eqn:E.
Qed.

Lemma skip_old_length rest : length (skip_old rest) ≤ length rest.
Proof.
  induction rest as [|l rest IH]; simpl; [done|].
  destruct (is_boundary l); simpl; lia.
Qed.

Lemma skip_old_stops rest : at_boundary rest → skip_old rest = rest.
Proof. destruct rest as [|b rest]; simpl; [done|by intros ->]. Qed.

Lemma skipped_stops rest : at_boundary rest → skipped rest = [].
Proof. destruct rest as [|b rest]; simpl; [done|by intros ->]. Qed.

Lemma skip_old_app old rest :
  Forall (λ l, is_boundary l = false) old →
  skip_old (old ++ rest) = skip_old rest.
Proof. induction 1 as [|l old Hl _ IH]; simpl; [done|by rewrite Hl]. Qed.

Lemma skipped_app old rest :
  Forall (λ l, is_boundary l = false) old →
  skipped (old ++ rest) = old ++ skipped rest.
Proof. induction 1 as [|l old Hl _ IH]; simpl; [done|by rewrite Hl, IH]. Qed.

(** Induction along the control flow of [save_answers]: a line is either
    passed through, or it is a marker and the loop goes on behind the
    lines it skips. *)
Lemma saver_ind (P : list string → Prop) :
  P [] →
  (∀ line rest, Re.answer_marker line = false → P rest → P (line :: rest)) →
  (∀ marker rest,
      Re.answer_marker marker = true → P (skip_old rest) → P (marker :: rest)) →
  ∀ lines, P lines.
Proof.
  intros Hnil Hkeep Hslot lines.
  remember (length lines) as n eqn:Hn. revert lines Hn.
  induction n as [n IH] using lt_wf_ind. intros [|line rest] Hn; [done|].
  simpl in Hn. destruct (Re.answer_marker line) eqn:Hm.
  - apply Hslot; [done|]. apply (IH (length (skip_old rest))); [|done].
    pose proof (skip_old_length rest). lia.
  - apply Hkeep; [done|]. apply (IH (length rest)); [lia|done].
Qed.

Lemma loop_keep answers q i line rest :
  Re.answer_marker line = false →
  loop answers q i (line :: rest) =
  line :: loop answers (advance (q, i) line).1 (advance (q, i) line).2 rest.
Proof.
  intros Hm. simpl. unfold advance. rewrite Hm.
  by destruct (Re.question_id line).
Qed.

Lemma loop_marker answers q i marker rest :
  Re.answer_marker marker = true →
  loop answers q i (marker :: rest) =
  marker :: new_answer answers (slot_key q i) ++
  "" :: loop answers q (S i) (skip_old rest).
Proof.
  intros Hm. simpl. by rewrite (marker_not_header _ Hm), Hm.
Qed.

Lemma advance_marker q i marker :
  Re.answer_marker marker = true → advance (q, i) marker = (q, S i).
Proof. intros Hm. unfold advance. by rewrite (marker_not_header _ Hm), Hm. Qed.

Lemma state_after_not_boundary st old :
  Forall (λ l, is_boundary l = false) old → state_after st old = st.
Proof.
  unfold state_after. intros H. revert st.
  induction H as [|l old Hl _ IH]; intros [q i]; simpl; [done|].
  destruct (not_boundary_plain _ Hl) as [Hq Hm].
  unfold advance at 2. rewrite Hq, Hm. apply IH.
Qed.

Lemma skip_old_app_boundary pre rest :
  at_boundary rest → skip_old (pre ++ rest) = skip_old pre ++ rest.
Proof.
  intros Hrest. induction pre as [|l pre IH]; simpl; [by apply skip_old_stops|].
  by destruct (is_boundary l).
Qed.

Lemma state_after_skip_old st pre :
  state_after st (skip_old pre) = state_after st pre.
Proof.
  transitivity (state_after st (skipped pre ++ skip_old pre));
    [|by rewrite skipped_skip_old].
  unfold state_after. rewrite foldl_app. fold (state_after st (skipped pre)).
  by rewrite (state_after_not_boundary st (skipped pre))
    by apply skipped_not_boundary.
Qed.

(** The loop can be cut in front of any boundary line: what it appends
    for the lines before depends on nothing behind them. *)
Lemma loop_app answers q i pre rest :
  at_boundary rest →
  loop answers q i (pre ++ rest) =
  loop answers q i pre ++
  loop answers (state_after (q, i) pre).1 (state_after (q, i) pre).2 rest.
Proof.
  intros Hrest. revert q i.
  induction pre as [|line pre Hm IH|marker pre Hm IH] using saver_ind; intros q i.
  - done.
  - rewrite <-app_comm_cons, !loop_keep by done. unfold state_after. simpl.
    destruct (advance (q, i) line) as [q' i']. simpl. by rewrite IH.
  - rewrite <-app_comm_cons, !loop_marker by done.
    rewrite skip_old_app_boundary, IH by done.
    rewrite state_after_skip_old.
    unfold state_after at 3 4. simpl. rewrite advance_marker by done.
    by rewrite <-!app_assoc.
Qed.

End saver_facts.

Create HintDb slots.
#[local] Hint Resolve Saver_spec.frame_nil skipped_not_boundary
  skip_old_at_boundary marker_is_boundary : slots.

(** ** The rewriter: frame, replacement and idempotence *)

Section saver_properties.
Import Saver Saver_spec.

Lemma loop_pieces answers q i lines :
  loop answers q i lines = pieces answers q i lines ≫= render.
Proof.
  revert q i.
  induction lines as [|line rest Hm IH|marker rest Hm IH] using saver_ind;
    intros q i; [done|..].
  - rewrite loop_keep by done. simpl. rewrite Hm.
    unfold advance. rewrite Hm.
    destruct (Re.question_id line); simpl; by rewrite IH.
  - rewrite loop_marker by done. simpl.
    rewrite (marker_not_header _ Hm), Hm. simpl.
    by rewrite IH, <-app_assoc.
Qed.

Lemma source_pieces answers q i lines :
  pieces answers q i lines ≫= source = lines.
Proof.
  revert q i.
  induction lines as [|line rest Hm IH|marker rest Hm IH] using saver_ind;
    intros q i; [done|..].
  - simpl. rewrite Hm. destruct (Re.question_id line); simpl; by rewrite IH.
  - simpl. rewrite (marker_not_header _ Hm), Hm. simpl.
    by rewrite IH, skipped_skip_old.
Qed.

Lemma loop_frame answers q i lines : frame lines (loop answers q i lines).
Proof.
  revert q i.
  induction lines as [|line rest Hm IH|marker rest Hm IH] using saver_ind;
    intros q i.
  - constructor.
  - rewrite loop_keep by done. by constructor.
  - rewrite loop_marker by done.
    rewrite <-(skipped_skip_old rest) at 1.
    change (new_answer answers (slot_key q i) ++
            "" :: loop answers q (S i) (skip_old rest))
      with (new_answer answers (slot_key q i) ++
            [""] ++ loop answers q (S i) (skip_old rest)).
    rewrite app_assoc.
    apply frame_slot; auto with slots.
Qed.

Lemma pieces_insert answers k v q i lines :
  Forall2 (same_outside k)
    (pieces answers q i lines) (pieces (<[k:=v]> answers) q i lines).
Proof.
  revert q i.
  induction lines as [|line rest Hm IH|marker rest Hm IH] using saver_ind;
    intros q i; [constructor|..].
  - simpl. rewrite Hm.
    destruct (Re.question_id line); constructor; auto; by left.
  - simpl. rewrite (marker_not_header _ Hm), Hm.
    constructor; [|done].
    destruct (slot_key q i) as [k'|] eqn:Hk; [|by left].
    destruct (decide (k = k')) as [<-|Hne].
    + right. by eexists _, _, _, _.
    + left. simpl. by rewrite lookup_insert_ne.
Qed.

(** C2 (slot isolation, frame condition).  For every text and answer
    mapping, the output of the rewriter is the input with nothing changed
    outside the spans between a marker line and the boundary that ends
    its slot; and setting one key of the mapping changes nothing but the
    text written into the slots that carry this key. *)
Theorem rewrite_frame_and_isolation
    (answers : gmap string string) (k v text : string) :
  frame (Str.lines text) (Saver.result answers text) ∧
  save_answers answers text =
    Str.unlines (pieces answers None 0 (Str.lines text) ≫= render) ∧
  text = Str.unlines (pieces answers None 0 (Str.lines text) ≫= source) ∧
  Forall2 (same_outside k)
    (pieces answers None 0 (Str.lines text))
    (pieces (<[k:=v]> answers) None 0 (Str.lines text)).
Proof.
  split_and!.
  - apply loop_frame.
  - unfold save_answers, Saver.result. by rewrite loop_pieces.
  - by rewrite source_pieces, unlines_lines.
  - apply pieces_insert.
Qed.

Lemma new_answer_unanswered answers key :
  unanswered answers key → new_answer answers key = [].
Proof.
  unfold unanswered, new_answer. destruct key as [k|]; [|done].
  destruct (answers !! k) as [a|]; [|done]. by intros ->.
Qed.



Lemma bind_lines_cons x l :
  single_line x → (x :: l) ≫= Str.lines = x :: (l ≫= Str.lines).
Proof. unfold single_line. intros H. simpl. by rewrite H. Qed.

Lemma loop_head answers q i b rest :
  ∃ out, loop answers q i (b :: rest) = b :: out.
Proof.
  destruct (Re.answer_marker b) eqn:Hm.
  - rewrite loop_marker by done. eauto.
  - rewrite loop_keep by done. eauto.
Qed.

Lemma relines_at_boundary answers q i lines :
  Forall single_line lines → at_boundary lines →
  at_boundary (loop answers q i lines ≫= Str.lines).
Proof.
  destruct lines as [|b rest]; [done|].
  intros Hs Hb. destruct (loop_head answers q i b rest) as [out ->].
  inversion Hs; subst. by rewrite bind_lines_cons.
Qed.

Section idempotence.
Context (answers : gmap string string).
Hypothesis answers_plain :
  ∀ k a, answers !! k = Some a → Str.nonempty (Str.strip a) = true →
         Forall (λ l, is_boundary l = false) (Str.lines a).

Lemma new_answer_plain key :
  Forall (λ l, is_boundary l = false) (new_answer answers key ≫= Str.lines).
Proof.
  unfold new_answer. destruct key as [k|]; [|constructor].
  destruct (answers !! k) as [a|] eqn:Ha; [|constructor].
  destruct (Str.nonempty (Str.strip a)) eqn:Hne; [|constructor].
  simpl. rewrite app_nil_r. eauto.
Qed.

Lemma loop_relines lines :
  Forall single_line lines →
  ∀ q i, loop answers q i (loop answers q i lines ≫= Str.lines) =
         loop answers q i lines.
Proof.
  induction lines as [|line rest Hm IH|marker rest Hm IH] using saver_ind;
    intros Hs q i; [done|..].
  - inversion Hs as [|?? Hl Hr]; subst.
    rewrite loop_keep by done. rewrite bind_lines_cons by done.
    rewrite loop_keep by done. by rewrite IH.
  - inversion Hs as [|?? Hl Hr]; subst.
    assert (Forall single_line (skip_old rest)) as Hs'.
    { rewrite <-(skipped_skip_old rest) in Hr. by apply Forall_app in Hr as [_ ?]. }
    rewrite loop_marker by done. rewrite bind_lines_cons by done.
    rewrite bind_app, bind_lines_cons by reflexivity.
    rewrite loop_marker by done.
    rewrite skip_old_app by apply new_answer_plain.
    change (skip_old ("" :: ?l)) with (skip_old l).
    rewrite skip_old_stops
      by (apply relines_at_boundary; auto with slots).
    by rewrite IH.
Qed.

End idempotence.


End saver_properties.



(** ** The parser: in-place updates against the value-passing version *)

Section builder_refinement.
Import Parser.

Lemma alter_last_app {A} (f : A → A) l x :
  alter_last f (l ++ [x]) = l ++ [f x].
Proof.
  induction l as [|y l IH]; [done|]. simpl. rewrite IH.
  by destruct l.
Qed.

Lemma alter_last_compose {A} (f g : A → A) l :
  alter_last f (alter_last g l) = alter_last (f ∘ g) l.
Proof.
  induction l as [|y l IH]; [done|]. destruct l as [|z l]; [done|].
  change (alter_last g (y :: z :: l)) with (y :: alter_last g (z :: l)).
  change (alter_last (f ∘ g) (y :: z :: l)) with (y :: alter_last (f ∘ g) (z :: l)).
  rewrite <-IH. simpl. by destruct l.
Qed.

Lemma alter_last_ext {A} (f g : A → A) l :
  (∀ x, f x = g x) → alter_last f l = alter_last g l.
Proof.
  intros Hfg. induction l as [|y l IH]; [done|].
  destruct l as [|z l]; [simpl; by rewrite Hfg|].
  change (y :: alter_last f (z :: l) = y :: alter_last g (z :: l)).
  by rewrite IH.
Qed.

Lemma alter_last_nil {A} (f : A → A) l : alter_last f l = [] ↔ l = [].
Proof. destruct l as [|y [|z l]]; by split. Qed.

Lemma alter_last_snoc {A} (f : A → A) l :
  l ≠ [] → ∃ l' x, l = l' ++ [x] ∧ alter_last f l = l' ++ [f x].
Proof.
  intros Hl. destruct (exists_last Hl) as (l' & x & ->).
  exists l', x. by rewrite alter_last_app.
Qed.

Lemma embed_update_cur f st :
  update_cur_q f (Builder.embed st) = Builder.embed (Builder.update_cur f st).
Proof.
  destruct st as [ss [q|] ab bb c]; [|done].
  destruct ss as [|s ss]; [done|].
  unfold Builder.embed, update_cur_q, Builder.update_cur, Builder.commit.
  cbn -[alter_last set_questions].
  f_equal. rewrite alter_last_compose. apply alter_last_ext.
  intros [i t qs]. unfold set_questions. simpl. by rewrite alter_last_app.
Qed.

Lemma embed_close_answer c st :
  close_answer c (Builder.embed st) = Builder.embed (Builder.close_answer c st).
Proof.
  unfold close_answer. rewrite embed_update_cur.
  by destruct st as [ss [q|] ab bb c'].
Qed.

Lemma qref_match {A} (a b : A) r :
  r ≠ QNone → match r with QNone => a | _ => b end = b.
Proof. by destruct r. Qed.

Lemma embed_cur_q ss q ab bb c :
  cur_q (Builder.embed (Builder.State ss (Some q) ab bb c)) ≠ QNone.
Proof. simpl. by destruct ss. Qed.

Lemma embed_flush st :
  flush_question (Builder.embed st) = Builder.embed (Builder.flush_question st).
Proof.
  unfold flush_question, Builder.flush_question.
  destruct st as [ss [q|] ab bb c]; [|done].
  rewrite qref_match by apply embed_cur_q.
  change (collecting_answer (Builder.embed ?s)) with (Builder.collecting_answer s).
  cbn [Builder.cur Builder.collecting_answer].
  destruct c; rewrite ?embed_close_answer, embed_update_cur; reflexivity.
Qed.

Lemma embed_sections st : sections (Builder.embed st) = Builder.commit st.
Proof. done. Qed.

Lemma embed_step st line :
  step (Builder.embed st) line = Builder.embed (Builder.step st line).
Proof.
  unfold step, Builder.step.
  destruct (Re.section_header line) as [[d t]|].
  { rewrite embed_flush. done. }
  destruct (Re.question_header line) as [[qid t]|].
  { rewrite embed_flush. rewrite embed_sections.
    set (st' := Builder.flush_question st).
    unfold Builder.embed. cbn -[alter_last set_questions Builder.commit].
    by destruct (Builder.commit st') as [|s ss] eqn:E. }
  destruct st as [ss [q|] ab bb c]; [|done].
  rewrite qref_match by apply embed_cur_q.
  change (collecting_answer (Builder.embed ?s)) with (Builder.collecting_answer s).
  cbn [Builder.cur Builder.collecting_answer].
  destruct (Re.answer_marker line);
    [destruct c; rewrite ?embed_close_answer; reflexivity|].
  destruct c; [|reflexivity].
  case_bool_decide; [by rewrite embed_close_answer|].
  destruct (Re.sub_prompt line); [|reflexivity].
  rewrite embed_close_answer, embed_update_cur; reflexivity.
Qed.

Lemma embed_run lines st :
  foldl step (Builder.embed st) lines = Builder.embed (foldl Builder.step st lines).
Proof.
  revert st. induction lines as [|l lines IH]; intros st; [done|].
  simpl. by rewrite embed_step, IH.
Qed.

(** [parse_markdown] builds the document the value-passing parser
    builds. *)
Lemma parse_lines_builder lines :
  parse_lines lines = Builder.finish (Builder.run lines).
Proof.
  unfold parse_lines, Parser.run, Builder.finish, Builder.run.
  change Parser.init with (Builder.embed Builder.init).
  by rewrite embed_run, embed_flush.
Qed.

Lemma parse_markdown_builder text :
  parse_markdown text = Builder.finish (Builder.run (Str.lines text)).
Proof. apply parse_lines_builder. Qed.

Lemma run_builder lines : Parser.run lines = Builder.embed (Builder.run lines).
Proof.
  unfold Parser.run, Builder.run.
  change Parser.init with (Builder.embed Builder.init). apply embed_run.
Qed.

End builder_refinement.

(** ** The parser: one answer for each marker *)

Section answer_counts.
Import Parser_spec.

Lemma all_questions_app d1 d2 :
  all_questions (d1 ++ d2) = all_questions d1 ++ all_questions d2.
Proof. apply bind_app. Qed.

Lemma all_questions_attach q ss :
  all_questions (Parser.alter_last (set_questions (λ l, l ++ [q])) ss) =
  all_questions ss ++ (match ss with [] => [] | _ => [q] end).
Proof.
  destruct ss as [|s0 ss0]; [done|].
  destruct (alter_last_snoc (set_questions (λ l, l ++ [q])) (s0 :: ss0))
    as (ss' & s & -> & ->); [done|].
  rewrite !all_questions_app. unfold all_questions at 2 4. simpl.
  by rewrite !app_nil_r, <-app_assoc.
Qed.

Lemma all_questions_commit st :
  all_questions (Builder.commit st) =
  all_questions (Builder.secs st) ++
  (if in_section st then option_list (Builder.cur st) else []).
Proof.
  unfold Builder.commit, in_section.
  destruct (Builder.cur st) as [q|].
  - rewrite all_questions_attach. by destruct (Builder.secs st).
  - destruct (Builder.secs st); by rewrite app_nil_r.
Qed.

Lemma commit_nil st : Builder.commit st = [] ↔ Builder.secs st = [].
Proof.
  unfold Builder.commit. destruct (Builder.cur st); [|done].
  apply alter_last_nil.
Qed.

Lemma secs_flush st : Builder.secs (Builder.flush_question st) = Builder.secs st.
Proof.
  unfold Builder.flush_question.
  destruct (Builder.cur st); [|done]. by destruct (Builder.collecting_answer st).
Qed.

Lemma in_section_flush st : in_section (Builder.flush_question st) = in_section st.
Proof. unfold in_section. by rewrite secs_flush. Qed.

Lemma answers_process_body q body : answers (_process_body q body) = answers q.
Proof. done. Qed.

(** Flushing settles the count of the question being read. *)
Lemma answer_counts_flush st :
  answer_counts (all_questions (Builder.commit (Builder.flush_question st))) =
  answer_counts (all_questions (Builder.secs st)) ++ option_list (slots_so_far st).
Proof.
  rewrite all_questions_commit, in_section_flush, secs_flush.
  unfold answer_counts, slots_so_far. rewrite fmap_app. f_equal.
  destruct (in_section st); [|done].
  unfold Builder.flush_question.
  destruct st as [ss [q|] ab bb c]; [|done]. simpl.
  destruct c; simpl; [|by rewrite Nat.add_0_r].
  by rewrite length_app.
Qed.

Lemma step_plain_counts st line :
  not_header line →
  Builder.secs (Builder.step st line) = Builder.secs st ∧
  slots_so_far (Builder.step st line) =
    if Re.answer_marker line then S <$> slots_so_far st else slots_so_far st.
Proof.
  intros [Hsec Hq]. unfold Builder.step. rewrite Hsec, Hq.
  destruct st as [ss [q|] ab bb c]; cbn [Builder.cur].
  { unfold slots_so_far, in_section.
    destruct (Re.answer_marker line), c, ss; cbn;
      rewrite ?length_app; simpl; try (split; [done|f_equal; lia]);
      repeat case_bool_decide; cbn; try destruct (Re.sub_prompt line); cbn;
      rewrite ?length_app; simpl; split; try done; f_equal; lia. }
  unfold slots_so_far, in_section. cbn.
  by destruct ss, (Re.answer_marker line).
Qed.

Lemma answer_counts_run lines : ∀ st,
  answer_counts (all_questions (Builder.finish (foldl Builder.step st lines))) =
  answer_counts (all_questions (Builder.secs st)) ++
  marker_counts (slots_so_far st) (in_section st) lines.
Proof.
  induction lines as [|line rest IH]; intros st.
  { apply answer_counts_flush. }
  simpl foldl. rewrite IH. clear IH. simpl marker_counts.
  unfold Builder.step.
  destruct (Re.section_header line) as [[d t]|] eqn:Hsec.
  { rewrite (bool_decide_true (is_Some (Some _))) by done.
    cbn [Builder.secs]. rewrite all_questions_app. unfold answer_counts at 1.
    rewrite fmap_app. fold (answer_counts (all_questions
      (Builder.commit (Builder.flush_question st)))).
    rewrite answer_counts_flush. simpl. rewrite app_nil_r.
    rewrite <-app_assoc. do 2 f_equal.
    unfold in_section. cbn [Builder.secs].
    by destruct (Builder.commit (Builder.flush_question st)). }
  rewrite (bool_decide_false (is_Some None)) by apply is_Some_None.
  destruct (Re.question_header line) as [[qid t]|] eqn:Hq.
  { rewrite (bool_decide_true (is_Some (Some _))) by done.
    cbn [Builder.secs]. rewrite answer_counts_flush, <-app_assoc. do 2 f_equal.
    assert (in_section
      (Builder.State (Builder.commit (Builder.flush_question st))
         (Some (Parser.new_question qid (Str.strip t))) [] [] false)
      = in_section st) as Hin.
    { unfold in_section. cbn [Builder.secs].
      pose proof (commit_nil (Builder.flush_question st)) as Hnil.
      rewrite secs_flush in Hnil.
      destruct Hnil as [Hn1 Hn2].
      destruct (Builder.commit (Builder.flush_question st)),
        (Builder.secs st); try done; [by specialize (Hn1 eq_refl)|by specialize (Hn2 eq_refl)]. }
    unfold slots_so_far. rewrite Hin. by destruct (in_section st). }
  rewrite (bool_decide_false (is_Some None)) by apply is_Some_None.
  pose proof (step_plain_counts st line (conj Hsec Hq)) as (Hsecs & Hslots).
  unfold Builder.step in Hsecs, Hslots. rewrite Hsec, Hq in Hsecs, Hslots.
  unfold in_section at 1. rewrite Hsecs. fold (in_section st). rewrite Hslots.
  by destruct (Re.answer_marker line).
Qed.

(** What [marker_counts] counts for a question under a section: the
    marker lines up to the next header or the end. *)
Lemma marker_counts_segment n in_sec seg rest :
  Forall not_header seg →
  marker_counts (Some n) in_sec (seg ++ rest) =
  marker_counts (Some (n + length (List.filter Re.answer_marker seg))) in_sec rest.
Proof.
  intros Hseg. revert n.
  induction Hseg as [|l seg [Hs Hq] _ IH]; intros n.
  { simpl. by rewrite Nat.add_0_r. }
  simpl. rewrite Hs, Hq.
  rewrite !(bool_decide_false (is_Some None)) by apply is_Some_None.
  destruct (Re.answer_marker l); simpl; rewrite IH; do 2 f_equal; lia.
Qed.

Lemma marker_counts_question cur hdr seg rest :
  is_Some (Re.question_header hdr) → Re.section_header hdr = None →
  Forall not_header seg →
  match rest with
  | [] => True
  | l :: _ => is_Some (Re.section_header l) ∨ is_Some (Re.question_header l)
  end →
  marker_counts cur true (hdr :: seg ++ rest) =
  option_list cur ++
  length (List.filter Re.answer_marker seg) :: marker_counts None true rest.
Proof.
  intros Hq Hs Hseg Hrest. simpl. rewrite Hs.
  rewrite (bool_decide_false (is_Some None)) by apply is_Some_None.
  rewrite bool_decide_true by done. f_equal.
  rewrite marker_counts_segment by done. simpl.
  destruct rest as [|l rest]; [done|]. simpl.
  destruct (Re.section_header l) as [x|] eqn:E1.
  { by rewrite (bool_decide_true (is_Some (Some _))). }
  rewrite (bool_decide_false (is_Some None)) by apply is_Some_None.
  destruct Hrest as [[? [=]]|Hl]. by rewrite bool_decide_true.
Qed.

(** C10 (answer-count invariant).  In the parsed document, the number of
    answers of each question is the number of marker lines between its
    header and the next question or section header, or the end of the
    text: the questions of the document, in order, have as many answers
    as [marker_counts] counts for the question headers under a section,
    in order. *)
Theorem parse_answer_counts (text : string) :
  answer_counts (all_questions (parse_markdown text)) =
  marker_counts None false (Str.lines text).
Proof.
  rewrite parse_markdown_builder. unfold Builder.run.
  by rewrite answer_counts_run.
Qed.

End answer_counts.

(** ** The parser: what becomes of body lines *)

Section body_classification.
Import Parser_spec.

Lemma body_step_spec a l :
  Body.opts (Body.step a l) = Body.opts a ++ option_list (classify l) ∧
  Body.desc_parts (Body.step a l) =
    Body.desc_parts a ++ (if desc_line l then [l] else []).
Proof.
  unfold Body.step, classify, desc_line.
  destruct (Re.bold_option l) as [[[c g2] g3]|].
  { cbn. by rewrite app_nil_r. }
  destruct (Re.plain_option l) as [[c g2]|].
  { cbn. by rewrite app_nil_r. }
  rewrite !bool_decide_true by done.
  destruct (Str.startswith "|" (Str.strip l)).
  { destruct (forallb Re.separator_cell (Body.cells l));
      [|destruct (Body.table_headers a)]; cbn; by rewrite !app_nil_r. }
  destruct (Str.nonempty (Str.strip l)); cbn; by rewrite ?app_nil_r.
Qed.

Lemma body_run_from a lines :
  Body.opts (foldl Body.step a lines) = Body.opts a ++ omap classify lines ∧
  Body.desc_parts (foldl Body.step a lines) =
    Body.desc_parts a ++ List.filter desc_line lines.
Proof.
  revert a. induction lines as [|l lines IH]; intros a.
  { simpl. by rewrite !app_nil_r. }
  simpl foldl. destruct (IH (Body.step a l)) as [-> ->]. clear IH.
  destruct (body_step_spec a l) as [-> ->].
  rewrite <-!app_assoc. cbn [omap list_omap List.filter].
  split; f_equal.
  - by destruct (classify l).
  - by destruct (desc_line l).
Qed.

Lemma process_body_classified q body : classified_by body (_process_body q body).
Proof.
  unfold classified_by, _process_body, Body.finish, Body.run. simpl.
  by destruct (body_run_from Body.init body) as [-> ->].
Qed.

Lemma classify_default l o :
  classify l = Some o → (opt_default o = true ↔ is_bold l = true).
Proof.
  unfold classify, is_bold.
  destruct (Re.bold_option l) as [[[c g2] g3]|].
  - intros [= <-]. by cbn.
  - destruct (Re.plain_option l) as [[c g2]|]; [|done].
    intros [= <-]. by cbn.
Qed.

Lemma count_defaults body :
  length (List.filter opt_default (omap classify body)) =
  length (List.filter is_bold body).
Proof.
  induction body as [|l body IH]; [done|].
  cbn [omap list_omap List.filter].
  pose proof (classify_default l) as Hd.
  destruct (classify l) as [o|] eqn:Hc.
  - cbn [List.filter]. specialize (Hd o eq_refl).
    destruct Hd as [Hd1 Hd2].
    destruct (opt_default o), (is_bold l); cbn [length]; rewrite ?IH; try done.
    + by specialize (Hd1 eq_refl).
    + by specialize (Hd2 eq_refl).
  - assert (is_bold l = false) as ->; [|done].
    unfold classify, is_bold in *.
    by destruct (Re.bold_option l) as [[[c g2] g3]|].
Qed.

Lemma snoc_subseteq {A} (l L : list A) x : l ⊆ L → x ∈ L → l ++ [x] ⊆ L.
Proof.
  intros Hl Hx y [Hy|Hy%list_elem_of_singleton]%elem_of_app; [by apply Hl|by subst].
Qed.

Lemma cons_subseteq {A} (l L : list A) x : x :: l ⊆ L → x ∈ L ∧ l ⊆ L.
Proof.
  intros H. split; [apply H; by left|]. intros y Hy. apply H. by right.
Qed.

Section invariant.
Context (L : list string).

Lemma body_buf_flush st :
  Builder.body_buf (Builder.flush_question st) ⊆ Builder.body_buf st.
Proof.
  unfold Builder.flush_question. destruct (Builder.cur st); [|done].
  simpl. apply list_subseteq_nil.
Qed.

Lemma inv_commit_flush st :
  body_inv L st →
  Forall (classified L) (all_questions (Builder.commit (Builder.flush_question st))).
Proof.
  intros [Hsecs Hbuf]. rewrite all_questions_commit, secs_flush.
  apply Forall_app. split; [done|].
  destruct (in_section _); [|constructor].
  unfold Builder.flush_question.
  destruct st as [ss [q|] ab bb c]; [|constructor]. simpl in *.
  destruct c; cbn; (constructor; [|constructor]); exists bb; split; try done;
    apply process_body_classified.
Qed.

Lemma inv_step st line : line ∈ L → body_inv L st → body_inv L (Builder.step st line).
Proof.
  intros Hl Hinv. pose proof (inv_commit_flush st Hinv) as Hcf.
  pose proof (body_buf_flush st) as Hbf.
  destruct Hinv as [Hsecs Hbuf].
  unfold Builder.step.
  destruct (Re.section_header line) as [[d t]|].
  { split; simpl; [|by etrans].
    rewrite all_questions_app. apply Forall_app. split; [done|constructor]. }
  destruct (Re.question_header line) as [[qid t]|].
  { split; simpl; [done|apply list_subseteq_nil]. }
  destruct st as [ss [q|] ab bb c]; [|done]. simpl in *.
  destruct (Re.answer_marker line); [by destruct c|].
  destruct c; [|split; simpl; [done|by apply snoc_subseteq]].
  case_bool_decide; [done|].
  destruct (Re.sub_prompt line); [|done].
  split; simpl; [done|by apply snoc_subseteq].
Qed.

Lemma inv_run lines st :
  lines ⊆ L → body_inv L st → body_inv L (foldl Builder.step st lines).
Proof.
  revert st. induction lines as [|l lines IH]; intros st Hsub Hinv; [done|].
  apply cons_subseteq in Hsub as [Hl Hsub].
  simpl. apply IH; [done|]. by apply inv_step.
Qed.

End invariant.

Lemma parse_classified lines :
  Forall (classified lines) (all_questions (parse_lines lines)).
Proof.
  rewrite parse_lines_builder. apply inv_commit_flush.
  apply inv_run; [done|]. split; [constructor|apply list_subseteq_nil].
Qed.


End body_classification.

(** A line that ends no slot is appended to the answer buffer. *)
Lemma step_buffers st line :
  Parser.cur_q st ≠ Parser.QNone →
  Parser.collecting_answer st = true →
  Parser_spec.ends_slot line = false →
  Parser.step st line =
  Parser.State (Parser.sections st) (Parser.cur_q st)
    (Parser.answer_buf st ++ [line]) (Parser.body_buf st) true.
Proof.
  intros Hq Hc He. unfold Parser_spec.ends_slot in He.
  apply orb_false_iff in He as [He H5]. apply orb_false_iff in He as [He H4].
  apply orb_false_iff in He as [He H3]. apply orb_false_iff in He as [H1 H2].
  apply bool_decide_eq_false, eq_None_not_Some in H1.
  apply bool_decide_eq_false, eq_None_not_Some in H2.
  unfold Parser.step. rewrite H1, H2, H3, H4, H5, Hc.
  by rewrite qref_match.
Qed.

(** ** The parser: a plain line goes to the body of the current question *)

Section plain_lines.
Import Parser_spec.

Lemma secs_step_grow st line q :
  q ∈ all_questions (Builder.secs st) →
  q ∈ all_questions (Builder.secs (Builder.step st line)).
Proof.
  intros Hq.
  assert (q ∈ all_questions (Builder.commit (Builder.flush_question st))) as Hc.
  { rewrite all_questions_commit, secs_flush. apply elem_of_app. by left. }
  destruct (Re.section_header line) as [[d t]|] eqn:Hsec.
  { unfold Builder.step. rewrite Hsec. cbn [Builder.secs].
    rewrite all_questions_app. apply elem_of_app. by left. }
  destruct (Re.question_header line) as [[qid t]|] eqn:Hqh.
  { unfold Builder.step. by rewrite Hsec, Hqh. }
  by destruct (step_plain_counts st line (conj Hsec Hqh)) as [-> _].
Qed.

Lemma secs_run_grow lines : ∀ st q,
  q ∈ all_questions (Builder.secs st) →
  q ∈ all_questions (Builder.finish (foldl Builder.step st lines)).
Proof.
  induction lines as [|l lines IH]; intros st q Hq.
  - unfold Builder.finish. rewrite all_questions_commit, secs_flush.
    apply elem_of_app. by left.
  - simpl. by apply IH, secs_step_grow.
Qed.

Lemma flush_commits st q0 :
  Builder.cur st = Some q0 → in_section st = true →
  ∃ q, q ∈ all_questions (Builder.commit (Builder.flush_question st)) ∧
       q_id q = q_id q0 ∧ classified_by (Builder.body_buf st) q.
Proof.
  intros Hcur Hin. rewrite all_questions_commit, in_section_flush, Hin.
  destruct st as [ss [q|] ab bb c]; simplify_eq/=.
  unfold Builder.flush_question. cbn.
  destruct c; cbn; eexists; (split; [apply elem_of_app; right; by left|]);
    (split; [done|apply process_body_classified]).
Qed.

Lemma step_plain_cur st line q0 :
  not_header line → Builder.cur st = Some q0 →
  ∃ q0' extra,
    Builder.cur (Builder.step st line) = Some q0' ∧
    q_id q0' = q_id q0 ∧
    Builder.body_buf (Builder.step st line) = Builder.body_buf st ++ extra ∧
    extra ⊆ [line] ∧
    (Builder.collecting_answer st = false → Re.answer_marker line = false →
     extra = [line]).
Proof.
  intros [Hsec Hqh] Hcur. unfold Builder.step. rewrite Hsec, Hqh, Hcur.
  destruct st as [ss cq ab bb c]. cbn [Builder.cur] in Hcur. subst cq. clear.
  cbn [Builder.collecting_answer Builder.body_buf].
  destruct (Re.answer_marker line).
  { destruct c; cbn; eexists _, [];
      rewrite app_nil_r; split_and!; try done; apply list_subseteq_nil. }
  destruct c; cbn.
  2:{ by exists q0, [line]. }
  case_bool_decide; cbn.
  { eexists _, []. rewrite app_nil_r.
    split_and!; try done; apply list_subseteq_nil. }
  destruct (Re.sub_prompt line); cbn.
  - by eexists _, [line].
  - exists q0, []. rewrite app_nil_r.
    split_and!; try done; apply list_subseteq_nil.
Qed.

Lemma pending_question lines : ∀ st q0,
  Builder.cur st = Some q0 → in_section st = true →
  ∃ q more,
    q ∈ all_questions (Builder.finish (foldl Builder.step st lines)) ∧
    q_id q = q_id q0 ∧ more ⊆ lines ∧
    classified_by (Builder.body_buf st ++ more) q.
Proof.
  induction lines as [|l lines IH]; intros st q0 Hcur Hin.
  { destruct (flush_commits st q0 Hcur Hin) as (q & Hq & Hid & Hcl).
    exists q, []. by rewrite app_nil_r. }
  simpl foldl.
  destruct (flush_commits st q0 Hcur Hin) as (q & Hq & Hid & Hcl).
  destruct (Re.section_header l) as [[d t]|] eqn:Hsec.
  { exists q, []. rewrite app_nil_r. split_and!; [|done|apply list_subseteq_nil|done].
    apply secs_run_grow. unfold Builder.step. rewrite Hsec. cbn [Builder.secs].
    rewrite all_questions_app. apply elem_of_app. by left. }
  destruct (Re.question_header l) as [[qid t]|] eqn:Hqh.
  { exists q, []. rewrite app_nil_r. split_and!; [|done|apply list_subseteq_nil|done].
    apply secs_run_grow. unfold Builder.step. by rewrite Hsec, Hqh. }
  destruct (step_plain_cur st l q0 (conj Hsec Hqh) Hcur)
    as (q0' & extra & Hcur' & Hid' & Hbuf & Hextra & _).
  destruct (IH (Builder.step st l) q0' Hcur') as (q' & more & Hq' & Hid'' & Hmore & Hcl').
  { unfold in_section.
    by destruct (step_plain_counts st l (conj Hsec Hqh)) as [-> _]. }
  exists q', (extra ++ more). split_and!; [done|congruence| |].
  - intros x [Hx|Hx]%elem_of_app.
    + apply Hextra in Hx. apply list_elem_of_singleton in Hx as ->. by left.
    + right. by apply Hmore.
  - by rewrite Hbuf, <-app_assoc in Hcl'.
Qed.

Lemma run_app_builder pre rest :
  Builder.run (pre ++ rest) = foldl Builder.step (Builder.run pre) rest.
Proof. unfold Builder.run. apply foldl_app. Qed.

Lemma embed_cur_last st :
  Parser.cur_q (Builder.embed st) = Parser.QLast →
  ∃ q0, Builder.cur st = Some q0 ∧ in_section st = true.
Proof.
  unfold in_section. destruct st as [ss [q|] ab bb c]; [|done]. cbn.
  destruct ss; [done|]. eauto.
Qed.


End plain_lines.





(** ** Slot boundaries: the rewriter against the parser *)

Section slot_boundaries.
Import Parser_spec Saver Saver_spec.

(** Where the parser ends a slot the rewriter stops too, but for a
    divider that does not start its line. *)
Lemma ends_slot_boundary line :
  ends_slot line = true →
  is_boundary line = true ∨
  (Str.strip line = "---" ∧ Str.startswith "---" line = false).
Proof.
  unfold ends_slot, is_boundary. intros H.
  repeat (apply orb_true_iff in H as [H|H]).
  - apply bool_decide_eq_true in H as [x Hx]. left.
    unfold Re.section_header in Hx.
    destruct (Str.after "## " line) as [r|] eqn:E; [|done].
    rewrite (after_startswith _ _ _ E). by rewrite !orb_true_r.
  - apply bool_decide_eq_true in H as [x Hx]. left.
    unfold Re.question_header in Hx.
    destruct (Str.after "### " line) as [r|] eqn:E; [|done].
    by rewrite (after_startswith _ _ _ E).
  - left. rewrite H. by rewrite !orb_true_r.
  - apply bool_decide_eq_true in H.
    destruct (Str.startswith "---" line) eqn:E; [left|by right].
    by rewrite !orb_true_r.
  - left. unfold Re.sub_prompt in H.
    destruct (Re.if_letter line); [|done].
    rewrite (bool_decide_true (is_Some (Some _))) by done.
    by rewrite !orb_true_r.
Qed.




End slot_boundaries.

(** ** Decimal numerals *)

Section decimal.
Import Gen_spec.

Lemma str_app_assoc s1 s2 s3 : (s1 +:+ s2) +:+ s3 = s1 +:+ (s2 +:+ s3).
Proof.
  induction s1 as [|c s1 IH]; [done|].
  change ((String c s1 +:+ s2) +:+ s3) with (String c ((s1 +:+ s2) +:+ s3)).
  by rewrite IH.
Qed.

Lemma digits_value_app acc s1 s2 :
  digits_value acc (s1 +:+ s2) = digits_value (digits_value acc s1) s2.
Proof.
  revert acc. induction s1 as [|c s1 IH]; intros acc; [done|].
  change (String c s1 +:+ s2) with (String c (s1 +:+ s2)). apply IH.
Qed.

Lemma pretty_char_digit x :
  (x < 10)%N →
  Char.is_digit (pretty_N_char x) = true ∧
  (Char.code (pretty_N_char x) - 48 = x)%N.
Proof.
  intros Hx.
  assert (x = 0 ∨ x = 1 ∨ x = 2 ∨ x = 3 ∨ x = 4 ∨ x = 5 ∨ x = 6 ∨ x = 7
          ∨ x = 8 ∨ x = 9)%N as H by lia.
  repeat destruct H as [->|H]; try subst x; by vm_compute.
Qed.

Lemma pretty_go_app x s : pretty_N_go x s = pretty_N_go x "" +:+ s.
Proof.
  revert s. induction (N.lt_wf_0 x) as [x _ IH]; intros s.
  assert (x = 0 ∨ 0 < x)%N as [->|Hx] by lia; [done|].
  assert (x `div` 10 < x)%N as Hlt by (by apply N.div_lt).
  rewrite (pretty_N_go_step x s), (pretty_N_go_step x "") by done.
  rewrite (IH _ Hlt (String _ s)), (IH _ Hlt (String _ "")).
  by rewrite str_app_assoc.
Qed.

Lemma all_digits_app s1 s2 :
  all_digits (s1 +:+ s2) = all_digits s1 && all_digits s2.
Proof.
  induction s1 as [|c s1 IH]; [done|].
  change (String c s1 +:+ s2) with (String c (s1 +:+ s2)). simpl.
  by rewrite IH, andb_assoc.
Qed.

Lemma pretty_go_digits x :
  all_digits (pretty_N_go x "") = true ∧ int_of_digits (pretty_N_go x "") = x.
Proof.
  induction (N.lt_wf_0 x) as [x _ IH].
  assert (x = 0 ∨ 0 < x)%N as [->|Hx] by lia; [done|].
  rewrite pretty_N_go_step, pretty_go_app by done.
  destruct (IH (x `div` 10)%N) as [Hd Hv]; [by apply N.div_lt|].
  destruct (pretty_char_digit (x `mod` 10)%N) as [Hc Hc'];
    [by apply N.mod_lt|].
  split.
  - rewrite all_digits_app, Hd. simpl. by rewrite Hc.
  - unfold int_of_digits in *. rewrite digits_value_app, Hv. simpl. rewrite Hc'.
    rewrite (N.div_mod x 10) at 3 by done. lia.
Qed.

Lemma pretty_nat_digits (n : nat) :
  all_digits (pretty n) = true ∧ pretty n ≠ "" ∧
  int_of_digits (pretty n) = N.of_nat n.
Proof.
  unfold pretty, pretty_nat, pretty, pretty_N.
  case_decide as Hn; [by rewrite Hn|].
  destruct (pretty_go_digits (N.of_nat n)) as [Hd Hv].
  split_and!; [done| |done].
  intros Hempty. rewrite Hempty in Hv. apply Hn. by rewrite <-Hv.
Qed.

Lemma span_digits d rest :
  all_digits d = true →
  match rest with EmptyString => True | String c _ => Char.is_digit c = false end →
  Str.span Char.is_digit (d +:+ rest) = (d, rest).
Proof.
  intros Hd Hrest. induction d as [|c d IH].
  - destruct rest as [|c rest]; [done|]. simpl. by rewrite Hrest.
  - change (String c d +:+ rest) with (String c (d +:+ rest)). simpl in *.
    apply andb_true_iff in Hd as [-> Hd]. by rewrite IH.
Qed.

Lemma digits1_pretty (n : nat) rest :
  match rest with EmptyString => True | String c _ => Char.is_digit c = false end →
  Re.digits1 (pretty n +:+ rest) = Some (pretty n, rest).
Proof.
  intros Hrest. destruct (pretty_nat_digits n) as (Hd & Hne & _).
  unfold Re.digits1. rewrite span_digits by done.
  by destruct (pretty n).
Qed.

Lemma after_app p s : Str.after p (p +:+ s) = Some s.
Proof.
  induction p as [|c p IH]; [done|].
  change (String c p +:+ s) with (String c (p +:+ s)). simpl.
  by rewrite decide_True.
Qed.

(** The header lines of the output carry the numbers they were written
    with. *)
Lemma section_line_number (n : nat) (t : string) :
  section_number (Gen.section_line n t) = Some (N.of_nat n) ∧
  Re.raw_section (Gen.section_line n t) = true.
Proof.
  destruct (pretty_nat_digits n) as (_ & _ & Hv).
  unfold section_number, Re.raw_section, Gen.section_line.
  rewrite after_app. simpl.
  rewrite (digits1_pretty n (". " +:+ t)) by done. simpl.
  by rewrite Hv.
Qed.

Lemma question_line_number (s k : nat) (t : string) :
  question_number (Gen.question_line s k t) = Some (N.of_nat s, N.of_nat k) ∧
  Re.question_id (Gen.question_line s k t) = Some (pretty s +:+ "." +:+ pretty k).
Proof.
  destruct (pretty_nat_digits s) as (_ & _ & Hs).
  destruct (pretty_nat_digits k) as (_ & _ & Hk).
  unfold question_number, Re.question_id, Gen.question_line.
  rewrite after_app. simpl.
  rewrite (digits1_pretty s ("." +:+ pretty k +:+ " " +:+ t)) by done. simpl.
  change ("" +:+ pretty k +:+ " " +:+ t) with (pretty k +:+ " " +:+ t).
  rewrite (digits1_pretty k (" " +:+ t)) by done. simpl.
  by rewrite Hs, Hk.
Qed.

End decimal.

(** ** The migrator: numbering *)

Section migrator_numbering.
Import Gen Gen_spec.

Lemma questions_from_positional blocks sec_idx qids : ∀ k,
  (questions_from blocks sec_idx k qids).1 =
  concat (imap (λ j old_id,
                  match Dict.get old_id blocks with
                  | Some b => question_lines sec_idx (k + j) b
                  | None => []
                  end) qids).
Proof.
  induction qids as [|old_id qids IH]; intros k; [done|].
  simpl. specialize (IH (S k)).
  destruct (questions_from blocks sec_idx (S k) qids) as [out log].
  simpl in IH. rewrite Nat.add_0_r.
  assert (concat (imap ((λ j old_id0,
            match Dict.get old_id0 blocks with
            | Some b => question_lines sec_idx (k + j) b
            | None => []
            end) ∘ S) qids) = out) as ->.
  { rewrite IH. f_equal. apply imap_ext. intros j x _. simpl.
    by rewrite Nat.add_succ_r. }
  by destruct (Dict.get old_id blocks).
Qed.

Lemma sections_from_positional blocks p : ∀ k,
  (sections_from blocks k p).1 =
  concat (imap (λ i '(sec_title, qids),
                  section_lines (k + i) sec_title ++
                  positional_questions blocks (k + i) qids) p).
Proof.
  induction p as [|[sec_title qids] p IH]; intros k; [done|].
  simpl. specialize (IH (S k)).
  pose proof (questions_from_positional blocks k qids 1) as Hq.
  destruct (questions_from blocks k 1 qids) as [qout qlog].
  destruct (sections_from blocks (S k) p) as [out log].
  simpl in *. rewrite Nat.add_0_r. do 4 f_equal. rewrite Hq. f_equal.
  rewrite IH. f_equal. apply imap_ext. intros i [t q] _. simpl.
  by rewrite Nat.add_succ_r.
Qed.

Lemma run_positional p removed blocks :
  (Gen.run p removed blocks).1 = positional_out blocks p.
Proof.
  unfold Gen.run, positional_out.
  pose proof (sections_from_positional blocks p 1) as Hs.
  destruct (sections_from blocks 1 p) as [out log]. simpl in *.
  by rewrite Hs.
Qed.

Lemma positional_contiguous blocks qids : ∀ f : nat → block → list string,
  Forall (λ old_id, is_Some (Dict.get old_id blocks)) qids →
  concat (imap (λ j old_id,
                  match Dict.get old_id blocks with
                  | Some b => f j b
                  | None => []
                  end) qids) =
  concat (imap f (emitted blocks qids)).
Proof.
  intros f H. revert f.
  induction H as [|old_id qids [b Hb] _ IH]; intros f; [done|].
  unfold emitted in *. cbn [omap list_omap]. rewrite Hb. cbn [imap concat].
  rewrite Hb. f_equal. apply (IH (f ∘ S)).
Qed.

(** C8 (migration renumbering), amended.  The section headers of the
    migrated output are numbered 1 to N in plan order, and the question
    header written for the id at place [j] of a plan entry carries the
    ordinal [j]; the header lines carry these numbers for the patterns
    that read them; when every id of the plan exists in the source, the
    question ordinals of each section are 1 to M without gaps. *)
Theorem migrate_numbering (p : plan) (removed : gset string) (text : string) :
  (migrate p removed text).1 = Str.unlines (positional_out (parse_raw text) p) ∧
  (∀ n t, section_number (section_line n t) = Some (N.of_nat n)) ∧
  (∀ s k t, question_number (question_line s k t) = Some (N.of_nat s, N.of_nat k)) ∧
  ((∀ old_id, old_id ∈ plan_ids p → is_Some (Dict.get old_id (parse_raw text))) →
   (migrate p removed text).1 = Str.unlines (contiguous_out (parse_raw text) p)).
Proof.
  assert ((migrate p removed text).1 =
          Str.unlines (positional_out (parse_raw text) p)) as Hpos.
  { unfold migrate, generate.
    pose proof (run_positional p removed (parse_raw text)) as H.
    destruct (Gen.run p removed (parse_raw text)) as [out log]. simpl in *.
    by rewrite H. }
  split_and!; [done|apply section_line_number|apply question_line_number|].
  intros Hall. rewrite Hpos. f_equal.
  unfold positional_out, contiguous_out. do 3 f_equal.
  apply imap_ext. intros i [t qids] Hi. cbn beta iota.
  apply (f_equal (app _)).
  unfold positional_questions, contiguous_questions.
  apply (positional_contiguous _ _ (λ j b, question_lines (S i) (S j) b)).
  apply Forall_forall. intros old_id Hin. apply Hall.
  unfold plan_ids. apply list_elem_of_bind. exists (t, qids).
  split; [done|]. by eapply list_elem_of_lookup_2.
Qed.

End migrator_numbering.

Lemma migrate_numbering_witness :
  let text := Str.unlines
    ["### 4.2 Foo"; "body text"; "Your answer:"; "old answer"; "---";
     "### 7.1 Bar"; "other"] in
  let p : Gen.plan := [("Widgets", ["7.1"; "4.2"])] in
  (migrate p ∅ text).1 =
    Str.unlines (Gen_spec.contiguous_out (parse_raw text) p) ∧
  (migrate p ∅ text).1 =
    Str.unlines
      (Gen.preamble ++
       ["---"; ""; "## 1. Widgets"; "";
        "### 1.1 Bar"; "other"; "";
        "### 1.2 Foo";
        Str.unlines ["body text"; "Your answer:"; "old answer"]; ""] ++
       Gen.trailer).
Proof.
  intros text p. split; [|by vm_compute].
  apply (proj2 (proj2 (proj2 (migrate_numbering p ∅ text)))).
  intros old_id Hin. unfold Gen_spec.plan_ids in Hin. cbn in Hin.
  apply elem_of_cons in Hin as [->|Hin]; [vm_compute; eauto|].
  apply elem_of_cons in Hin as [->|Hin]; [vm_compute; eauto|].
  by apply elem_of_nil in Hin.
Defined.

(** C8, as stated, fails: an id of the plan that the source lacks is
    passed over while the counter goes on, so the ordinals of the
    section have a gap. *)
Lemma migrate_leaves_gap :
  let text := Str.unlines ["### 4.1 First"; "a"; "### 4.3 Third"; "c"] in
  let p : Gen.plan := [("Widgets", ["4.1"; "4.2"; "4.3"])] in
  (migrate p ∅ text).1 =
    Str.unlines
      (Gen.preamble ++
       ["---"; ""; "## 1. Widgets"; "";
        "### 1.1 First"; "a"; ""; "### 1.3 Third"; "c"; ""] ++
       Gen.trailer) ∧
  (migrate p ∅ text).1 ≠
    Str.unlines (Gen_spec.contiguous_out (parse_raw text) p).
Proof. split; [by vm_compute|]. vm_compute. discriminate. Qed.

(** ** The migrator: what is reported *)

Section migrator_reports.
Import Gen Gen_spec.

Lemma insert_sorted_elem x y l : y ∈ insert_sorted x l ↔ y = x ∨ y ∈ l.
Proof.
  induction l as [|z l IH]; simpl.
  - rewrite list_elem_of_singleton, elem_of_nil. naive_solver.
  - destruct (key_le (sort_key x) (sort_key z)).
    + by rewrite elem_of_cons.
    + rewrite !elem_of_cons, IH. naive_solver.
Qed.

Lemma sorted_elem y l : y ∈ sorted l ↔ y ∈ l.
Proof.
  unfold sorted. induction l as [|x l IH]; simpl; [done|].
  by rewrite insert_sorted_elem, elem_of_cons, IH.
Qed.

Lemma keys_get {V} k (d : list (string * V)) :
  k ∈ Dict.keys d ↔ is_Some (Dict.get k d).
Proof.
  unfold Dict.keys. induction d as [|[k' v] d IH]; simpl.
  - rewrite elem_of_nil. split; [done|by intros [??]].
  - rewrite elem_of_cons, IH. destruct (decide (k = k')); naive_solver.
Qed.

Lemma all_mapped_elem p old_id : old_id ∈ all_mapped p ↔ old_id ∈ plan_ids p.
Proof. unfold all_mapped, plan_ids. apply elem_of_list_to_set. Qed.

Lemma warnings_elem p removed blocks m :
  m ∈ warnings p removed blocks ↔
  ∃ old_id b, unmapped p removed blocks old_id ∧
              Dict.get old_id blocks = Some b ∧
              m = warning_line old_id (title b).
Proof.
  unfold warnings, unmapped. rewrite list_elem_of_omap. split.
  - intros (old_id & Hin & Hw). apply (proj1 (sorted_elem _ _)) in Hin.
    destruct (bool_decide (old_id ∈ all_mapped p)) eqn:E1; [done|].
    destruct (bool_decide (old_id ∈ removed)) eqn:E2; [done|].
    apply bool_decide_eq_false in E1, E2. rewrite all_mapped_elem in E1.
    simpl in Hw. destruct (Dict.get old_id blocks) as [b|] eqn:Hb; [|done].
    injection Hw as <-. by exists old_id, b.
  - intros (old_id & b & (Hin & Hp & Hr) & Hb & ->).
    exists old_id. split; [by apply (proj2 (sorted_elem _ _))|].
    rewrite <-all_mapped_elem in Hp.
    rewrite !bool_decide_false by done. simpl. by rewrite Hb.
Qed.

Lemma questions_log_elem blocks sec_idx qids m : ∀ k,
  m ∈ (questions_from blocks sec_idx k qids).2 ↔
  ∃ old_id, old_id ∈ qids ∧ Dict.get old_id blocks = None ∧ m = error_line old_id.
Proof.
  induction qids as [|old_id qids IH]; intros k; simpl.
  - rewrite elem_of_nil. split; [done|]. by intros (? & ?%elem_of_nil & _).
  - specialize (IH (S k)).
    destruct (questions_from blocks sec_idx (S k) qids) as [out log].
    simpl in IH.
    destruct (Dict.get old_id blocks) as [b|] eqn:Hb; simpl.
    + rewrite IH. split.
      * intros (x & Hx & ?). exists x. by rewrite elem_of_cons; eauto.
      * intros (x & [->|Hx]%elem_of_cons & Hn & ?); [congruence|eauto].
    + rewrite elem_of_cons, IH. split.
      * intros [->|(x & Hx & ?)]; [exists old_id|exists x];
          rewrite elem_of_cons; eauto.
      * intros (x & [->|Hx]%elem_of_cons & Hn & ->); eauto.
Qed.

Lemma sections_log_elem blocks p m : ∀ k,
  m ∈ (sections_from blocks k p).2 ↔
  ∃ old_id, missing p blocks old_id ∧ m = error_line old_id.
Proof.
  unfold missing, plan_ids.
  induction p as [|[sec_title qids] p IH]; intros k; simpl.
  - rewrite elem_of_nil. split; [done|]. by intros (? & [?%elem_of_nil _] & _).
  - specialize (IH (S k)).
    pose proof (questions_log_elem blocks k qids m 1) as Hq.
    destruct (questions_from blocks k 1 qids) as [qout qlog].
    destruct (sections_from blocks (S k) p) as [out log].
    simpl in *. rewrite elem_of_app, Hq, IH. split.
    + intros [(x & Hx & Hn & ->)|(x & [Hx Hn] & ->)]; exists x;
        rewrite elem_of_app; eauto.
    + intros (x & [[Hx|Hx]%elem_of_app Hn] & ->); eauto 6.
Qed.

Lemma warning_not_error a t b : warning_line a t ≠ error_line b.
Proof. unfold warning_line, error_line. vm_compute. discriminate. Qed.

Lemma migrate_log p removed text :
  (migrate p removed text).2 =
  warnings p removed (parse_raw text) ++ (sections_from (parse_raw text) 1 p).2.
Proof.
  unfold migrate, generate, Gen.run.
  by destruct (sections_from (parse_raw text) 1 p).
Qed.

(** C9 (migrator validation).  Every id of the source that is in no
    plan entry and not removed is reported with a warning line, every id
    of the plan that the source lacks with an error line; the two kinds
    of line differ, nothing else is reported, all of them are reported
    in the one run, and a run with a violation reports something. *)
Theorem migrate_reports (p : plan) (removed : gset string) (text : string) :
  let blocks := parse_raw text in
  let log := (migrate p removed text).2 in
  (∀ old_id, unmapped p removed blocks old_id →
     ∃ b, Dict.get old_id blocks = Some b ∧
          warning_line old_id (title b) ∈ log) ∧
  (∀ old_id, missing p blocks old_id → error_line old_id ∈ log) ∧
  (∀ m, m ∈ log →
     (∃ old_id b, unmapped p removed blocks old_id ∧
                  Dict.get old_id blocks = Some b ∧
                  m = warning_line old_id (title b)) ∨
     (∃ old_id, missing p blocks old_id ∧ m = error_line old_id)) ∧
  (∀ a t b, warning_line a t ≠ error_line b) ∧
  ((∃ old_id, unmapped p removed blocks old_id ∨ missing p blocks old_id) →
   log ≠ []).
Proof.
  intros blocks log.
  assert (∀ old_id, unmapped p removed blocks old_id →
     ∃ b, Dict.get old_id blocks = Some b ∧
          warning_line old_id (title b) ∈ log) as Hw.
  { intros old_id Hu. pose proof Hu as (Hk & _).
    apply keys_get in Hk as [b Hb]. exists b. split; [done|].
    unfold log. rewrite migrate_log, elem_of_app. left.
    apply warnings_elem. by exists old_id, b. }
  assert (∀ old_id, missing p blocks old_id → error_line old_id ∈ log) as He.
  { intros old_id Hm. unfold log. rewrite migrate_log, elem_of_app. right.
    apply sections_log_elem. by exists old_id. }
  split_and!; [done|done| |apply warning_not_error|].
  - intros m. unfold log. rewrite migrate_log, elem_of_app.
    rewrite warnings_elem, sections_log_elem. done.
  - intros [old_id [Hu|Hm]] Hnil.
    + destruct (Hw old_id Hu) as (b & _ & Hin). rewrite Hnil in Hin.
      by apply elem_of_nil in Hin.
    + specialize (He old_id Hm). rewrite Hnil in He. by apply elem_of_nil in He.
Qed.

End migrator_reports.

(** ** Parsing and rewriting with the answers of the model *)

Section round_trip.
Import Saver Saver_spec Roundtrip.

Lemma same_but_blank_nonempty src out :
  same_but_blank src out → nonempty_lines src = nonempty_lines out.
Proof.
  unfold nonempty_lines.
  induction 1 as [|line rest out Hm _ IH
                  |marker old blank rest out Hm Hold Hrest Hblank _ IH];
    [done|simpl; by rewrite IH|].
  simpl. rewrite !List.filter_app, IH.
  by destruct Hblank as [-> | ->].
Qed.

Lemma loop_same_but_blank answers lines :
  Forall single_line lines →
  ∀ q i,
    Forall (λ p, slot_recorded answers p = true) (pieces answers q i lines) →
    same_but_blank lines (loop answers q i lines ≫= Str.lines).
Proof.
  induction lines as [|line rest Hm IH|marker rest Hm IH] using saver_ind;
    intros Hs q i Hrec.
  - constructor.
  - inversion Hs as [|?? Hl Hr]; subst.
    rewrite loop_keep by done. rewrite bind_lines_cons by done.
    constructor; [done|]. apply IH; [done|].
    simpl in Hrec. rewrite Hm in Hrec. unfold advance. rewrite Hm.
    destruct (Re.question_id line); by inversion Hrec.
  - inversion Hs as [|?? Hl Hr]; subst.
    assert (Forall single_line (skip_old rest)) as Hs'.
    { rewrite <-(skipped_skip_old rest) in Hr. by apply Forall_app in Hr as [_ ?]. }
    rewrite loop_marker by done. rewrite bind_lines_cons by done.
    rewrite bind_app, bind_lines_cons by reflexivity.
    simpl in Hrec. rewrite (marker_not_header _ Hm), Hm in Hrec.
    inversion Hrec as [|?? Hslot Hrec']; subst.
    specialize (IH Hs' q (S i) Hrec').
    set (out := loop answers q (S i) (skip_old rest) ≫= Str.lines) in *.
    pose proof (skipped_not_boundary rest) as Hnb.
    pose proof (skip_old_at_boundary rest) as Hb.
    rewrite <-(skipped_skip_old rest) at 1.
    unfold slot_recorded in Hslot.
    destruct (new_answer answers (slot_key q i)) as [|a l] eqn:Hnew.
    + apply bool_decide_eq_true in Hslot as [Hold|Hold]; rewrite Hold in *.
      * apply (sbb_slot marker [] [""]); auto.
      * apply (sbb_slot marker [""] []); auto.
    + assert (l = []) as ->.
      { unfold new_answer in Hnew. destruct (slot_key q i); [|done].
        destruct (answers !! s); [|done].
        destruct (Str.nonempty (Str.strip s0)); by simplify_eq. }
      simpl. rewrite app_nil_r.
      apply bool_decide_eq_true in Hslot as [Hold|Hold]; rewrite Hold in *.
      * apply (sbb_slot marker (Str.lines a) [""]); auto.
      * change (Str.lines a ++ "" :: out)
          with (Str.lines a ++ [""] ++ out).
        rewrite app_assoc.
        apply (sbb_slot marker (Str.lines a ++ [""]) []); auto.
Qed.




End round_trip.

(** ** Documents in canonical form make the round trip *)

Section canonical_documents.
Import Parser_spec Saver Saver_spec Roundtrip.

Lemma after_spec p s r : Str.after p s = Some r → s = p +:+ r.
Proof.
  revert s. induction p as [|a p IH]; intros [|b s]; simpl; try done.
  - by intros [= <-].
  - by intros [= <-].
  - destruct (decide (a = b)) as [<-|]; [|done]. intros H.
    change (String a p +:+ r) with (String a (p +:+ r)). by rewrite <-(IH s).
Qed.

Lemma section_header_plain line :
  is_Some (Re.section_header line) →
  Re.question_id line = None ∧ Re.answer_marker line = false.
Proof.
  intros [x Hx]. unfold Re.section_header in Hx.
  destruct (Str.after "## " line) as [r|] eqn:E; [|done]. clear Hx.
  apply after_spec in E as ->. by vm_compute.
Qed.

Lemma question_header_id line qid t :
  Re.question_header line = Some (qid, t) →
  Re.question_id line = Some qid ∧ Re.answer_marker line = false ∧
  Str.nonempty qid = true.
Proof.
  unfold Re.question_header, Re.question_id. intros H.
  assert (Re.answer_marker line = false) as Hm.
  { destruct (Str.after "### " line) as [r|] eqn:E; [|done].
    apply after_spec in E as ->. by vm_compute. }
  destruct (Str.after "### " line) as [r|]; [|done].
  cbn -[Str.after Re.digits1 Re.dot_plus String.append] in *.
  destruct (Re.digits1 r) as [[d1 r1]|] eqn:Hd1; [|done].
  cbn -[Str.after Re.digits1 Re.dot_plus String.append] in *.
  destruct (Str.after "." r1) as [r2|]; [|done].
  cbn -[Str.after Re.digits1 Re.dot_plus String.append] in *.
  destruct (Re.digits1 r2) as [[d2 r3]|]; [|done].
  cbn -[Str.after Re.digits1 Re.dot_plus String.append] in *.
  destruct (Str.after " " r3) as [r4|]; [|done].
  cbn -[Str.after Re.digits1 Re.dot_plus String.append] in *.
  destruct (Re.dot_plus r4) as [t'|]; [|done].
  cbn -[Str.after Re.digits1 Re.dot_plus String.append] in *.
  injection H as <- <-. split_and!; [done..|].
  unfold Re.digits1 in Hd1. destruct (Str.span Char.is_digit r) as [d r'].
  destruct d; [done|]. by injection Hd1 as <- <-.
Qed.

Lemma slot_end_at_boundary rest : slot_end rest → at_boundary rest.
Proof. destruct rest; [done|]. by intros [? _]. Qed.

#[local] Hint Resolve slot_end_at_boundary : slots.

Lemma pieces_kept answers q i line rest :
  Re.question_id line = None → Re.answer_marker line = false →
  pieces answers q i (line :: rest) = Kept line :: pieces answers q i rest.
Proof. intros Hq Hm. simpl. by rewrite Hq, Hm. Qed.

Lemma pieces_header answers q i line qid rest :
  Re.question_id line = Some qid → Re.answer_marker line = false →
  pieces answers q i (line :: rest) = Kept line :: pieces answers (Some qid) 0 rest.
Proof. intros Hq Hm. simpl. by rewrite Hq, Hm. Qed.

Lemma pieces_slot answers q i marker old rest :
  Re.answer_marker marker = true →
  Forall (λ l, is_boundary l = false) old →
  at_boundary rest →
  pieces answers q i (marker :: old ++ rest) =
  Slot marker (slot_key q i) old (new_answer answers (slot_key q i) ++ [""])
  :: pieces answers q (S i) rest.
Proof.
  intros Hm Hold Hrest. simpl. rewrite (marker_not_header _ Hm), Hm.
  rewrite skipped_app, skip_old_app by done.
  by rewrite skipped_stops, skip_old_stops, app_nil_r.
Qed.

Lemma slot_table_kept q i line rest :
  Re.question_id line = None → Re.answer_marker line = false →
  slot_table q i (line :: rest) = slot_table q i rest.
Proof. intros Hq Hm. unfold slot_table. by rewrite pieces_kept. Qed.

Lemma slot_table_header q i line qid rest :
  Re.question_id line = Some qid → Re.answer_marker line = false →
  slot_table q i (line :: rest) = slot_table (Some qid) 0 rest.
Proof. intros Hq Hm. unfold slot_table. by rewrite (pieces_header _ _ _ _ qid). Qed.

Lemma slot_table_slot qid i marker old rest :
  Re.answer_marker marker = true →
  Forall (λ l, is_boundary l = false) old →
  at_boundary rest →
  Str.nonempty qid = true →
  slot_table (Some qid) i (marker :: old ++ rest) =
  (qid +:+ "_" +:+ pretty i, slot_text old) :: slot_table (Some qid) (S i) rest.
Proof.
  intros Hm Hold Hrest Hq. unfold slot_table. rewrite pieces_slot by done.
  unfold slot_key. rewrite Hq. done.
Qed.

Lemma marker_not_headers line :
  Re.answer_marker line = true → not_header line.
Proof.
  unfold Re.answer_marker. intros H.
  destruct (Str.after "Your answer" line) as [r|] eqn:E; [|done].
  apply after_spec in E as ->. by vm_compute.
Qed.

Lemma table_app d1 d2 : table (d1 ++ d2) = table d1 ++ table d2.
Proof. unfold table. by rewrite all_questions_app, bind_app. Qed.

Lemma table_commit_flush st :
  Builder.cur st = None ∨ in_section st = true →
  table (Builder.commit (Builder.flush_question st)) =
  table (Builder.secs st) ++ cur_table st.
Proof.
  intros Hst. unfold table.
  rewrite all_questions_commit, in_section_flush, secs_flush, bind_app.
  f_equal. unfold cur_table, recorded, Builder.flush_question.
  destruct st as [ss [cq|] ab bb c]; cbn.
  2:{ by destruct (in_section _). }
  destruct Hst as [?|Hin]; [done|]. rewrite Hin.
  destruct c; cbn; rewrite ?app_nil_r; reflexivity.
Qed.

(** A plain line between slots leaves the recorded answers as they are;
    when a slot is open the line is the one that ends it. *)
Lemma step_plain_recorded st line cq :
  not_header line → Re.answer_marker line = false →
  Builder.cur st = Some cq →
  (Builder.collecting_answer st = true → ends_slot line = true) →
  (Builder.collecting_answer st = false → Builder.answer_buf st = []) →
  let st' := Builder.step st line in
  Builder.secs st' = Builder.secs st ∧
  (∃ cq', Builder.cur st' = Some cq' ∧ q_id cq' = q_id cq) ∧
  recorded st' = recorded st ∧
  Builder.collecting_answer st' = false ∧
  Builder.answer_buf st' = [].
Proof.
  intros [Hs Hq] Hm Hcur Hend Hbuf. cbn zeta.
  unfold Builder.step. rewrite Hs, Hq, Hcur, Hm.
  destruct st as [ss cq0 ab bb c]. cbn in Hcur, Hend, Hbuf. subst cq0.
  unfold recorded. cbn [Builder.collecting_answer].
  destruct c; cbn.
  2:{ split_and!; eauto. }
  specialize (Hend eq_refl). unfold ends_slot in Hend.
  rewrite Hs, Hq, Hm in Hend.
  rewrite !(bool_decide_false (is_Some None)) in Hend by apply is_Some_None.
  cbn in Hend. apply orb_true_iff in Hend as [Hd|Hp].
  - rewrite Hd. cbn. rewrite app_nil_r. split_and!; eauto.
  - rewrite Hp. destruct (bool_decide (Str.strip line = "---")); cbn;
      rewrite app_nil_r; split_and!; eauto.
Qed.

(** A marker closes the slot that is open, if any, and opens the next. *)
Lemma step_marker st line cq :
  Re.answer_marker line = true →
  Builder.cur st = Some cq →
  (Builder.collecting_answer st = false → Builder.answer_buf st = []) →
  let st' := Builder.step st line in
  Builder.secs st' = Builder.secs st ∧
  (∃ cq', Builder.cur st' = Some cq' ∧ q_id cq' = q_id cq ∧
          answers cq' = recorded st) ∧
  Builder.collecting_answer st' = true ∧
  Builder.answer_buf st' = [].
Proof.
  intros Hm Hcur Hbuf. cbn zeta.
  destruct (marker_not_headers _ Hm) as [Hs Hq].
  unfold Builder.step. rewrite Hs, Hq, Hcur, Hm.
  destruct st as [ss cq0 ab bb c]. cbn in Hcur, Hbuf. subst cq0.
  unfold recorded. cbn [Builder.collecting_answer].
  destruct c; cbn.
  - split_and!; eauto.
  - rewrite app_nil_r. split_and!; eauto.
Qed.

(** The lines of a slot are appended to the answer buffer. *)
Lemma builder_buffers old : ∀ st cq,
  Builder.cur st = Some cq →
  Builder.collecting_answer st = true →
  Forall (λ l, ends_slot l = false) old →
  foldl Builder.step st old =
  Builder.State (Builder.secs st) (Builder.cur st)
    (Builder.answer_buf st ++ old) (Builder.body_buf st) true.
Proof.
  induction old as [|l old IH]; intros st cq Hcur Hc Hold.
  { simpl. rewrite app_nil_r. destruct st. simpl in *. by subst. }
  inversion Hold as [|?? He Hold']; subst.
  simpl. unfold ends_slot in He.
  apply orb_false_iff in He as [He H5]. apply orb_false_iff in He as [He H4].
  apply orb_false_iff in He as [He H3]. apply orb_false_iff in He as [H1 H2].
  apply bool_decide_eq_false, eq_None_not_Some in H1.
  apply bool_decide_eq_false, eq_None_not_Some in H2.
  assert (Builder.step st l =
    Builder.State (Builder.secs st) (Builder.cur st)
      (Builder.answer_buf st ++ [l]) (Builder.body_buf st) true) as ->.
  { unfold Builder.step. by rewrite H1, H2, H3, H4, H5, Hc, Hcur. }
  rewrite (IH _ cq) by done. cbn. by rewrite <-app_assoc.
Qed.

Lemma in_section_commit_flush st :
  in_section st = true →
  Builder.commit (Builder.flush_question st) ≠ [].
Proof.
  unfold in_section. intros Hin Hnil.
  apply commit_nil in Hnil. rewrite secs_flush in Hnil. by rewrite Hnil in Hin.
Qed.

(** In a canonical document the answers of the parsed model are, key by
    key, the texts of the slots the rewriter finds. *)
Lemma canonical_table s inq lines :
  canonical s inq lines →
  ∀ st rq ri,
    in_section st = s →
    (inq = true → s = true) →
    linked inq st rq ri →
    (inq = true → Builder.collecting_answer st = true → slot_end lines) →
    (Builder.collecting_answer st = false → Builder.answer_buf st = []) →
    table (Builder.finish (foldl Builder.step st lines)) =
    table (Builder.secs st) ++ cur_table st ++ slot_table rq ri lines.
Proof.
  induction 1 as [s q|s q line rest Hsec _ IH|q line rest Hsec Hqh _ IH
                  |s q line rest Hnh Hm Hid _ IH
                  |s marker old rest Hm Hold Hclean Hend _ IH];
    intros st rq ri Hin Hs Hlink Hcoll Hbuf.
  - (* end of the text *)
    simpl. unfold Builder.finish, slot_table. simpl. rewrite app_nil_r.
    apply table_commit_flush.
    destruct q; [right; rewrite Hin; auto|by left].
  - (* section header *)
    destruct (section_header_plain _ Hsec) as [Hid Hm].
    rewrite slot_table_kept by done. simpl foldl.
    destruct Hsec as [[d t] Hsec].
    assert (Builder.cur st = None ∨ in_section st = true) as Hst.
    { destruct q; [right; rewrite Hin; auto|by left]. }
    unfold Builder.step at 2. rewrite Hsec.
    rewrite (IH _ rq ri); clear IH.
    + cbn [Builder.secs]. rewrite table_app, table_commit_flush by done.
      unfold cur_table at 2. cbn. by rewrite app_nil_r, <-app_assoc.
    + unfold in_section. cbn [Builder.secs].
      by destruct (Builder.commit (Builder.flush_question st)).
    + done.
    + done.
    + done.
    + cbn. unfold Builder.flush_question.
      destruct st as [ss [cq|] ab bb c]; cbn in *; [|done].
      intros Hc. destruct c; cbn in *; [done|auto].
  - (* question header *)
    destruct Hqh as [[qid t] Hqh].
    destruct (question_header_id _ _ _ Hqh) as (Hid & Hm & Hne).
    rewrite (slot_table_header _ _ _ qid) by done. simpl foldl.
    unfold Builder.step at 2. rewrite Hsec, Hqh.
    rewrite (IH _ (Some qid) 0); clear IH.
    + cbn [Builder.secs]. rewrite table_commit_flush by (right; done).
      unfold cur_table at 2. cbn. by rewrite <-app_assoc.
    + unfold in_section. cbn [Builder.secs].
      pose proof (in_section_commit_flush st Hin).
      by destruct (Builder.commit (Builder.flush_question st)).
    + done.
    + eexists. split; [done|]. split_and!; done.
    + done.
    + done.
  - (* a line that is no header and no marker *)
    rewrite slot_table_kept by done. simpl foldl.
    destruct q.
    + destruct Hlink as (cq & Hcur & -> & Hne & ->).
      destruct (step_plain_recorded st line cq Hnh Hm Hcur)
        as (Hsecs & (cq' & Hcur' & Hid') & Hrec & Hc' & Hb'); [|done|].
      { intros Hc. by destruct (Hcoll eq_refl Hc). }
      rewrite (IH _ (Some (q_id cq)) (length (recorded st))); clear IH.
      * rewrite Hsecs. do 2 f_equal. unfold cur_table.
        by rewrite Hcur, Hcur', Hrec, Hid'.
      * unfold in_section. by rewrite Hsecs.
      * done.
      * exists cq'. by rewrite Hid', Hrec.
      * intros _ Hc. congruence.
      * done.
    + cbn in Hlink. destruct Hnh as [Hsec Hqh].
      assert (Builder.step st line = st) as ->.
      { unfold Builder.step. by rewrite Hsec, Hqh, Hlink. }
      by apply IH.
  - (* a slot *)
    destruct Hlink as (cq & Hcur & -> & Hne & ->).
    assert (Forall (λ l, is_boundary l = false) old) as Hnb.
    { eapply Forall_impl; [exact Hold|]. by intros ? [? _]. }
    assert (Forall (λ l, ends_slot l = false) old) as Hne'.
    { eapply Forall_impl; [exact Hold|]. by intros ? [_ ?]. }
    rewrite slot_table_slot by auto with slots.
    simpl foldl. rewrite foldl_app.
    destruct (step_marker st marker cq Hm Hcur Hbuf)
      as (Hsecs & (cq1 & Hcur1 & Hid1 & Hans1) & Hc1 & Hb1).
    rewrite (builder_buffers old _ cq1) by done.
    rewrite Hsecs, Hcur1, Hb1. simpl app.
    rewrite (IH _ (Some (q_id cq)) (S (length (recorded st)))); clear IH.
    + cbn [Builder.secs]. f_equal.
      unfold cur_table, recorded. cbn. rewrite Hcur, Hans1, Hid1.
      unfold recorded. rewrite Hcur.
      rewrite imap_app, <-app_assoc. simpl. by rewrite Nat.add_0_r.
    + done.
    + done.
    + exists cq1. cbn. split_and!; [done|by rewrite Hid1|by rewrite Hid1|].
      rewrite Hans1, length_app. simpl. lia.
    + done.
    + done.
Qed.

Lemma canonical_recorded s inq lines :
  canonical s inq lines →
  ∀ (answers : gmap string string) rq ri,
    (inq = true → ∃ qid, rq = Some qid ∧ Str.nonempty qid = true) →
    (∀ k a, (k, a) ∈ slot_table rq ri lines → answers !! k = Some a) →
    Forall (λ p, slot_recorded answers p = true) (pieces answers rq ri lines).
Proof.
  induction 1 as [s q|s q line rest Hsec _ IH|q line rest Hsec Hqh _ IH
                  |s q line rest Hnh Hm Hid _ IH
                  |s marker old rest Hm Hold Hclean Hend _ IH];
    intros answers rq ri Hrq Htab.
  - constructor.
  - destruct (section_header_plain _ Hsec) as [Hid Hm].
    rewrite pieces_kept by done. constructor; [done|].
    apply IH; [done|]. by rewrite slot_table_kept in Htab.
  - destruct Hqh as [[qid t] Hqh].
    destruct (question_header_id _ _ _ Hqh) as (Hid & Hm & Hne).
    rewrite (pieces_header _ _ _ _ qid) by done. constructor; [done|].
    apply IH; [eauto|]. by rewrite (slot_table_header _ _ _ qid) in Htab.
  - rewrite pieces_kept by done. constructor; [done|].
    apply IH; [done|]. by rewrite slot_table_kept in Htab.
  - destruct (Hrq eq_refl) as (qid & -> & Hne).
    assert (Forall (λ l, is_boundary l = false) old) as Hnb.
    { eapply Forall_impl; [exact Hold|]. by intros ? [? _]. }
    rewrite slot_table_slot in Htab by auto with slots.
    rewrite pieces_slot by auto with slots.
    constructor.
    + unfold slot_recorded, slot_key, new_answer. rewrite Hne.
      rewrite (Htab _ (slot_text old)) by (by left).
      unfold clean in Hclean.
      by destruct (Str.nonempty (Str.strip (slot_text old))).
    + apply IH; [eauto|]. intros k a Hka. apply Htab. by right.
Qed.

Lemma lines_save_answers answers text :
  Str.lines (save_answers answers text) =
  loop answers None 0 (Str.lines text) ≫= Str.lines.
Proof.
  unfold save_answers, Saver.result. apply lines_unlines.
  pose proof (split_not_nil Char.newline text) as Hne.
  unfold Str.lines. destruct (Str.split Char.newline text) as [|b r]; [done|].
  by destruct (loop_head answers None 0 b r) as [out ->].
Qed.

Lemma canonical_model_answers text :
  canonical false false (Str.lines text) →
  model_answers (parse_markdown text) =
  list_to_map (slot_table None 0 (Str.lines text)).
Proof.
  intros Hcan. unfold model_answers. fold (table (parse_markdown text)).
  rewrite parse_markdown_builder. unfold Builder.run.
  by rewrite (canonical_table _ _ _ Hcan Builder.init None 0).
Qed.

(** X6.  A document in canonical form whose slots have distinct keys
    makes the round trip: parsing it and rewriting it with the answers
    of the model gives it back, but for a blank line at the end of a
    slot. *)
Lemma canonical_round_trip text :
  canonical false false (Str.lines text) →
  NoDup (slot_table None 0 (Str.lines text)).*1 →
  round_trip text.
Proof.
  intros Hcan Hkeys. unfold round_trip. rewrite lines_save_answers.
  apply loop_same_but_blank; [apply lines_single_line|].
  apply (canonical_recorded _ _ _ Hcan); [done|].
  intros k a Hka. rewrite canonical_model_answers by done.
  by apply elem_of_list_to_map_1.
Qed.

Ltac plain_line := apply can_plain; [by split|done|done|].
Ltac header_line :=
  first [ apply can_question; [done|by vm_compute; eauto|]
        | apply can_section; [by vm_compute; eauto|] ].

Example canonical_document :
  let text := Str.unlines
    ["# Decisions"; "";
     "## 1. Scope"; "";
     "### 1.1 First question"; "Which one?"; "- **(a) yes**"; "- (b) no"; "";
     "Your answer:"; "b, because"; "of reasons"; ""; "---"; "";
     "### 1.2 Second question"; "Your answer:"; ""; "---"] in
  canonical false false (Str.lines text) ∧
  NoDup (slot_table None 0 (Str.lines text)).*1.
Proof.
  intros text. split.
  - change (Str.lines text) with
      ["# Decisions"; "";
       "## 1. Scope"; "";
       "### 1.1 First question"; "Which one?"; "- **(a) yes**"; "- (b) no"; "";
       "Your answer:"; "b, because"; "of reasons"; ""; "---"; "";
       "### 1.2 Second question"; "Your answer:"; ""; "---"].
    do 2 plain_line. header_line. plain_line. header_line. do 4 plain_line.
    apply (can_slot _ "Your answer:" ["b, because"; "of reasons"; ""]
             ["---"; ""; "### 1.2 Second question"; "Your answer:"; ""; "---"]);
      [done|repeat constructor|by vm_compute|by split|].
    do 2 plain_line. header_line.
    apply (can_slot _ "Your answer:" [""] ["---"]);
      [done|repeat constructor|by vm_compute|by split|].
    plain_line. constructor.
  - assert ((slot_table None 0 (Str.lines text)).*1 = ["1.1_0"; "1.2_0"]) as ->
      by (by vm_compute).
    repeat constructor; set_solver.
Qed.

End canonical_documents.

Lemma canonical_round_trip_witness :
  let text := Str.unlines
    ["# Decisions"; "";
     "## 1. Scope"; "";
     "### 1.1 First question"; "Which one?"; "- **(a) yes**"; "- (b) no"; "";
     "Your answer:"; "b, because"; "of reasons"; ""; "---"; "";
     "### 1.2 Second question"; "Your answer:"; ""; "---"] in
  Roundtrip.round_trip text.
Proof.
  intros text.
  exact (canonical_round_trip text (proj1 canonical_document) (proj2 canonical_document)).
Defined.

(** * Further properties of the code *)

(** ** The rewriter: the slots of a text *)

Section saver_slots.
Import Saver Saver_spec Slots.

Lemma keys_from_skip_old q i rest :
  keys_from q i (skip_old rest) = keys_from q i rest.
Proof.
  induction rest as [|l rest IH]; simpl; [done|].
  destruct (is_boundary l) eqn:Hb; [done|].
  destruct (not_boundary_plain _ Hb) as [-> ->]. done.
Qed.

Lemma keys_from_marker q i marker rest :
  Re.answer_marker marker = true →
  keys_from q i (marker :: rest) =
  option_list (slot_key q i) ++ keys_from q (S i) (skip_old rest).
Proof.
  intros Hm. simpl. by rewrite (marker_not_header _ Hm), Hm, keys_from_skip_old.
Qed.

Lemma keys_from_keep q i line rest :
  Re.answer_marker line = false →
  keys_from q i (line :: rest) =
  keys_from (advance (q, i) line).1 (advance (q, i) line).2 rest.
Proof.
  intros Hm. simpl. unfold advance. rewrite Hm.
  by destruct (Re.question_id line).
Qed.

Lemma loop_agree a1 a2 lines : ∀ q i,
  (∀ k, k ∈ keys_from q i lines → a1 !! k = a2 !! k) →
  loop a1 q i lines = loop a2 q i lines.
Proof.
  induction lines as [|line rest Hm IH|marker rest Hm IH] using saver_ind;
    intros q i Hk; [done|..].
  - rewrite !loop_keep by done. f_equal. apply IH.
    intros k Hin. apply Hk. by rewrite keys_from_keep.
  - rewrite !loop_marker by done.
    rewrite keys_from_marker in Hk by done.
    f_equal. f_equal.
    + unfold new_answer. destruct (slot_key q i) as [k|]; [|done].
      rewrite (Hk k); [done|]. simpl. by left.
    + f_equal. apply IH. intros k Hin. apply Hk.
      apply elem_of_app. by right.
Qed.

Lemma keys_from_no_header lines : ∀ i,
  Forall (λ l, Re.question_id l = None) lines → keys_from None i lines = [].
Proof.
  induction lines as [|l lines IH]; intros i Hl; [done|].
  inversion Hl as [|?? H1 H2]; subst. simpl. rewrite H1.
  destruct (Re.answer_marker l); simpl; by apply IH.
Qed.

Lemma loop_no_marker answers lines : ∀ q i,
  Forall (λ l, Re.answer_marker l = false) lines →
  loop answers q i lines = lines.
Proof.
  induction lines as [|l lines IH]; intros q i Hl; [done|].
  inversion Hl as [|?? H1 H2]; subst.
  rewrite loop_keep by done. f_equal. by apply IH.
Qed.

(** X1.  A text without a marker line is written back as it is, whatever
    the answers. *)
Theorem save_without_markers (answers : gmap string string) (text : string) :
  Forall (λ l, Re.answer_marker l = false) (Str.lines text) →
  save_answers answers text = text.
Proof.
  intros H. unfold save_answers, Saver.result.
  by rewrite loop_no_marker, unlines_lines.
Qed.

Lemma save_without_markers_witness :
  let answers : gmap string string := {[ "1.1_0" := "an answer" ]} in
  let text := Str.unlines ["## 1. Scope"; "### 1.1 Q"; "no slot here"; "---"] in
  save_answers answers text = text.
Proof.
  intros answers text. apply save_without_markers.
  vm_compute. repeat constructor.
Defined.

(** X2.  The text written depends on the answer mapping only through
    the entries at the keys of the slots of the text: two mappings that
    agree there give the same text, so an entry under any other key is
    ignored. *)
Theorem save_reads_slot_keys_only (a1 a2 : gmap string string) (text : string) :
  (∀ k, k ∈ Slots.keys text → a1 !! k = a2 !! k) →
  save_answers a1 text = save_answers a2 text.
Proof.
  intros H. unfold save_answers, Saver.result. f_equal. by apply loop_agree.
Qed.

Lemma save_reads_slot_keys_only_witness :
  let text := Str.unlines ["### 1.1 Q"; "Your answer:"; "old text"; "---"] in
  let a1 : gmap string string := {[ "1.1_0" := "kept"; "1.1_1" := "no such slot" ]} in
  let a2 : gmap string string := {[ "1.1_0" := "kept"; "7.2_0" := "nor this" ]} in
  Slots.keys text = ["1.1_0"] ∧
  save_answers a1 text = save_answers a2 text.
Proof.
  intros text a1 a2. split; [reflexivity|].
  apply save_reads_slot_keys_only.
  assert (Slots.keys text = ["1.1_0"]) as -> by reflexivity.
  intros k ->%list_elem_of_singleton. by vm_compute.
Defined.

(** X3.  In a text without a question header every slot is left blank:
    the answers are not looked at. *)
Theorem save_without_question (answers : gmap string string) (text : string) :
  Forall (λ l, Re.question_id l = None) (Str.lines text) →
  save_answers answers text = save_answers ∅ text.
Proof.
  intros H. unfold save_answers, Saver.result. f_equal. apply loop_agree.
  intros k. rewrite keys_from_no_header by done. by intros ?%elem_of_nil.
Qed.

Lemma save_without_question_witness :
  let answers : gmap string string := {[ "1.1_0" := "an answer" ]} in
  let text := Str.unlines ["## 1. Scope"; "Your answer:"; "old text"; "---"] in
  save_answers answers text = save_answers ∅ text.
Proof.
  intros answers text. apply save_without_question.
  vm_compute. repeat constructor.
Defined.

Lemma loop_relines_over a1 a2 lines :
  plain a1 →
  Forall single_line lines →
  ∀ q i, loop a2 q i (loop a1 q i lines ≫= Str.lines) = loop a2 q i lines.
Proof.
  intros Hplain.
  induction lines as [|line rest Hm IH|marker rest Hm IH] using saver_ind;
    intros Hs q i; [done|..].
  - inversion Hs as [|?? Hl Hr]; subst.
    rewrite !loop_keep by done. rewrite bind_lines_cons by done.
    rewrite loop_keep by done. by rewrite IH.
  - inversion Hs as [|?? Hl Hr]; subst.
    assert (Forall single_line (skip_old rest)) as Hs'.
    { rewrite <-(skipped_skip_old rest) in Hr. by apply Forall_app in Hr as [_ ?]. }
    rewrite !loop_marker by done. rewrite bind_lines_cons by done.
    rewrite bind_app, bind_lines_cons by reflexivity.
    rewrite loop_marker by done.
    rewrite skip_old_app by (apply new_answer_plain, Hplain).
    change (skip_old ("" :: ?l)) with (skip_old l).
    rewrite skip_old_stops
      by (apply relines_at_boundary; auto with slots).
    by rewrite IH.
Qed.



End saver_slots.

(** ** The rewriter and the parser: reading back what was saved *)

Section read_back.
Import Parser_spec Saver Saver_spec Roundtrip Slots Readback.

#[local] Hint Resolve slot_end_at_boundary : slots.

Lemma canonical_aligned s q lines : canonical s q lines → aligned s q lines.
Proof. induction 1; by econstructor. Qed.

Lemma aligned_table s inq lines :
  aligned s inq lines →
  ∀ st rq ri,
    in_section st = s →
    (inq = true → s = true) →
    linked inq st rq ri →
    (inq = true → Builder.collecting_answer st = true → slot_end lines) →
    (Builder.collecting_answer st = false → Builder.answer_buf st = []) →
    table (Builder.finish (foldl Builder.step st lines)) =
    table (Builder.secs st) ++ cur_table st ++ slot_table rq ri lines.
Proof.
  induction 1 as [s q|s q line rest Hsec _ IH|q line rest Hsec Hqh _ IH
                  |s q line rest Hnh Hm Hid _ IH
                  |s marker old rest Hm Hold Hend _ IH];
    intros st rq ri Hin Hs Hlink Hcoll Hbuf.
  - simpl. unfold Builder.finish, slot_table. simpl. rewrite app_nil_r.
    apply table_commit_flush.
    destruct q; [right; rewrite Hin; auto|by left].
  - destruct (section_header_plain _ Hsec) as [Hid Hm].
    rewrite slot_table_kept by done. simpl foldl.
    destruct Hsec as [[d t] Hsec].
    assert (Builder.cur st = None ∨ in_section st = true) as Hst.
    { destruct q; [right; rewrite Hin; auto|by left]. }
    unfold Builder.step at 2. rewrite Hsec.
    rewrite (IH _ rq ri); clear IH.
    + cbn [Builder.secs]. rewrite table_app, table_commit_flush by done.
      unfold cur_table at 2. cbn. by rewrite app_nil_r, <-app_assoc.
    + unfold in_section. cbn [Builder.secs].
      by destruct (Builder.commit (Builder.flush_question st)).
    + done.
    + done.
    + done.
    + cbn. unfold Builder.flush_question.
      destruct st as [ss [cq|] ab bb c]; cbn in *; [|done].
      intros Hc. destruct c; cbn in *; [done|auto].
  - destruct Hqh as [[qid t] Hqh].
    destruct (question_header_id _ _ _ Hqh) as (Hid & Hm & Hne).
    rewrite (slot_table_header _ _ _ qid) by done. simpl foldl.
    unfold Builder.step at 2. rewrite Hsec, Hqh.
    rewrite (IH _ (Some qid) 0); clear IH.
    + cbn [Builder.secs]. rewrite table_commit_flush by (right; done).
      unfold cur_table at 2. cbn. by rewrite <-app_assoc.
    + unfold in_section. cbn [Builder.secs].
      pose proof (in_section_commit_flush st Hin).
      by destruct (Builder.commit (Builder.flush_question st)).
    + done.
    + eexists. split; [done|]. split_and!; done.
    + done.
    + done.
  - rewrite slot_table_kept by done. simpl foldl.
    destruct q.
    + destruct Hlink as (cq & Hcur & -> & Hne & ->).
      destruct (step_plain_recorded st line cq Hnh Hm Hcur)
        as (Hsecs & (cq' & Hcur' & Hid') & Hrec & Hc' & Hb'); [|done|].
      { intros Hc. by destruct (Hcoll eq_refl Hc). }
      rewrite (IH _ (Some (q_id cq)) (length (recorded st))); clear IH.
      * rewrite Hsecs. do 2 f_equal. unfold cur_table.
        by rewrite Hcur, Hcur', Hrec, Hid'.
      * unfold in_section. by rewrite Hsecs.
      * done.
      * exists cq'. by rewrite Hid', Hrec.
      * intros _ Hc. congruence.
      * done.
    + cbn in Hlink. destruct Hnh as [Hsec Hqh].
      assert (Builder.step st line = st) as ->.
      { unfold Builder.step. by rewrite Hsec, Hqh, Hlink. }
      by apply IH.
  - destruct Hlink as (cq & Hcur & -> & Hne & ->).
    assert (Forall (λ l, is_boundary l = false) old) as Hnb.
    { eapply Forall_impl; [exact Hold|]. by intros ? [? _]. }
    assert (Forall (λ l, ends_slot l = false) old) as Hne'.
    { eapply Forall_impl; [exact Hold|]. by intros ? [_ ?]. }
    rewrite slot_table_slot by auto with slots.
    simpl foldl. rewrite foldl_app.
    destruct (step_marker st marker cq Hm Hcur Hbuf)
      as (Hsecs & (cq1 & Hcur1 & Hid1 & Hans1) & Hc1 & Hb1).
    rewrite (builder_buffers old _ cq1) by done.
    rewrite Hsecs, Hcur1, Hb1. simpl app.
    rewrite (IH _ (Some (q_id cq)) (S (length (recorded st)))); clear IH.
    + cbn [Builder.secs]. f_equal.
      unfold cur_table, recorded. cbn. rewrite Hcur, Hans1, Hid1.
      unfold recorded. rewrite Hcur.
      rewrite imap_app, <-app_assoc. simpl. by rewrite Nat.add_0_r.
    + done.
    + done.
    + exists cq1. cbn. split_and!; [done|by rewrite Hid1|by rewrite Hid1|].
      rewrite Hans1, length_app. simpl. lia.
    + done.
    + done.
Qed.

Lemma lstrip_snoc_space a c :
  Char.is_space c = true →
  Str.lstrip (a +:+ String c "") =
  match Str.lstrip a with "" => "" | r => r +:+ String c "" end.
Proof.
  intros Hc. induction a as [|x a IH]; simpl.
  - by rewrite Hc.
  - change (String x a +:+ String c "") with (String x (a +:+ String c "")).
    simpl. by destruct (Char.is_space x).
Qed.

Lemma rstrip_snoc_space s c :
  Char.is_space c = true → Str.rstrip (s +:+ String c "") = Str.rstrip s.
Proof.
  intros Hc. induction s as [|x s IH]; simpl.
  - by rewrite Hc.
  - change (String x s +:+ String c "") with (String x (s +:+ String c "")).
    simpl. by rewrite IH.
Qed.

Lemma strip_snoc_space a c :
  Char.is_space c = true → Str.strip (a +:+ String c "") = Str.strip a.
Proof.
  intros Hc. unfold Str.strip. rewrite lstrip_snoc_space by done.
  destruct (Str.lstrip a) as [|x r]; [done|]. by apply rstrip_snoc_space.
Qed.

Lemma unlines_snoc l x :
  l ≠ [] → Str.unlines (l ++ [x]) = Str.unlines l +:+ String Char.newline x.
Proof.
  unfold Str.unlines. induction l as [|y l IH]; [done|intros _].
  destruct l as [|z l]; [done|].
  change (Str.join Char.newline ((y :: z :: l) ++ [x]))
    with (y +:+ String Char.newline (Str.join Char.newline ((z :: l) ++ [x]))).
  rewrite IH by done.
  change (Str.join Char.newline (y :: z :: l))
    with (y +:+ String Char.newline (Str.join Char.newline (z :: l))).
  rewrite str_app_assoc. done.
Qed.

(** The text the parser records for a slot the rewriter has written. *)
Lemma slot_text_written answers k :
  slot_text ((new_answer answers (Some k) ≫= Str.lines) ++ [""]) =
  Str.strip (default "" (answers !! k)).
Proof.
  unfold slot_text, new_answer.
  destruct (answers !! k) as [a|]; [|done]. simpl.
  destruct (Str.nonempty (Str.strip a)) eqn:Hne.
  - simpl. rewrite app_nil_r.
    rewrite unlines_snoc by apply split_not_nil.
    rewrite unlines_lines. by apply strip_snoc_space.
  - simpl. by destruct (Str.strip a).
Qed.

Lemma new_answer_inside answers key :
  inside answers →
  Forall (λ l, is_boundary l = false ∧ ends_slot l = false)
         ((new_answer answers key ≫= Str.lines) ++ [""]).
Proof.
  intros Hin. apply Forall_app. split; [|by repeat constructor].
  unfold new_answer. destruct key as [k|]; [|constructor].
  destruct (answers !! k) as [a|] eqn:Ha; [|constructor].
  destruct (Str.nonempty (Str.strip a)) eqn:Hne; [|constructor].
  simpl. rewrite app_nil_r. eauto.
Qed.

Lemma slot_end_relines answers q i rest :
  Forall single_line rest → slot_end rest →
  slot_end (loop answers q i rest ≫= Str.lines).
Proof.
  destruct rest as [|b rest]; [done|].
  intros Hs Hb. destruct (loop_head answers q i b rest) as [out ->].
  inversion Hs; subst. by rewrite bind_lines_cons.
Qed.

Lemma advance_plain st line :
  Re.question_id line = None → Re.answer_marker line = false →
  advance st line = st.
Proof. intros Hq Hm. unfold advance. rewrite Hq, Hm. by destruct st. Qed.

Lemma advance_header st line qid :
  Re.question_id line = Some qid → Re.answer_marker line = false →
  advance st line = (Some qid, 0).
Proof. intros Hq Hm. unfold advance. by rewrite Hq, Hm. Qed.

(** The rewriter keeps a document aligned when the texts it writes stay
    inside their slots. *)
Lemma aligned_saved answers s q lines :
  inside answers →
  aligned s q lines →
  Forall single_line lines →
  ∀ rq ri, aligned s q (loop answers rq ri lines ≫= Str.lines).
Proof.
  intros Hin.
  induction 1 as [s q|s q line rest Hsec _ IH|q line rest Hsec Hqh _ IH
                  |s q line rest Hnh Hm Hid _ IH
                  |s marker old rest Hm Hold Hend _ IH];
    intros Hs rq ri.
  - constructor.
  - inversion Hs as [|?? Hl Hr]; subst.
    destruct (section_header_plain _ Hsec) as [Hid Hm].
    rewrite loop_keep, bind_lines_cons by done.
    apply al_section; [done|]. by apply IH.
  - inversion Hs as [|?? Hl Hr]; subst.
    destruct Hqh as [[qid t] Hqh].
    destruct (question_header_id _ _ _ Hqh) as (Hid & Hm & Hne).
    rewrite loop_keep, bind_lines_cons by done.
    apply al_question; [done|by rewrite Hqh|]. by apply IH.
  - inversion Hs as [|?? Hl Hr]; subst.
    rewrite loop_keep, bind_lines_cons by done.
    apply al_plain; [done..|]. by apply IH.
  - inversion Hs as [|?? Hl Hr]; subst.
    apply Forall_app in Hr as [_ Hr].
    assert (Forall (λ l, is_boundary l = false) old) as Hnb.
    { eapply Forall_impl; [exact Hold|]. by intros ? [? _]. }
    rewrite loop_marker by done.
    rewrite skip_old_app, skip_old_stops by auto with slots.
    rewrite bind_lines_cons by done.
    rewrite bind_app, bind_lines_cons by reflexivity.
    change (?new ++ "" :: ?out) with (new ++ [""] ++ out).
    rewrite app_assoc.
    apply al_slot; [done|by apply new_answer_inside| |by apply IH].
    by apply slot_end_relines.
Qed.

(** Key by key, what the parser will record in the slots of the text
    written. *)
Lemma saved_slot_table answers s q lines :
  inside answers →
  aligned s q lines →
  Forall single_line lines →
  ∀ rq ri,
    (q = true → ∃ qid, rq = Some qid ∧ Str.nonempty qid = true) →
    slot_table rq ri (loop answers rq ri lines ≫= Str.lines) =
    saved answers <$> keys_from rq ri lines.
Proof.
  intros Hin.
  induction 1 as [s q|s q line rest Hsec _ IH|q line rest Hsec Hqh _ IH
                  |s q line rest Hnh Hm Hid _ IH
                  |s marker old rest Hm Hold Hend _ IH];
    intros Hs rq ri Hrq.
  - done.
  - inversion Hs as [|?? Hl Hr]; subst.
    destruct (section_header_plain _ Hsec) as [Hid Hm].
    rewrite loop_keep, bind_lines_cons, keys_from_keep by done.
    rewrite advance_plain by done.
    rewrite slot_table_kept by done. by apply IH.
  - inversion Hs as [|?? Hl Hr]; subst.
    destruct Hqh as [[qid t] Hqh].
    destruct (question_header_id _ _ _ Hqh) as (Hid & Hm & Hne).
    rewrite loop_keep, bind_lines_cons, keys_from_keep by done.
    rewrite (advance_header _ _ qid) by done.
    rewrite (slot_table_header _ _ _ qid) by done. apply IH; eauto.
  - inversion Hs as [|?? Hl Hr]; subst.
    rewrite loop_keep, bind_lines_cons, keys_from_keep by done.
    rewrite advance_plain by done.
    rewrite slot_table_kept by done. by apply IH.
  - inversion Hs as [|?? Hl Hr]; subst.
    apply Forall_app in Hr as [_ Hr].
    destruct (Hrq eq_refl) as (qid & -> & Hne).
    assert (Forall (λ l, is_boundary l = false) old) as Hnb.
    { eapply Forall_impl; [exact Hold|]. by intros ? [? _]. }
    rewrite loop_marker, keys_from_marker by done.
    rewrite skip_old_app, skip_old_stops by auto with slots.
    rewrite bind_lines_cons by done.
    rewrite bind_app, bind_lines_cons by reflexivity.
    change (?new ++ "" :: ?out) with (new ++ [""] ++ out).
    rewrite app_assoc.
    rewrite slot_table_slot; [|done| | |done].
    + unfold slot_key. rewrite Hne, slot_text_written.
      change (saved answers <$> option_list (Some ?k) ++ ?l)
        with (saved answers k :: (saved answers <$> l)).
      f_equal. apply IH; eauto.
    + eapply Forall_impl; [by apply new_answer_inside|]. by intros ? [? _].
    + apply slot_end_at_boundary. by apply slot_end_relines.
Qed.



End read_back.

(** ** The parser: the outline of the document *)

Section outline.
Import Parser_spec Outline.

Lemma fmap_alter_last {A B} (h : A → B) (f : A → A) (g : B → B) l :
  (∀ x, h (f x) = g (h x)) →
  h <$> Parser.alter_last f l = Parser.alter_last g (h <$> l).
Proof.
  intros Hfg. induction l as [|x l IH]; [done|].
  destruct l as [|y l]; [simpl; by rewrite Hfg|].
  change (h <$> x :: Parser.alter_last f (y :: l) =
          h x :: Parser.alter_last g (h <$> y :: l)).
  by rewrite <-IH.
Qed.

Lemma alter_last_id {A} (f : A → A) l :
  (∀ x, f x = x) → Parser.alter_last f l = l.
Proof.
  intros Hf. induction l as [|x l IH]; [done|].
  destruct l as [|y l]; [simpl; by rewrite Hf|].
  change (x :: Parser.alter_last f (y :: l) = x :: y :: l). by rewrite IH.
Qed.

Lemma of_commit st :
  of_section <$> Builder.commit st =
  Parser.alter_last (add_heads (option_list (of_question <$> Builder.cur st)))
                    (of_section <$> Builder.secs st).
Proof.
  unfold Builder.commit. destruct (Builder.cur st) as [q|]; simpl.
  - apply fmap_alter_last. intros [i t qs]. unfold of_section, add_heads. simpl.
    by rewrite fmap_app.
  - symmetry. apply alter_last_id. intros [[i t] qs]. unfold add_heads. simpl.
    by rewrite app_nil_r.
Qed.

Lemma of_commit_flush st :
  of_section <$> Builder.commit (Builder.flush_question st) =
  of_section <$> Builder.commit st.
Proof.
  rewrite !of_commit, secs_flush. do 2 f_equal.
  unfold Builder.flush_question.
  destruct st as [ss [q|] ab bb c]; [|done]. by destruct c.
Qed.

Lemma of_commit_step st line :
  not_header line →
  of_section <$> Builder.commit (Builder.step st line) =
  of_section <$> Builder.commit st.
Proof.
  intros [Hs Hq]. rewrite !of_commit. unfold Builder.step. rewrite Hs, Hq.
  destruct st as [ss [q|] ab bb c]; [|done]. cbn [Builder.cur].
  destruct (Re.answer_marker line); [by destruct c|].
  destruct c; [|done]. cbn [Builder.collecting_answer].
  case_bool_decide; [done|]. by destruct (Re.sub_prompt line).
Qed.

Lemma outline_run lines : ∀ st,
  of_section <$> Builder.finish (foldl Builder.step st lines) =
  Parser.alter_last (add_heads (heads lines)) (of_section <$> Builder.commit st)
  ++ sections lines.
Proof.
  induction lines as [|line rest IH]; intros st.
  { simpl. unfold Builder.finish. rewrite of_commit_flush, app_nil_r.
    symmetry. apply alter_last_id. intros [[i t] qs]. unfold add_heads. simpl.
    by rewrite app_nil_r. }
  simpl foldl. rewrite IH. clear IH. simpl.
  destruct (Re.section_header line) as [[d t]|] eqn:Hsec.
  { unfold Builder.step. rewrite Hsec.
    unfold Builder.commit at 1. cbn [Builder.cur Builder.secs].
    rewrite fmap_app, of_commit_flush. simpl.
    rewrite alter_last_app.
    rewrite (alter_last_id (add_heads [])).
    2:{ intros [[i t'] qs]. unfold add_heads. simpl. by rewrite app_nil_r. }
    by rewrite <-app_assoc. }
  destruct (Re.question_header line) as [[qid t]|] eqn:Hq.
  { unfold Builder.step. rewrite Hsec, Hq. f_equal.
    rewrite of_commit. cbn [Builder.cur Builder.secs]. rewrite of_commit_flush.
    rewrite alter_last_compose. apply alter_last_ext.
    intros [[i t'] qs]. unfold add_heads. simpl. by rewrite <-app_assoc. }
  by rewrite of_commit_step.
Qed.

Lemma outline_of_parse text :
  of_section <$> parse_markdown text = Outline.sections (Str.lines text).
Proof.
  rewrite parse_markdown_builder. unfold Builder.run.
  by rewrite outline_run.
Qed.

(** X8.  The outline of the parsed document is the outline of the text:
    one section for each section header line, in order, with the number
    and the stripped title of the line, holding one question for each
    question header line up to the next section header, with the id and
    the stripped title of the line.  A question header in front of the
    first section header gives no question. *)
Theorem parse_outline (text : string) :
  of_section <$> parse_markdown text = Outline.sections (Str.lines text).
Proof. apply outline_of_parse. Qed.

End outline.

(** ** The parser: what holds of every question *)

Section question_invariant.
Import Parser_spec.
Context (P Q : question → Prop).
Hypothesis P_new : ∀ line qid t,
  Re.question_header line = Some (qid, t) →
  P (Parser.new_question qid (Str.strip t)).
Hypothesis P_answer : ∀ q buf,
  P q → P (set_answers (λ l, l ++ [Str.strip (Str.unlines buf)]) q).
Hypothesis P_prompt : ∀ q buf line,
  P q → Re.sub_prompt line = true →
  P (set_sub_prompts (λ l, l ++ [line])
       (set_answers (λ l, l ++ [Str.strip (Str.unlines buf)]) q)).
Hypothesis Q_body : ∀ q body, P q → Q (_process_body q body).

Lemma questions_commit_flush st :
  Forall Q (all_questions (Builder.secs st)) →
  (∀ q, Builder.cur st = Some q → P q) →
  Forall Q (all_questions (Builder.commit (Builder.flush_question st))).
Proof.
  intros Hsecs Hcur. rewrite all_questions_commit, secs_flush.
  apply Forall_app. split; [done|].
  destruct (in_section _); [|constructor].
  unfold Builder.flush_question.
  destruct st as [ss [q|] ab bb c]; [|constructor]. simpl in *.
  specialize (Hcur q eq_refl).
  destruct c; (constructor; [|constructor]); apply Q_body; [|done].
  by apply (P_answer q ab).
Qed.

Lemma questions_step st line :
  Forall Q (all_questions (Builder.secs st)) →
  (∀ q, Builder.cur st = Some q → P q) →
  Forall Q (all_questions (Builder.secs (Builder.step st line))) ∧
  (∀ q, Builder.cur (Builder.step st line) = Some q → P q).
Proof.
  intros Hsecs Hcur. pose proof (questions_commit_flush st Hsecs Hcur) as Hcf.
  unfold Builder.step.
  destruct (Re.section_header line) as [[d t]|].
  { split; simpl; [|done].
    rewrite all_questions_app. apply Forall_app. split; [done|constructor]. }
  destruct (Re.question_header line) as [[qid t]|] eqn:Hq.
  { split; simpl; [done|]. intros q [= <-]. eauto. }
  destruct st as [ss [q|] ab bb c]; [|done]. simpl in *.
  specialize (Hcur q eq_refl).
  destruct (Re.answer_marker line).
  { destruct c; (split; [done|]); intros ? [= <-]; [|done].
    by apply (P_answer q ab). }
  destruct c; [|split; [done|by intros ? [= <-]]].
  case_bool_decide.
  { split; [done|]. intros ? [= <-]. by apply (P_answer q ab). }
  destruct (Re.sub_prompt line) eqn:Hp.
  - split; [done|]. intros ? [= <-]. by apply (P_prompt q ab).
  - split; [done|]. by intros ? [= <-].
Qed.

Lemma questions_run lines : ∀ st,
  Forall Q (all_questions (Builder.secs st)) →
  (∀ q, Builder.cur st = Some q → P q) →
  Forall Q (all_questions (Builder.finish (foldl Builder.step st lines))).
Proof.
  induction lines as [|l lines IH]; intros st Hsecs Hcur.
  { by apply questions_commit_flush. }
  simpl. destruct (questions_step st l Hsecs Hcur). by apply IH.
Qed.

Lemma parse_questions text :
  Forall Q (all_questions (parse_markdown text)).
Proof.
  rewrite parse_markdown_builder. apply questions_run; [constructor|done].
Qed.

End question_invariant.

Section fields.
Import Parser_spec Fields.

Lemma rstrip_rstrip s : Str.rstrip (Str.rstrip s) = Str.rstrip s.
Proof.
  induction s as [|c s IH]; [done|]. simpl.
  destruct (Str.rstrip s) as [|x r] eqn:E.
  - destruct (Char.is_space c) eqn:Hc; [done|]. simpl. by rewrite Hc.
  - simpl. simpl in IH. by rewrite IH.
Qed.

Lemma lstrip_head s :
  match Str.lstrip s with
  | "" => True
  | String c _ => Char.is_space c = false
  end.
Proof.
  induction s as [|c s IH]; [done|]. simpl.
  by destruct (Char.is_space c) eqn:Hc.
Qed.

Lemma rstrip_head c s :
  Char.is_space c = false → ∃ r, Str.rstrip (String c s) = String c r.
Proof.
  intros Hc. simpl. destruct (Str.rstrip s); rewrite ?Hc; eauto.
Qed.

Lemma strip_stripped s : stripped (Str.strip s).
Proof.
  unfold stripped, Str.strip.
  pose proof (lstrip_head s) as Hh.
  destruct (Str.lstrip s) as [|c r]; [done|].
  destruct (rstrip_head c r Hh) as [r' Hr]. rewrite Hr.
  change (Str.lstrip (String c r')) with
    (if Char.is_space c then Str.lstrip r' else String c r').
  rewrite Hh, <-Hr. apply rstrip_rstrip.
Qed.

Lemma outline_titles lines :
  Forall (λ e : Outline.entry, stripped e.1.2) (Outline.sections lines).
Proof.
  induction lines as [|l lines IH]; [constructor|]. simpl.
  destruct (Re.section_header l) as [[d t]|]; [|done].
  constructor; [apply strip_stripped|done].
Qed.

(** X9.  The texts of the parsed document carry no white space at either
    end: the title of every section, and the title, the description and
    every answer of every question. *)
Theorem parse_stripped (text : string) :
  Forall (λ s, stripped (sec_title s)) (parse_markdown text) ∧
  Forall (λ q, stripped (q_title q) ∧ stripped (description q) ∧
               Forall stripped (answers q))
         (all_questions (parse_markdown text)).
Proof.
  split.
  - pose proof (outline_titles (Str.lines text)) as H.
    rewrite <-outline_of_parse, Forall_fmap in H.
    eapply Forall_impl; [exact H|]. by intros [i t qs].
  - apply (parse_questions
             (λ q, stripped (q_title q) ∧ Forall stripped (answers q))).
    + intros line qid t _. split; [apply strip_stripped|constructor].
    + intros q buf [Ht Ha]. split; [done|]. simpl.
      apply Forall_app. split; [done|]. constructor; [apply strip_stripped|constructor].
    + intros q buf line [Ht Ha] _. split; [done|]. simpl.
      apply Forall_app. split; [done|]. constructor; [apply strip_stripped|constructor].
    + intros q body [Ht Ha]. split_and!; [done|apply strip_stripped|done].
Qed.

(** X10.  A sub-prompt is recorded only where it ends an answer slot: a
    question has at most as many sub-prompts as answers, and each is a
    line of the sub-prompt shape. *)
Theorem parse_sub_prompts (text : string) :
  Forall (λ q, length (sub_prompts q) ≤ length (answers q) ∧
               Forall (λ l, Re.sub_prompt l = true) (sub_prompts q))
         (all_questions (parse_markdown text)).
Proof.
  apply (parse_questions
           (λ q, length (sub_prompts q) ≤ length (answers q) ∧
                 Forall (λ l, Re.sub_prompt l = true) (sub_prompts q))).
  - intros line qid t _. split; [done|constructor].
  - intros q buf [Hl Hp]. split; [|done]. simpl. rewrite length_app. lia.
  - intros q buf line [Hl Hp] Hline. simpl. split.
    + rewrite !length_app. simpl. lia.
    + apply Forall_app. split; [done|]. by repeat constructor.
  - by intros q body [Hl Hp].
Qed.

Lemma lower_is_lower c : Char.is_letter c = true → Char.is_lower (Char.lower c) = true.
Proof.
  destruct c as [[] [] [] [] [] [] [] []]; vm_compute; congruence.
Qed.

Lemma paren_letter_letter s c r :
  Re.paren_letter s = Some (c, r) → Char.is_letter c = true.
Proof.
  unfold Re.paren_letter. destruct (Str.after "(" s) as [[|x r']|]; try done.
  cbn -[Str.after]. destruct (Char.is_letter x) eqn:Hx; [|done].
  destruct (Str.after ")" r'); [|done]. cbn. by intros [= <- _].
Qed.

Lemma bold_option_letter l c g2 g3 :
  Re.bold_option l = Some (c, g2, g3) → Char.is_letter c = true.
Proof.
  unfold Re.bold_option. destruct (Str.after "- **" l) as [r|]; [|done].
  cbn -[Str.after]. destruct (Re.paren_letter r) as [[c' r']|] eqn:Hp; [|done].
  cbn -[Str.after]. destruct (Re.ws_then Re.lazy_bold r') as [[g g']|]; [|done].
  cbn. intros [= <- _ _]. by eapply paren_letter_letter.
Qed.

Lemma plain_option_letter l c g2 :
  Re.plain_option l = Some (c, g2) → Char.is_letter c = true.
Proof.
  unfold Re.plain_option. destruct (Str.after "- " l) as [r|]; [|done].
  cbn -[Str.after]. destruct (Re.paren_letter r) as [[c' r']|] eqn:Hp; [|done].
  cbn -[Str.after]. destruct (Re.ws_then Re.dot_plus r') as [g|]; [|done].
  cbn. intros [= <- _]. by eapply paren_letter_letter.
Qed.

Lemma classify_lower l o : classify l = Some o → lower_letter (opt_id o).
Proof.
  unfold classify.
  destruct (Re.bold_option l) as [[[c g2] g3]|] eqn:Hb.
  { intros [= <-]. eexists. split; [done|].
    apply lower_is_lower. by eapply bold_option_letter. }
  destruct (Re.plain_option l) as [[c g2]|] eqn:Hp; [|done].
  intros [= <-]. eexists. split; [done|].
  apply lower_is_lower. by eapply plain_option_letter.
Qed.

(** X11.  The id of every option of the parsed document is one
    lower-case letter, whatever the case of the letter in the text. *)
Theorem parse_option_ids (text : string) :
  Forall (λ q, Forall (λ o, lower_letter (opt_id o)) (options q))
         (all_questions (parse_markdown text)).
Proof.
  eapply Forall_impl; [apply (parse_classified (Str.lines text))|].
  intros q (body & _ & -> & _).
  apply Forall_forall. intros o (l & _ & Hl)%list_elem_of_omap.
  by apply (classify_lower l).
Qed.

End fields.

(** ** The rewriter keeps the outline *)

Section save_outline.
Import Parser_spec Saver Saver_spec Outline.

Lemma outline_plain line rest :
  not_header line →
  heads (line :: rest) = heads rest ∧ sections (line :: rest) = sections rest.
Proof. intros [Hs Hq]. simpl. by rewrite Hs, Hq. Qed.

Lemma outline_skip l rest :
  Forall not_header l →
  heads (l ++ rest) = heads rest ∧ sections (l ++ rest) = sections rest.
Proof.
  induction 1 as [|x l Hx _ [IH1 IH2]]; [done|].
  rewrite <-app_comm_cons. destruct (outline_plain x (l ++ rest) Hx) as [-> ->].
  done.
Qed.

Lemma outline_cons line r1 r2 :
  heads r1 = heads r2 → sections r1 = sections r2 →
  heads (line :: r1) = heads (line :: r2) ∧
  sections (line :: r1) = sections (line :: r2).
Proof. intros H1 H2. simpl. by rewrite H1, H2. Qed.

Lemma not_boundary_not_header line :
  is_boundary line = false → not_header line.
Proof.
  intros Hb. split.
  - destruct (Re.section_header line) as [x|] eqn:E; [|done].
    unfold Re.section_header in E.
    destruct (Str.after "## " line) as [r|] eqn:Ea; [|done].
    apply after_startswith in Ea. unfold is_boundary in Hb.
    rewrite Ea in Hb. by rewrite orb_true_r in Hb.
  - destruct (Re.question_header line) as [[q t]|] eqn:E; [|done].
    destruct (question_header_id _ _ _ E) as (Hid & _).
    apply question_id_is_boundary in Hid. congruence.
Qed.

Lemma loop_outline answers lines :
  (∀ k a, answers !! k = Some a → Str.nonempty (Str.strip a) = true →
          Forall not_header (Str.lines a)) →
  Forall single_line lines →
  ∀ q i,
    heads (loop answers q i lines ≫= Str.lines) = heads lines ∧
    sections (loop answers q i lines ≫= Str.lines) = sections lines.
Proof.
  intros Hans.
  induction lines as [|line rest Hm IH|marker rest Hm IH] using saver_ind;
    intros Hs q i; [done|..].
  - inversion Hs as [|?? Hl Hr]; subst.
    rewrite loop_keep, bind_lines_cons by done.
    destruct (IH Hr (advance (q, i) line).1 (advance (q, i) line).2).
    by apply outline_cons.
  - inversion Hs as [|?? Hl Hr]; subst.
    assert (Forall single_line (skip_old rest)) as Hs'.
    { rewrite <-(skipped_skip_old rest) in Hr. by apply Forall_app in Hr as [_ ?]. }
    rewrite loop_marker, bind_lines_cons by done.
    rewrite bind_app, bind_lines_cons by reflexivity.
    destruct (IH Hs' q (S i)) as [IH1 IH2].
    assert (Forall not_header (new_answer answers (slot_key q i) ≫= Str.lines))
      as Hnew.
    { unfold new_answer. destruct (slot_key q i) as [k|]; [|constructor].
      destruct (answers !! k) as [a|] eqn:Ha; [|constructor].
      destruct (Str.nonempty (Str.strip a)) eqn:Hne; [|constructor].
      simpl. rewrite app_nil_r. eauto. }
    assert (Forall not_header (skipped rest)) as Hold.
    { eapply Forall_impl; [apply skipped_not_boundary|].
      apply not_boundary_not_header. }
    rewrite <-(skipped_skip_old rest) at 2 4.
    apply outline_cons.
    + destruct (outline_skip _ ("" :: loop answers q (S i) (skip_old rest) ≫= Str.lines)
                  Hnew) as [-> _].
      destruct (outline_skip _ (skip_old rest) Hold) as [-> _].
      destruct (outline_plain "" (loop answers q (S i) (skip_old rest) ≫= Str.lines))
        as [-> _]; [by split|]. done.
    + destruct (outline_skip _ ("" :: loop answers q (S i) (skip_old rest) ≫= Str.lines)
                  Hnew) as [_ ->].
      destruct (outline_skip _ (skip_old rest) Hold) as [_ ->].
      destruct (outline_plain "" (loop answers q (S i) (skip_old rest) ≫= Str.lines))
        as [_ ->]; [by split|]. done.
Qed.



End save_outline.

(** ** The parser: the table of a question *)

Section table.
Import Fields Table_spec.

Lemma seen_step a l :
  (Body.table_headers a = None → Body.table_rows a = []) →
  seen (Body.step a l) = seen a ++ (if is_row l then [Body.cells l] else []) ∧
  (Body.table_headers (Body.step a l) = None → Body.table_rows (Body.step a l) = []).
Proof.
  intros Ha. unfold Body.step, is_row, seen.
  destruct (Re.bold_option l) as [[[c g2] g3]|].
  { cbn. split; [|done]. by rewrite app_nil_r. }
  destruct (Re.plain_option l) as [[c g2]|].
  { cbn. split; [|done]. by rewrite app_nil_r. }
  rewrite !bool_decide_true by done. cbn [andb].
  destruct (Str.startswith "|" (Str.strip l)).
  2:{ cbn [andb]. destruct (Str.nonempty (Str.strip l)); cbn;
        (split; [|done]); by rewrite app_nil_r. }
  cbn [andb]. destruct (forallb Re.separator_cell (Body.cells l)).
  { cbn. split; [|done]. by rewrite app_nil_r. }
  cbn [negb]. destruct (Body.table_headers a) as [h|] eqn:Hh; cbn.
  - by split.
  - split; [|done]. by rewrite Ha.
Qed.

Lemma seen_run lines : ∀ a,
  (Body.table_headers a = None → Body.table_rows a = []) →
  seen (foldl Body.step a lines) = seen a ++ rows_of lines.
Proof.
  unfold rows_of.
  induction lines as [|l lines IH]; intros a Ha.
  { simpl. by rewrite app_nil_r. }
  simpl foldl. destruct (seen_step a l Ha) as [Hs Ha'].
  rewrite IH, Hs, <-app_assoc by done. f_equal. simpl.
  by destruct (is_row l).
Qed.

Lemma rows_of_rows lines :
  Forall (λ r, r ≠ [] ∧ forallb Re.separator_cell r = false) (rows_of lines).
Proof.
  unfold rows_of. apply Forall_fmap, Forall_forall.
  intros l [_ Hl]%list_elem_of_In%filter_In. unfold is_row in Hl.
  apply andb_true_iff in Hl as [_ Hl]. apply negb_true_iff in Hl.
  simpl. split; [|done]. intros Hnil. by rewrite Hnil in Hl.
Qed.

(** X12.  The table of a question is made of the body lines that are
    rows: the first gives the header cells, the others the rows, in
    order.  Lines whose cells are all separator cells are left out, so a
    table has a header with at least one cell, and no separator row; with
    no row among the lines the table is left as it was. *)
Theorem process_body_table (q : question) (lines : list string) :
  q_table (_process_body q lines) =
    match rows_of lines with
    | [] => q_table q
    | h :: rs => Some (Table h rs)
    end ∧
  Forall (λ r, r ≠ [] ∧ forallb Re.separator_cell r = false) (rows_of lines).
Proof.
  split; [|apply rows_of_rows].
  pose proof (seen_run lines Body.init (λ _, eq_refl)) as Hseen.
  pose proof (rows_of_rows lines) as Hrows.
  unfold _process_body, Body.finish, Body.run. simpl.
  unfold seen in Hseen. simpl in Hseen.
  destruct (Body.table_headers (foldl Body.step Body.init lines)) as [h|].
  - rewrite <-Hseen in *. inversion Hrows as [|?? [Hh _] _]; subst.
    by destruct h.
  - by rewrite <-Hseen.
Qed.

End table.

(** ** The migrator: the blocks of the source *)

Section raw_blocks.
Import Raw Raw_spec Fields Saver_spec.

Lemma keys_set {V} k (v : V) d :
  Dict.keys (Dict.set k v d) =
  if bool_decide (k ∈ Dict.keys d) then Dict.keys d else Dict.keys d ++ [k].
Proof.
  unfold Dict.keys. induction d as [|[k' v'] d IH]; [done|].
  cbn [Dict.set]. destruct (decide (k = k')) as [->|Hne].
  - rewrite !fmap_cons. cbn [fst]. rewrite bool_decide_true; [done|by left].
  - rewrite !fmap_cons. cbn [fst]. rewrite IH. case_bool_decide as Hin.
    + rewrite bool_decide_true; [done|by right].
    + rewrite bool_decide_false; [done|].
      intros [?|?]%elem_of_cons; done.
Qed.

Lemma keys_set_body k b d : Dict.keys (set_body k b d) = Dict.keys d.
Proof.
  unfold set_body. destruct (Dict.get k d) as [blk|] eqn:Hget; [|done].
  rewrite keys_set. case_bool_decide as Hin; [done|].
  destruct Hin. apply keys_get. by rewrite Hget.
Qed.

Lemma keys_flush st : Dict.keys (blocks (flush st)) = Dict.keys (blocks st).
Proof.
  unfold flush. destruct (cur_id st); [|done]. apply keys_set_body.
Qed.

Lemma keys_step st line :
  Dict.keys (blocks (step st line)) =
  match Re.question_header line with
  | Some (qid, _) =>
      if bool_decide (qid ∈ Dict.keys (blocks st))
      then Dict.keys (blocks st) else Dict.keys (blocks st) ++ [qid]
  | None => Dict.keys (blocks st)
  end.
Proof.
  unfold step. destruct (Re.question_header line) as [[qid t]|].
  - simpl. by rewrite keys_set, keys_flush.
  - destruct (Re.raw_section line); [apply keys_flush|].
    by destruct (cur_id st).
Qed.

Lemma keys_run lines : ∀ st,
  Dict.keys (blocks (foldl step st lines)) =
  foldl (λ acc k, if bool_decide (k ∈ acc) then acc else acc ++ [k])
        (Dict.keys (blocks st)) (header_ids lines).
Proof.
  unfold header_ids.
  induction lines as [|l lines IH]; intros st; [done|].
  simpl foldl. rewrite IH, keys_step.
  cbn [omap list_omap]. by destruct (Re.question_header l) as [[qid t]|].
Qed.

Lemma first_seen_nodup (ids : list string) : ∀ acc,
  NoDup acc →
  NoDup (foldl (λ acc k, if bool_decide (k ∈ acc) then acc else acc ++ [k]) acc ids).
Proof.
  induction ids as [|k ids IH]; intros acc Hacc; [done|].
  simpl. apply IH. case_bool_decide; [done|].
  apply NoDup_app. split_and!; [done| |apply NoDup_singleton].
  intros x Hx ->%list_elem_of_singleton. done.
Qed.

Lemma first_seen_elem (ids : list string) : ∀ acc k,
  k ∈ foldl (λ acc k, if bool_decide (k ∈ acc) then acc else acc ++ [k]) acc ids
  ↔ k ∈ acc ∨ k ∈ ids.
Proof.
  induction ids as [|x ids IH]; intros acc k; simpl.
  { split; [by left|]. intros [?|?%elem_of_nil]; done. }
  rewrite IH. case_bool_decide as Hx.
  - split; [intros [?|?]; [by left|right; by right]|].
    intros [?|[->|?]%elem_of_cons]; auto.
  - rewrite elem_of_app, list_elem_of_singleton.
    split; [intros [[?| ->]|?]; auto; right; by constructor|].
    intros [?|[->|?]%elem_of_cons]; auto.
Qed.

(** X13.  The keys of the blocks [parse_raw] returns are the ids of the
    question headers of the text, each once, in the order in which they
    are first met. *)
Theorem parse_raw_keys (text : string) :
  Dict.keys (parse_raw text) = first_seen (header_ids (Str.lines text)) ∧
  NoDup (Dict.keys (parse_raw text)) ∧
  (∀ k, k ∈ Dict.keys (parse_raw text) ↔
        ∃ line t, line ∈ Str.lines text ∧ Re.question_header line = Some (k, t)).
Proof.
  assert (Dict.keys (parse_raw text) = first_seen (header_ids (Str.lines text)))
    as Hkeys.
  { unfold parse_raw. by rewrite keys_flush, keys_run. }
  split; [done|]. rewrite Hkeys. split.
  - apply first_seen_nodup. constructor.
  - intros k. unfold first_seen. rewrite first_seen_elem.
    unfold header_ids. rewrite list_elem_of_omap. split.
    + intros [?%elem_of_nil|(line & Hl & Hq)]; [done|].
      destruct (Re.question_header line) as [[k' t]|] eqn:E; [|done].
      simpl in Hq. injection Hq as ->. eauto.
    + intros (line & t & Hl & Hq). right. exists line. by rewrite Hq.
Qed.

End raw_blocks.

(** ** The migrator: what holds of every block *)

Section raw_well_formed.
Import Raw Raw_spec Fields Saver_spec Gen_spec.

Lemma single_line_contains s :
  single_line s ↔ Str.contains Char.newline s = false.
Proof.
  unfold single_line, Str.lines.
  induction s as [|c s IH]; [done|]. simpl.
  destruct (decide (c = Char.newline)) as [->|Hc].
  - rewrite decide_True by done. split; [by intros [=]|done].
  - rewrite decide_False by done. rewrite <-IH.
    pose proof (split_not_nil Char.newline s).
    destruct (Str.split Char.newline s) as [|h t]; [done|].
    split; [by intros [= -> ->]|by intros [= -> ->]].
Qed.

Lemma contains_app c s1 s2 :
  Str.contains c (s1 +:+ s2) = Str.contains c s1 || Str.contains c s2.
Proof.
  induction s1 as [|x s1 IH]; [done|].
  change (String x s1 +:+ s2) with (String x (s1 +:+ s2)). simpl.
  by destruct (decide (c = x)).
Qed.

Lemma span_spec p s a b :
  Str.span p s = (a, b) →
  s = a +:+ b ∧ (∀ c, Str.contains c a = true → p c = true).
Proof.
  revert a b. induction s as [|x s IH]; intros a b; simpl.
  { intros [= <- <-]. by split. }
  destruct (p x) eqn:Hx.
  - destruct (Str.span p s) as [a' b']. intros [= <- <-].
    destruct (IH a' b' eq_refl) as [-> Ha]. split; [done|].
    intros c. simpl. destruct (decide (c = x)) as [->|]; auto.
  - intros [= <- <-]. by split.
Qed.

Lemma dot_star_single s : single_line (Re.dot_star s).
Proof.
  apply single_line_contains. unfold Re.dot_star.
  destruct (Str.span _ s) as [a b] eqn:E. simpl.
  destruct (span_spec _ _ _ _ E) as [_ Ha].
  destruct (Str.contains Char.newline a) eqn:Hc; [|done].
  by apply Ha in Hc.
Qed.

Lemma lstrip_contains c s :
  Str.contains c s = false → Str.contains c (Str.lstrip s) = false.
Proof.
  induction s as [|x s IH]; [done|]. simpl.
  destruct (decide (c = x)); [done|]. intros Hs.
  destruct (Char.is_space x); [auto|]. simpl. by rewrite decide_False.
Qed.

Lemma rstrip_contains c s :
  Str.contains c s = false → Str.contains c (Str.rstrip s) = false.
Proof.
  induction s as [|x s IH]; [done|]. simpl.
  destruct (decide (c = x)) as [|Hne]; [done|]. intros Hs.
  specialize (IH Hs).
  destruct (Str.rstrip s) as [|y r].
  - destruct (Char.is_space x); [done|]. simpl. by rewrite decide_False.
  - simpl. rewrite decide_False by done. exact IH.
Qed.

Lemma strip_single s : single_line s → single_line (Str.strip s).
Proof.
  rewrite !single_line_contains. intros H.
  by apply rstrip_contains, lstrip_contains.
Qed.

Lemma digits1_spec r d r' :
  Re.digits1 r = Some (d, r') →
  r = d +:+ r' ∧ all_digits d = true ∧ d ≠ "".
Proof.
  unfold Re.digits1. destruct (Str.span Char.is_digit r) as [a b] eqn:E.
  destruct (span_spec _ _ _ _ E) as [-> Ha].
  destruct a as [|x a]; [done|]. intros [= <- <-]. split_and!; [done| |done].
  clear E. induction (String x a) as [|y s IH]; [done|]. simpl.
  rewrite (Ha y) by (simpl; by rewrite decide_True). simpl.
  apply IH. intros c Hc. apply Ha. simpl. rewrite Hc. by destruct (decide (c = y)).
Qed.

Lemma split_digits d : all_digits d = true → Str.split "." d = [d].
Proof.
  induction d as [|c d IH]; [done|]. simpl.
  intros [Hc Hd]%andb_true_iff. rewrite IH by done.
  destruct (decide (c = "."%char)) as [->|]; [done|done].
Qed.

Lemma dotted_intro d1 d2 :
  all_digits d1 = true → all_digits d2 = true → d1 ≠ "" → d2 ≠ "" →
  dotted (d1 +:+ "." +:+ d2).
Proof.
  intros H1 H2 N1 N2. exists d1, d2. split_and!; try done.
  change ("." +:+ d2) with (String "."%char d2).
  by rewrite split_app_sep, !split_digits.
Qed.

(** What the pattern of a question header matches. *)
Lemma question_header_parts line qid t :
  Re.question_header line = Some (qid, t) →
  dotted qid ∧ single_line t ∧ t ≠ "".
Proof.
  unfold Re.question_header.
  destruct (Str.after "### " line) as [r|]; [|done].
  cbn -[Str.after Re.digits1 Re.dot_plus String.append].
  destruct (Re.digits1 r) as [[d1 r1]|] eqn:Hd1; [|done].
  cbn -[Str.after Re.digits1 Re.dot_plus String.append].
  destruct (Str.after "." r1) as [r2|]; [|done].
  cbn -[Str.after Re.digits1 Re.dot_plus String.append].
  destruct (Re.digits1 r2) as [[d2 r3]|] eqn:Hd2; [|done].
  cbn -[Str.after Re.digits1 Re.dot_plus String.append].
  destruct (Str.after " " r3) as [r4|]; [|done].
  cbn -[Str.after Re.digits1 Re.dot_plus String.append].
  unfold Re.dot_plus.
  destruct (Str.nonempty (Re.dot_star r4)) eqn:Hne; [|done].
  cbn -[String.append]. intros [= <- <-].
  destruct (digits1_spec _ _ _ Hd1) as (_ & ? & ?).
  destruct (digits1_spec _ _ _ Hd2) as (_ & ? & ?).
  split_and!; [by apply dotted_intro|apply dot_star_single|].
  by destruct (Re.dot_star r4).
Qed.

Lemma bind_single_lines l : Forall single_line l → l ≫= Str.lines = l.
Proof.
  induction 1 as [|x l Hx _ IH]; [done|].
  by rewrite bind_lines_cons, IH.
Qed.

Lemma trim_end_prefix l : ∃ r, l = trim_end l ++ r ∧ Forall (λ x, blank_or_divider x = true) r.
Proof.
  induction l as [|x l (r & Hl & Hr)]; [by exists []|]. simpl.
  destruct (trim_end l) as [|y t] eqn:E.
  - destruct (blank_or_divider x) eqn:Hx.
    + exists (x :: l). split; [done|]. simpl in Hl. subst r. by constructor.
    + exists l. split; [done|]. simpl in Hl. by subst r.
  - exists r. split; [|done]. simpl. by rewrite Hl at 1.
Qed.

Lemma trim_end_app_blank l r :
  Forall (λ x, blank_or_divider x = true) r → trim_end (l ++ r) = trim_end l.
Proof.
  intros Hr. induction l as [|x l IH]; simpl.
  - induction Hr as [|y r Hy _ IH]; [done|]. simpl. by rewrite IH, Hy.
  - by rewrite IH.
Qed.

Lemma trim_end_idem l : trim_end (trim_end l) = trim_end l.
Proof.
  induction l as [|x l IH]; [done|]. simpl.
  destruct (trim_end l) as [|y t] eqn:E.
  - destruct (blank_or_divider x) eqn:Hx; [done|]. simpl. by rewrite Hx.
  - simpl. simpl in IH. by rewrite IH.
Qed.

Lemma trim_end_last l x :
  blank_or_divider x = false → trim_end (l ++ [x]) = l ++ [x].
Proof.
  intros Hx. induction l as [|y l IH]; simpl; [by rewrite Hx|].
  rewrite IH. by destruct l.
Qed.

(** The body [flush] writes for the lines collected. *)
Lemma flushed_body l :
  Forall single_line l → Forall body_line l →
  trimmed (Str.unlines (trim_end l)) ∧
  Forall body_line (Str.lines (Str.unlines (trim_end l))).
Proof.
  intros Hs Hb. destruct (trim_end_prefix l) as (r & Hl & _).
  assert (Forall single_line (trim_end l) ∧ Forall body_line (trim_end l))
    as [Hs' Hb'].
  { rewrite Hl in Hs, Hb. by apply Forall_app in Hs as [? _], Hb as [? _]. }
  unfold trimmed.
  destruct (trim_end l) as [|y t] eqn:E.
  { split; [done|]. by repeat constructor. }
  rewrite lines_unlines, bind_single_lines by done.
  by rewrite <-E, trim_end_idem, E.
Qed.

Lemma elem_of_set {V} k (v : V) d x :
  x ∈ Dict.set k v d → x = (k, v) ∨ x ∈ d.
Proof.
  induction d as [|[k' v'] d IH]; simpl.
  - intros ->%list_elem_of_singleton. by left.
  - destruct (decide (k = k')) as [->|].
    + intros [->|?]%elem_of_cons; [by left|]. right. by right.
    + intros [->|[?|?]%IH]%elem_of_cons; auto; right; by constructor.
Qed.

Lemma elem_of_get {V} k (v : V) d : Dict.get k d = Some v → (k, v) ∈ d.
Proof.
  induction d as [|[k' v'] d IH]; [done|]. simpl.
  destruct (decide (k = k')) as [->|]; [intros [= ->]; by left|].
  intros ?. right. auto.
Qed.

Lemma get_set {V} k k' (v : V) d :
  Dict.get k (Dict.set k' v d) = if decide (k = k') then Some v else Dict.get k d.
Proof.
  induction d as [|[k0 v0] d IH]; simpl.
  - by destruct (decide (k = k')).
  - destruct (decide (k' = k0)) as [->|Hne]; simpl.
    + by destruct (decide (k = k0)).
    + destruct (decide (k = k0)) as [->|]; [by rewrite decide_False|done].
Qed.

Lemma get_set_body k k' b d :
  Dict.get k (set_body k' b d) =
  if decide (k = k') then (λ blk, Block (title blk) b) <$> Dict.get k d
  else Dict.get k d.
Proof.
  unfold set_body. destruct (Dict.get k' d) as [blk|] eqn:Hget.
  - rewrite get_set. destruct (decide (k = k')) as [->|]; [by rewrite Hget|done].
  - destruct (decide (k = k')) as [->|]; [by rewrite Hget|done].
Qed.

Lemma well_formed_flush st :
  (∀ k b, (k, b) ∈ blocks st → well_formed k b) →
  Forall single_line (lines st) → Forall body_line (lines st) →
  ∀ k b, (k, b) ∈ blocks (flush st) → well_formed k b.
Proof.
  intros Hwf Hs Hb k b. unfold flush.
  destruct (cur_id st) as [k0|]; [|apply Hwf]. simpl. unfold set_body.
  destruct (Dict.get k0 (blocks st)) as [blk|] eqn:Hget; [|apply Hwf].
  intros [[= -> ->]|?]%elem_of_set; [|by apply Hwf].
  destruct (Hwf _ _ (elem_of_get _ _ _ Hget)) as (? & ? & ? & _).
  destruct (flushed_body _ Hs Hb). by split_and!.
Qed.

Lemma well_formed_step st line :
  single_line line →
  (∀ k b, (k, b) ∈ blocks st → well_formed k b) →
  Forall single_line (lines st) → Forall body_line (lines st) →
  (∀ k b, (k, b) ∈ blocks (step st line) → well_formed k b) ∧
  Forall single_line (lines (step st line)) ∧
  Forall body_line (lines (step st line)).
Proof.
  intros Hl Hwf Hs Hb. pose proof (well_formed_flush st Hwf Hs Hb) as Hf.
  unfold step.
  destruct (Re.question_header line) as [[qid t]|] eqn:Hq.
  { simpl. split_and!; [|constructor..].
    intros k b [[= -> ->]|?]%elem_of_set; [|by apply Hf].
    destruct (question_header_parts _ _ _ Hq) as (? & ? & _).
    split_and!; [done|apply strip_stripped|by apply strip_single|done|].
    by repeat constructor. }
  destruct (Re.raw_section line) eqn:Hr.
  { split_and!; [done|..]; unfold flush; destruct (cur_id st); simpl;
      first [done|constructor]. }
  destruct (cur_id st); [|done]. simpl.
  split_and!; [done|..]; apply Forall_app; split; try done;
    by repeat constructor.
Qed.

Lemma well_formed_run l : ∀ st,
  Forall single_line l →
  (∀ k b, (k, b) ∈ blocks st → well_formed k b) →
  Forall single_line (lines st) → Forall body_line (lines st) →
  ∀ k b, (k, b) ∈ blocks (flush (foldl step st l)) → well_formed k b.
Proof.
  induction l as [|x l IH]; intros st Hl Hwf Hs Hb.
  { by apply well_formed_flush. }
  inversion Hl; subst. simpl.
  destruct (well_formed_step st x) as (? & ? & ?); [done..|]. by apply IH.
Qed.

Lemma parse_raw_blocks text :
  ∀ k b, (k, b) ∈ parse_raw text → well_formed k b.
Proof.
  apply well_formed_run; [apply lines_single_line| |constructor..].
  by intros k b ?%elem_of_nil.
Qed.

(** X14.  What holds of every block [parse_raw] returns: its key has
    the form digits, dot, digits; its title is one line with no white
    space at either end; its body does not end in blank or divider
    lines, and no line of it is a question header or a section header. *)
Theorem parse_raw_well_formed (text : string) (k : string) (b : block) :
  Dict.get k (parse_raw text) = Some b →
  dotted k ∧
  stripped (title b) ∧ single_line (title b) ∧
  trimmed (body b) ∧ Forall body_line (Str.lines (body b)).
Proof. intros H%elem_of_get. by apply (parse_raw_blocks text). Qed.

Lemma feed_body blk : ∀ st k,
  cur_id st = Some k → Forall body_line blk →
  foldl step st blk = State (blocks st) (Some k) (lines st ++ blk).
Proof.
  induction blk as [|l blk IH]; intros st k Hk Hb.
  { simpl. rewrite app_nil_r. destruct st. simpl in *. by subst. }
  inversion Hb as [|?? [Hq Hr] Hb']; subst. simpl.
  assert (step st l = State (blocks st) (Some k) (lines st ++ [l])) as ->.
  { unfold step. by rewrite Hq, Hr, Hk. }
  rewrite (IH _ k) by done. simpl. by rewrite <-app_assoc.
Qed.

Lemma parse_raw_well_formed_witness :
  let text := Str.unlines
    ["## 1. Scope"; "### 1.1  Which one? "; "Some text."; ""; "---"; ""] in
  let b := Block "Which one?" "Some text." in
  Dict.get "1.1" (parse_raw text) = Some b ∧
  Raw_spec.dotted "1.1" ∧
  Fields.stripped (title b) ∧ Saver_spec.single_line (title b) ∧
  Raw_spec.trimmed (body b) ∧ Forall Raw_spec.body_line (Str.lines (body b)).
Proof.
  intros text b. split; [reflexivity|].
  apply (parse_raw_well_formed text "1.1" b). reflexivity.
Defined.

Lemma get_flush st k :
  cur_id st ≠ Some k → Dict.get k (blocks (flush st)) = Dict.get k (blocks st).
Proof.
  intros Hk. unfold flush. destruct (cur_id st) as [k0|]; [|done]. simpl.
  rewrite get_set_body. destruct (decide (k = k0)) as [->|]; done.
Qed.

Lemma get_step st k line :
  cur_id st ≠ Some k →
  (∀ t, Re.question_header line ≠ Some (k, t)) →
  Dict.get k (blocks (step st line)) = Dict.get k (blocks st) ∧
  cur_id (step st line) ≠ Some k.
Proof.
  intros Hk Hl. unfold step.
  destruct (Re.question_header line) as [[qid t]|] eqn:Hq.
  { simpl. rewrite get_set.
    destruct (decide (k = qid)) as [->|Hne]; [by destruct (Hl t)|].
    split; [by apply get_flush|congruence]. }
  destruct (Re.raw_section line).
  { split; [by apply get_flush|]. unfold flush.
    destruct (cur_id st) eqn:E; [done|by rewrite E]. }
  destruct (cur_id st) eqn:E; [|by rewrite E]. by simpl.
Qed.

Lemma get_run l : ∀ st k,
  cur_id st ≠ Some k → k ∉ header_ids l →
  Dict.get k (blocks (flush (foldl step st l))) = Dict.get k (blocks st).
Proof.
  induction l as [|x l IH]; intros st k Hk Hl.
  { by apply get_flush. }
  simpl. unfold header_ids in Hl. cbn [omap list_omap] in Hl.
  destruct (get_step st k x Hk) as [Hg Hc].
  { intros t Hq. rewrite Hq in Hl. apply Hl. by left. }
  rewrite IH, Hg; [done|done|].
  destruct (Re.question_header x) as [[??]|]; [|done].
  intros ?. apply Hl. by right.
Qed.

(** X15.  The block of an id is the text under the last header with
    that id: its title is the stripped title of that header and its body
    the lines from there to the next question or section header, or the
    end of the text, without the blank and divider lines at their end. *)
Theorem parse_raw_lookup (text : string) (pre : list string) (hdr : string)
    (blk rest : list string) (qid t : string) :
  Str.lines text = pre ++ hdr :: blk ++ rest →
  Re.question_header hdr = Some (qid, t) →
  Forall body_line blk →
  block_end rest →
  qid ∉ header_ids rest →
  Dict.get qid (parse_raw text) =
    Some (Block (Str.strip t) (Str.unlines (trim_end blk))).
Proof.
  intros Hlines Hq Hblk Hend Hrest. unfold parse_raw.
  rewrite Hlines, foldl_app. simpl foldl. rewrite foldl_app.
  set (st0 := foldl step init pre).
  assert (step st0 hdr =
    State (Dict.set qid (Block (Str.strip t) "") (blocks (flush st0))) (Some qid) [])
    as -> by (unfold step; by rewrite Hq).
  rewrite (feed_body blk _ qid) by done. simpl app.
  set (B := Dict.set qid (Block (Str.strip t) "") (blocks (flush st0))).
  assert (Dict.get qid (blocks (flush (State B (Some qid) blk))) =
          Some (Block (Str.strip t) (Str.unlines (trim_end blk)))) as Hflush.
  { unfold flush. simpl. rewrite get_set_body, decide_True by done.
    unfold B. by rewrite get_set, decide_True. }
  destruct rest as [|l rest]; [done|].
  simpl foldl. unfold header_ids in Hrest. cbn [omap list_omap] in Hrest.
  assert (Dict.get qid (blocks (step (State B (Some qid) blk) l)) =
          Some (Block (Str.strip t) (Str.unlines (trim_end blk))) ∧
          cur_id (step (State B (Some qid) blk) l) ≠ Some qid) as [Hg Hc].
  { unfold step. destruct (Re.question_header l) as [[qid' t']|] eqn:Hq'.
    - simpl in Hrest. simpl. rewrite get_set.
      destruct (decide (qid = qid')) as [->|Hne].
      { destruct Hrest. by left. }
      split; [done|congruence].
    - destruct Hend as [[? Hx]|Hr]; [congruence|]. rewrite Hr. split; [done|].
      unfold flush. simpl. done. }
  rewrite get_run; [done|done|].
  destruct (Re.question_header l) as [[??]|]; [|done].
  intros ?. apply Hrest. by right.
Qed.

Lemma parse_raw_lookup_witness :
  let text := Str.unlines
    ["### 1.1 First"; "overwritten";
     "### 1.1  Which one? "; "Some text."; ""; "---"; "";
     "## 2. Next"; "### 2.1 Other"] in
  Dict.get "1.1" (parse_raw text) = Some (Block "Which one?" "Some text.").
Proof.
  intros text.
  refine (parse_raw_lookup text ["### 1.1 First"; "overwritten"]
            "### 1.1  Which one? " ["Some text."; ""; "---"; ""]
            ["## 2. Next"; "### 2.1 Other"] "1.1" " Which one? " _ _ _ _ _).
  - reflexivity.
  - reflexivity.
  - repeat constructor.
  - by right.
  - by vm_compute; intros [=]%list_elem_of_singleton.
Defined.

End raw_well_formed.

(** ** The migrator: the order of the report *)

Section migrator_log_order.
Import Gen Gen_spec Log_spec Reparse.

Lemma key_le_total k1 k2 : key_le k1 k2 = true ∨ key_le k2 k1 = true.
Proof.
  unfold key_le. destruct k1 as [a1 b1], k2 as [a2 b2]. simpl.
  destruct (a1 <? a2)%N eqn:E1; [by left|].
  destruct (a2 <? a1)%N eqn:E2; [by right|].
  apply N.ltb_ge in E1, E2. assert (a1 = a2) as -> by lia.
  rewrite N.eqb_refl. simpl.
  destruct (b1 <=? b2)%N eqn:E3; [by left|right].
  apply N.leb_gt in E3. apply N.leb_le. lia.
Qed.

Lemma key_le_trans k1 k2 k3 :
  key_le k1 k2 = true → key_le k2 k3 = true → key_le k1 k3 = true.
Proof.
  unfold key_le. destruct k1 as [a1 b1], k2 as [a2 b2], k3 as [a3 b3]. simpl.
  rewrite !orb_true_iff, !andb_true_iff, !N.ltb_lt, !N.eqb_eq, !N.leb_le. lia.
Qed.

Lemma insert_sorted_sorted x l :
  StronglySorted key_order l → StronglySorted key_order (insert_sorted x l).
Proof.
  induction 1 as [|y l Hl IH Hy]; simpl; [by repeat constructor|].
  destruct (key_le (sort_key x) (sort_key y)) eqn:E.
  - constructor; [by constructor|]. constructor; [done|].
    eapply Forall_impl; [exact Hy|]. intros z Hz. by eapply key_le_trans.
  - constructor; [done|]. apply Forall_forall.
    intros z [->|Hz]%insert_sorted_elem.
    + unfold key_order. destruct (key_le_total (sort_key y) (sort_key x)); congruence.
    + rewrite Forall_forall in Hy. auto.
Qed.

Lemma sorted_sorted l : StronglySorted key_order (sorted l).
Proof.
  unfold sorted. induction l as [|x l IH]; simpl; [constructor|].
  by apply insert_sorted_sorted.
Qed.

Lemma insert_sorted_perm x l : insert_sorted x l ≡ₚ x :: l.
Proof.
  induction l as [|y l IH]; simpl; [done|].
  destruct (key_le (sort_key x) (sort_key y)); [done|].
  rewrite IH. apply Permutation_swap.
Qed.

Lemma sorted_perm l : sorted l ≡ₚ l.
Proof.
  unfold sorted. induction l as [|x l IH]; simpl; [done|].
  by rewrite insert_sorted_perm, IH.
Qed.

Lemma filter_sorted {A} (R : A → A → Prop) (P : A → Prop)
    `{∀ x, Decision (P x)} l :
  StronglySorted R l → StronglySorted R (filter P l).
Proof.
  induction 1 as [|x l Hl IH Hx]; [constructor|].
  rewrite filter_cons. destruct (decide (P x)); [|done].
  constructor; [done|]. apply Forall_forall.
  intros y [_ Hy]%list_elem_of_filter. rewrite Forall_forall in Hx. auto.
Qed.

Lemma warnings_warned p removed blocks :
  warnings p removed blocks =
  (λ k, warning_line k (title_of blocks k)) <$> warned p removed blocks.
Proof.
  unfold warnings, warned.
  assert (∀ k, k ∈ sorted (Dict.keys blocks) → is_Some (Dict.get k blocks)) as Hk.
  { intros k Hin. by apply keys_get, sorted_elem. }
  induction (sorted (Dict.keys blocks)) as [|k l IH]; [done|].
  cbn [omap list_omap]. rewrite filter_cons.
  rewrite IH by (intros ??; apply Hk; by right).
  destruct (Hk k) as [b Hb]; [by left|].
  destruct (decide ((k ∉ plan_ids p) ∧ (k ∉ removed))) as [[H1 H2]|Hn].
  - rewrite <-all_mapped_elem in H1. rewrite !bool_decide_false by done.
    simpl. unfold title_of. by rewrite Hb.
  - apply not_and_l in Hn as [Hn|Hn]; apply dec_stable in Hn.
    + rewrite <-all_mapped_elem in Hn. by rewrite (bool_decide_true _ Hn).
    + rewrite (bool_decide_true _ Hn). by rewrite orb_true_r.
Qed.

Lemma questions_log blocks sec_idx qids : ∀ k,
  (questions_from blocks sec_idx k qids).2 =
  error_line <$> filter (λ k, Dict.get k blocks = None) qids.
Proof.
  induction qids as [|old_id qids IH]; intros k; [done|].
  simpl. specialize (IH (S k)).
  destruct (questions_from blocks sec_idx (S k) qids) as [out log].
  simpl in IH. rewrite filter_cons.
  destruct (decide (Dict.get old_id blocks = None)) as [Hb|Hb].
  - rewrite Hb. simpl. by rewrite IH.
  - destruct (Dict.get old_id blocks) as [b|]; [done|by destruct Hb].
Qed.

Lemma sections_log blocks p : ∀ k,
  (sections_from blocks k p).2 = error_line <$> lacking p blocks.
Proof.
  unfold lacking, plan_ids.
  induction p as [|[sec_title qids] p IH]; intros k; [done|].
  simpl. specialize (IH (S k)).
  pose proof (questions_log blocks k qids 1) as Hq.
  destruct (questions_from blocks k 1 qids) as [qout qlog].
  destruct (sections_from blocks (S k) p) as [out log].
  simpl in *. by rewrite filter_app, fmap_app, Hq, IH.
Qed.

Lemma sort_key_new_id s k :
  sort_key (new_id s k) = (N.of_nat s, N.of_nat k).
Proof.
  destruct (pretty_nat_digits s) as (Hs & Hs' & Hvs).
  destruct (pretty_nat_digits k) as (Hk & Hk' & Hvk).
  destruct (dotted_intro (pretty s) (pretty k)) as (d1 & d2 & _ & Hsplit & _);
    [done..|].
  unfold sort_key, new_id.
  change ("." +:+ pretty k) with (String "."%char (pretty k)).
  rewrite split_app_sep, !split_digits by done. simpl.
  by rewrite Hvs, Hvk.
Qed.

Lemma key_order_new_id a b c d :
  key_order (new_id a b) (new_id c d) ↔ a < c ∨ (a = c ∧ b ≤ d).
Proof.
  unfold key_order, key_le. rewrite !sort_key_new_id. simpl.
  rewrite orb_true_iff, andb_true_iff, N.ltb_lt, N.eqb_eq, N.leb_le. lia.
Qed.

(** X16.  The order of the report.  The warnings come first, one for
    each id of the source that is in no plan entry and not removed, in
    the order of the numbers the ids are made of (section number, then
    question number, as numbers and not as texts); the errors follow,
    one for each occurrence in the plan of an id the source lacks, in
    plan order. *)
Theorem migrate_log_order (p : plan) (removed : gset string) (text : string) :
  let blocks := parse_raw text in
  (migrate p removed text).2 =
    ((λ k, warning_line k (title_of blocks k)) <$> warned p removed blocks) ++
    (error_line <$> lacking p blocks) ∧
  StronglySorted key_order (warned p removed blocks) ∧
  warned p removed blocks ≡ₚ
    filter (λ k, (k ∉ plan_ids p) ∧ (k ∉ removed)) (Dict.keys blocks) ∧
  (∀ a b c d : nat,
     key_order (new_id a b) (new_id c d) ↔ a < c ∨ (a = c ∧ b ≤ d)).
Proof.
  intros blocks. split_and!.
  - by rewrite migrate_log, warnings_warned, sections_log.
  - apply filter_sorted, sorted_sorted.
  - unfold warned. by rewrite sorted_perm.
  - apply key_order_new_id.
Qed.

End migrator_log_order.

(** ** The migrator: reading a migrated text back *)

Section reparse.
Import Raw Raw_spec Fields Saver_spec Gen Gen_spec Reparse.

Lemma digits_no_newline d :
  all_digits d = true → Str.contains Char.newline d = false.
Proof.
  induction d as [|c d IH]; [done|]. simpl.
  intros [Hc Hd]%andb_true_iff.
  destruct (decide (Char.newline = c)) as [<-|]; [done|auto].
Qed.

Lemma pretty_single (n : nat) : Str.contains Char.newline (pretty n) = false.
Proof. apply digits_no_newline. by destruct (pretty_nat_digits n). Qed.

Lemma section_line_single n t : single_line t → single_line (section_line n t).
Proof.
  rewrite !single_line_contains. intros Ht. unfold section_line.
  by rewrite !contains_app, pretty_single, Ht.
Qed.

Lemma question_line_single s k t : single_line t → single_line (question_line s k t).
Proof.
  rewrite !single_line_contains. intros Ht. unfold question_line.
  by rewrite !contains_app, !pretty_single, Ht.
Qed.

Lemma dot_star_all s : single_line s → Re.dot_star s = s.
Proof.
  rewrite single_line_contains. unfold Re.dot_star.
  induction s as [|c s IH]; [done|]. simpl.
  destruct (decide (Char.newline = c)) as [<-|Hc]; [done|]. intros Hs.
  assert (Char.is_newline c = false) as ->.
  { destruct (Char.is_newline c) eqn:E; [|done]. destruct Hc.
    unfold Char.is_newline, Char.code in E. apply N.eqb_eq in E.
    rewrite <-(ascii_N_embedding c), E. done. }
  simpl. specialize (IH Hs).
  destruct (Str.span _ s) as [a b]. simpl in *. by rewrite IH.
Qed.

Lemma question_line_header s k t :
  single_line t → t ≠ "" →
  Re.question_header (question_line s k t) = Some (new_id s k, t).
Proof.
  intros Ht Hne. unfold Re.question_header, question_line, new_id.
  rewrite after_app. simpl.
  rewrite (digits1_pretty s ("." +:+ pretty k +:+ " " +:+ t)) by done. simpl.
  change ("" +:+ pretty k +:+ " " +:+ t) with (pretty k +:+ " " +:+ t).
  rewrite (digits1_pretty k (" " +:+ t)) by done. simpl.
  unfold Re.dot_plus. rewrite dot_star_all by done.
  by destruct t.
Qed.

Lemma section_line_no_question n t :
  Re.question_header (section_line n t) = None.
Proof. unfold Re.question_header, section_line. done. Qed.

Lemma older_fresh s k (B : list (string * block)) :
  Forall (older s k) (Dict.keys B) → new_id s k ∉ Dict.keys B.
Proof.
  rewrite Forall_forall. intros H Hin. specialize (H _ Hin).
  unfold older in H. rewrite sort_key_new_id in H. simpl in H. lia.
Qed.

Lemma older_next s k (B : list (string * block)) b :
  Forall (older s k) (Dict.keys B) →
  Forall (older s (S k)) (Dict.keys (B ++ [(new_id s k, b)])).
Proof.
  intros H. unfold Dict.keys. rewrite fmap_app. apply Forall_app. split.
  - eapply Forall_impl; [exact H|]. unfold older. intros id. lia.
  - constructor; [|constructor]. unfold older. simpl.
    rewrite sort_key_new_id. simpl. lia.
Qed.

Lemma older_skip s k (B : list (string * block)) :
  Forall (older s k) (Dict.keys B) → Forall (older s (S k)) (Dict.keys B).
Proof.
  intros H. eapply Forall_impl; [exact H|]. unfold older. intros id. lia.
Qed.

Lemma older_section s k (B : list (string * block)) :
  Forall (older s k) (Dict.keys B) → Forall (older (S s) 1) (Dict.keys B).
Proof.
  intros H. eapply Forall_impl; [exact H|]. unfold older. intros id. lia.
Qed.

Lemma set_fresh {V} k (v : V) d :
  k ∉ Dict.keys d → Dict.set k v d = d ++ [(k, v)].
Proof.
  unfold Dict.keys. induction d as [|[k' v'] d IH]; [done|].
  rewrite fmap_cons, not_elem_of_cons. intros [Hne Hin]. simpl.
  rewrite decide_False by done. by rewrite IH.
Qed.

Lemma set_last {V} k (v v' : V) d :
  k ∉ Dict.keys d → Dict.set k v (d ++ [(k, v')]) = d ++ [(k, v)].
Proof.
  unfold Dict.keys. induction d as [|[k0 v0] d IH].
  - intros _. simpl. by rewrite decide_True.
  - rewrite fmap_cons, not_elem_of_cons. intros [Hne Hin]. simpl.
    rewrite decide_False by done. by rewrite IH.
Qed.

Lemma get_last {V} k (v : V) d :
  k ∉ Dict.keys d → Dict.get k (d ++ [(k, v)]) = Some v.
Proof.
  unfold Dict.keys. induction d as [|[k0 v0] d IH].
  - intros _. simpl. by rewrite decide_True.
  - rewrite fmap_cons, not_elem_of_cons. intros [Hne Hin]. simpl.
    rewrite decide_False by done. by apply IH.
Qed.

Lemma flush_open B id blk L :
  id ∉ Dict.keys B →
  flush (State (B ++ [(id, blk)]) (Some id) L) =
  State (B ++ [(id, Block (title blk) (Str.unlines (trim_end L)))]) None [].
Proof.
  intros Hid. unfold flush, set_body. simpl.
  by rewrite get_last, set_last.
Qed.

Lemma trimmed_flush b r :
  trimmed (body b) → Forall (λ x, blank_or_divider x = true) r →
  Block (title b) (Str.unlines (trim_end (Str.lines (body b) ++ r))) = b.
Proof.
  intros Hb Hr. rewrite trim_end_app_blank by done. rewrite Hb. by destruct b.
Qed.

(** Flushing between two questions of the text written. *)
Lemma flush_between st B r :
  closed st B ∨ open st B →
  Forall (λ x, blank_or_divider x = true ∧ body_line x) r →
  flush (foldl step st r) = State B None [].
Proof.
  unfold closed, open.
  intros [->|(B' & id & b & -> & Hid & Hb & Hbl & ->)] Hr.
  - assert (foldl step (State B None []) r = State B None []) as ->; [|done].
    induction Hr as [|x r [_ [Hq Hs]] _ IH]; [done|]. simpl.
    unfold step at 2. by rewrite Hq, Hs.
  - rewrite (feed_body r _ id); [|done|].
    2:{ eapply Forall_impl; [exact Hr|]. by intros ? [_ ?]. }
    simpl. rewrite flush_open by done. rewrite <-app_assoc.
    cbn [title]. rewrite trimmed_flush; [done|done|].
    apply Forall_app. split; [by repeat constructor|].
    eapply Forall_impl; [exact Hr|]. by intros ? [? _].
Qed.

Lemma feed_section_lines st B n t :
  closed st B ∨ open st B → single_line t →
  foldl step st (section_lines n t) = State B None [].
Proof.
  intros Hst Ht. unfold section_lines.
  change ["---"; ""; section_line n t; ""]
    with (["---"; ""] ++ [section_line n t; ""]).
  rewrite foldl_app.
  pose proof (flush_between st B ["---"; ""] Hst) as Hf.
  set (st1 := foldl step st ["---"; ""]) in *.
  cbn [foldl].
  assert (step st1 (section_line n t) = State B None []) as ->; [|done].
  unfold step. rewrite section_line_no_question.
  rewrite (proj2 (section_line_number n t)).
  apply Hf. by repeat constructor.
Qed.

Lemma feed_question st B s k b :
  closed st B ∨ open st B →
  Forall (older s k) (Dict.keys B) →
  writable b →
  open (foldl step st (question_line s k (title b) :: Str.lines (body b) ++ [""]))
       (B ++ [(new_id s k, b)]).
Proof.
  intros Hst Hold (Hts & Htl & Htn & Hb & Hbl).
  pose proof (older_fresh _ _ _ Hold) as Hid.
  exists B, (new_id s k), b. split_and!; [done..|].
  simpl foldl.
  assert (step st (question_line s k (title b)) =
          State (B ++ [(new_id s k, Block (title b) "")]) (Some (new_id s k)) [])
    as ->.
  { unfold step. rewrite question_line_header by done.
    pose proof (flush_between st B [] Hst ltac:(constructor)) as Hf.
    simpl in Hf. rewrite Hf.
    simpl. rewrite set_fresh by done. by rewrite Hts. }
  rewrite (feed_body _ _ (new_id s k)); [done|done|].
  apply Forall_app. split; [done|by repeat constructor].
Qed.

Lemma writable_lines s k b :
  writable b →
  [question_line s k (title b); body b; ""] ≫= Str.lines =
  question_line s k (title b) :: Str.lines (body b) ++ [""].
Proof.
  intros (_ & Htl & _). rewrite bind_lines_cons by (by apply question_line_single).
  done.
Qed.

Lemma feed_questions blocks s qids :
  (∀ old_id b, old_id ∈ qids → Dict.get old_id blocks = Some b → writable b) →
  ∀ k st B,
    closed st B ∨ open st B →
    Forall (older s k) (Dict.keys B) →
    let st' := foldl step st ((questions_from blocks s k qids).1 ≫= Str.lines) in
    let N := numbered blocks s k qids in
    (N = [] → st' = st) ∧ (N ≠ [] → open st' (B ++ N)) ∧
    Forall (older (S s) 1) (Dict.keys (B ++ N)).
Proof.
  induction qids as [|old_id qids IH]; intros Hw k st B Hst Hold; cbn zeta.
  { simpl. rewrite app_nil_r. split_and!; [done|done|by eapply older_section]. }
  simpl. specialize (IH (λ o b' Ho, Hw o b' (list_elem_of_further _ _ _ Ho)) (S k)).
  destruct (questions_from blocks s (S k) qids) as [out log] eqn:Eq.
  simpl in IH.
  destruct (Dict.get old_id blocks) as [b|] eqn:Hb.
  - assert (writable b) as Hwb by (eapply Hw; [by left|done]).
    cbn [fst].
    change (question_line s k (title b) :: body b :: "" :: out)
      with ([question_line s k (title b); body b; ""] ++ out).
    rewrite bind_app, writable_lines, foldl_app by done.
    pose proof (feed_question st B s k b Hst Hold Hwb) as Hopen.
    set (st1 := foldl step st _) in *.
    destruct (IH st1 (B ++ [(new_id s k, b)]))
      as (Hnil & Hcons & Hkeys); [by right|by apply older_next|].
    rewrite <-app_assoc in Hcons, Hkeys. simpl in Hcons, Hkeys.
    split_and!; [done| |done].
    intros _. destruct (numbered blocks s (S k) qids) as [|x N'] eqn:EN.
    + rewrite Hnil by done. exact Hopen.
    + by apply Hcons.
  - cbn [fst]. apply IH; [done|by apply older_skip].
Qed.

Lemma trailer_lines :
  Forall body_line trailer ∧
  blank_or_divider "When you're done, tell me and I'll start implementing." = false ∧
  Forall single_line trailer ∧ Forall single_line preamble ∧
  foldl step init preamble = init.
Proof. split_and!; try (by vm_compute); repeat constructor; by vm_compute. Qed.

(** The closing lines of the output are read as part of the question
    that is open when they come. *)
Lemma feed_trailer st B :
  closed st B ∨ open st B →
  blocks (flush (foldl step st trailer)) =
  match B with
  | [] => []
  | _ => if bool_decide (cur_id st = None) then B
         else Parser.alter_last with_trailer B
  end.
Proof.
  destruct trailer_lines as (Hbl & Hdone & _).
  unfold closed, open.
  intros [->|(B' & id & b & -> & Hid & Hb & Hbody & ->)].
  - assert (foldl step (State B None []) trailer = State B None []) as ->.
    { clear Hdone. induction Hbl as [|x r [Hq Hs] _ IH]; [done|]. simpl.
      unfold step at 2. by rewrite Hq, Hs. }
    simpl. by destruct B.
  - rewrite (feed_body trailer _ id) by done. cbn [blocks lines cur_id].
    rewrite flush_open by done. cbn [blocks title].
    rewrite bool_decide_false by done.
    rewrite alter_last_app. unfold with_trailer. cbn [fst snd title body].
    assert (trim_end ((Str.lines (body b) ++ [""]) ++ trailer) =
            Str.lines (body b) ++ "" :: removelast trailer) as ->.
    { rewrite <-app_assoc.
      change ([""] ++ trailer)
        with (("" :: removelast (removelast trailer)) ++
              ["When you're done, tell me and I'll start implementing."] ++ [""]).
      rewrite !app_assoc, trim_end_app_blank by (by repeat constructor).
      rewrite trim_end_last by done.
      by rewrite <-app_assoc. }
    by destruct B'.
Qed.

Lemma feed_sections src p :
  (∀ old_id b, old_id ∈ plan_ids p → Dict.get old_id src = Some b → writable b) →
  Forall (λ e, single_line e.1) p →
  p ≠ [] →
  ∀ s st B,
    closed st B ∨ open st B →
    Forall (older s 1) (Dict.keys B) →
    blocks (flush (foldl step st
             (((sections_from src s p).1 ≫= Str.lines) ++ trailer))) =
    B ++ reparsed src s p.
Proof.
  induction p as [|[t qids] p IH]; intros Hw Ht Hne s st B Hst Hold; [done|].
  clear Hne. inversion Ht as [|?? Ht1 Ht2]; subst. simpl in Ht1.
  assert (∀ old_id b, old_id ∈ qids → Dict.get old_id src = Some b → writable b)
    as Hwq.
  { intros o b Ho. apply Hw. unfold plan_ids. simpl. apply elem_of_app. by left. }
  assert (∀ old_id b, old_id ∈ plan_ids p → Dict.get old_id src = Some b →
                      writable b) as Hwp.
  { intros o b Ho. apply Hw. unfold plan_ids. simpl. apply elem_of_app. by right. }
  simpl sections_from.
  pose proof (feed_questions src s qids Hwq 1 (State B None []) B
                (or_introl eq_refl) Hold) as Hq.
  destruct (questions_from src s 1 qids) as [qout qlog].
  destruct (sections_from src (S s) p) as [out log] eqn:Eout.
  cbn zeta in Hq. cbn [fst] in *.
  change ("---" :: "" :: section_line s t :: "" :: qout ++ out)
    with (section_lines s t ++ qout ++ out).
  rewrite !bind_app, <-!app_assoc, foldl_app.
  assert (section_lines s t ≫= Str.lines = section_lines s t) as ->.
  { apply bind_single_lines. repeat constructor; try done.
    by apply section_line_single. }
  rewrite (feed_section_lines st B) by done.
  rewrite foldl_app.
  set (st2 := foldl step (State B None []) (qout ≫= Str.lines)) in *.
  destruct Hq as (Hnil & Hcons & Hkeys).
  assert (closed st2 (B ++ numbered src s 1 qids) ∨
          open st2 (B ++ numbered src s 1 qids)) as Hst2.
  { destruct (numbered src s 1 qids) as [|x N] eqn:EN.
    - left. rewrite Hnil by done. by rewrite app_nil_r.
    - right. by apply Hcons. }
  destruct p as [|e p].
  - (* the last section *)
    simpl in Eout. injection Eout as <- <-.
    change (([] ≫= Str.lines) ++ trailer) with trailer.
    cbn [reparsed]. rewrite app_nil_r.
    rewrite (feed_trailer st2 _ Hst2).
    destruct (numbered src s 1 qids) as [|x N] eqn:EN.
    + rewrite Hnil by done. simpl. rewrite app_nil_r.
      by destruct B.
    + destruct (Hcons ltac:(done)) as (B' & id & b & HB & _ & _ & _ & Hst2').
      assert (cur_id st2 = Some id) as Hc by (by rewrite Hst2').
      rewrite Hc, bool_decide_false by done.
      destruct (B ++ x :: N) as [|y l] eqn:E; [by destruct B|].
      rewrite <-E.
      destruct (exists_last (l:=x :: N)) as (N' & z & ->); [done|].
      by rewrite app_assoc, !alter_last_app, app_assoc.
  - pose proof (IH Hwp Ht2 ltac:(done) (S s) st2 (B ++ numbered src s 1 qids)
                  Hst2 Hkeys) as H.
    rewrite Eout in H. cbn [fst] in H. rewrite H.
    cbn [reparsed]. by rewrite <-app_assoc.
Qed.

(** X17.  Reading a migrated text back.  When the section titles of the
    plan are single lines and the blocks written have a title, the blocks
    [parse_raw] finds in the text [migrate] writes are the blocks
    written, in order, under their new ids and with their titles and
    bodies unchanged; but the block written last, when it belongs to the
    last plan entry, has the closing lines of the output behind its
    body. *)
Theorem migrate_reparse (p : plan) (removed : gset string) (text : string) :
  Forall (λ e, single_line e.1) p →
  (∀ old_id b, old_id ∈ plan_ids p →
     Dict.get old_id (parse_raw text) = Some b → title b ≠ "") →
  parse_raw (migrate p removed text).1 = reparsed (parse_raw text) 1 p.
Proof.
  intros Ht Htitle.
  assert (∀ old_id b, old_id ∈ plan_ids p →
            Dict.get old_id (parse_raw text) = Some b → writable b) as Hw.
  { intros old_id b Hin Hget.
    destruct (parse_raw_blocks text old_id b) as (_ & ? & ? & ? & ?);
      [by apply elem_of_get|].
    split_and!; eauto. }
  destruct trailer_lines as (_ & _ & Hts & Hps & Hpre).
  unfold migrate, generate, Gen.run.
  destruct (sections_from (parse_raw text) 1 p) as [out log] eqn:Eout.
  cbn [fst]. unfold parse_raw at 1.
  rewrite lines_unlines by done.
  rewrite !bind_app, !(bind_single_lines preamble), !(bind_single_lines trailer)
    by done.
  rewrite foldl_app, Hpre.
  destruct p as [|e p].
  - simpl in Eout. injection Eout as <- <-. by vm_compute.
  - pose proof (feed_sections (parse_raw text) (e :: p) Hw Ht ltac:(done)
                  1 init [] (or_introl eq_refl) ltac:(constructor)) as H.
    rewrite Eout in H. exact H.
Qed.

Lemma migrate_reparse_witness :
  let p : Gen.plan := [("Second", ["2.1"; "9.9"]); ("First", ["1.1"])] in
  let text := Str.unlines
    ["## 1. Old"; "### 1.1 One"; "body one"; "";
     "## 2. Older"; "### 2.1 Two"; "body two"; "---"] in
  parse_raw (migrate p ∅ text).1 =
  [("1.1", Block "Two" "body two");
   ("2.1", Block "One"
      (Str.unlines ("body one" :: "" :: removelast Gen.trailer)))].
Proof.
  intros p text.
  refine (eq_trans (migrate_reparse p ∅ text _ _) _); [| |reflexivity].
  - repeat constructor.
  - intros old_id b _ Hget.
    assert (old_id ∈ Dict.keys (parse_raw text)) as Hin.
    { apply keys_get. by rewrite Hget. }
    assert (Dict.keys (parse_raw text) = ["1.1"; "2.1"]) as Hkeys by reflexivity.
    rewrite Hkeys in Hin.
    apply elem_of_cons in Hin as [->|Hin];
      [|apply list_elem_of_singleton in Hin as ->];
      vm_compute in Hget; by injection Hget as <-.
Defined.

End reparse.

(** ** The question count of the migrator *)

Section question_count.
Import Raw_spec Saver_spec Gen Gen_spec Count Reparse.

Lemma startswith_line p y r :
  Str.contains Char.newline p = false →
  Str.startswith p (y +:+ String Char.newline r) = Str.startswith p y.
Proof.
  revert y. induction p as [|a p IH]; intros y Hp; [done|].
  simpl in Hp. destruct (decide (Char.newline = a)) as [|Ha]; [done|].
  destruct y as [|b y]; simpl.
  - by rewrite decide_False.
  - change (String b y +:+ String Char.newline r)
      with (String b (y +:+ String Char.newline r)). simpl.
    destruct (decide (a = b)); [by apply IH|done].
Qed.

Lemma startswith_length p y :
  Str.startswith p y = true → String.length p ≤ String.length y.
Proof.
  revert y. induction p as [|a p IH]; intros y; simpl; [lia|].
  destruct y as [|b y]; [done|]. simpl.
  destruct (decide (a = b)); [|done]. intros H%IH. lia.
Qed.

Lemma str_app_nil_r s : s +:+ "" = s.
Proof.
  induction s as [|c s IH]; [done|].
  change (String c s +:+ "") with (String c (s +:+ "")). by rewrite IH.
Qed.

(** Inside a line no match begins: a match begins with a newline. *)
Lemma count_line sub x r : ∀ k,
  Str.contains Char.newline x = false →
  k ≤ String.length x →
  count_from (String Char.newline sub) k (x +:+ r) =
  count_from (String Char.newline sub) 0 r.
Proof.
  induction x as [|c x IH]; intros k Hx Hk.
  { simpl in Hk. by replace k with 0 by lia. }
  simpl in Hx. destruct (decide (Char.newline = c)) as [|Hc]; [done|].
  change (String c x +:+ r) with (String c (x +:+ r)).
  destruct k as [|k]; simpl.
  - rewrite decide_False by done. apply IH; [done|lia].
  - apply IH; [done|]. simpl in Hk. lia.
Qed.

Lemma count_lines L : ∀ x k,
  Forall single_line (x :: L) →
  k ≤ String.length x →
  count_from (String Char.newline "### ") k (Str.unlines (x :: L)) =
  length (List.filter starts_question L).
Proof.
  induction L as [|y L IH]; intros x k Hs Hk.
  { inversion Hs as [|?? Hx _]; subst. apply single_line_contains in Hx.
    change (Str.unlines [x]) with x. rewrite <-(str_app_nil_r x) at 1.
    rewrite count_line by done. done. }
  inversion Hs as [|?? Hx Hs']; subst. apply single_line_contains in Hx.
  change (Str.unlines (x :: y :: L))
    with (x +:+ String Char.newline (Str.unlines (y :: L))).
  rewrite count_line by done.
  assert (Str.startswith "### " (Str.unlines (y :: L)) = starts_question y)
    as Hstart.
  { destruct L as [|z L]; [done|].
    change (Str.unlines (y :: z :: L))
      with (y +:+ String Char.newline (Str.unlines (z :: L))).
    by apply startswith_line. }
  cbn [List.filter]. unfold count_from at 1. fold count_from.
  change (Str.startswith (String Char.newline "### ")
            (String Char.newline (Str.unlines (y :: L))))
    with (Str.startswith "### " (Str.unlines (y :: L))).
  rewrite Hstart. destruct (starts_question y) eqn:Hy.
  - simpl length. f_equal. apply IH; [done|].
    by apply (startswith_length "### ").
  - apply IH; [done|lia].
Qed.

(** The count of [main] is the number of lines, the first apart, that
    start like a question header. *)
Lemma new_q_count_lines text :
  new_q_count text = length (List.filter starts_question (List.tl (Str.lines text))).
Proof.
  unfold new_q_count, count. rewrite <-(unlines_lines text) at 1.
  pose proof (lines_single_line text) as Hs.
  destruct (Str.lines text) as [|x L] eqn:E; [done|].
  by rewrite count_lines by (done || lia).
Qed.

Lemma question_line_starts s k t : starts_question (question_line s k t) = true.
Proof. done. Qed.

Lemma section_line_starts n t : starts_question (section_line n t) = false.
Proof. done. Qed.

Lemma questions_count blocks s qids : ∀ k,
  (∀ old_id b, old_id ∈ qids → Dict.get old_id blocks = Some b →
               single_line (title b)) →
  length (List.filter starts_question
            ((questions_from blocks s k qids).1 ≫= Str.lines)) =
  sum_list_with header_like (omap (λ old_id, Dict.get old_id blocks) qids).
Proof.
  induction qids as [|old_id qids IH]; intros k Ht; [done|].
  simpl. specialize (IH (S k) (λ o b' Ho, Ht o b' (list_elem_of_further _ _ _ Ho))).
  destruct (questions_from blocks s (S k) qids) as [out log]. simpl in IH.
  destruct (Dict.get old_id blocks) as [b|] eqn:Hb; [|done].
  cbn [fst sum_list_with]. unfold header_like at 1.
  assert (single_line (title b)) as Hb' by (eapply Ht; [by left|done]).
  change (question_line s k (title b) :: body b :: "" :: out)
    with ([question_line s k (title b)] ++ [body b] ++ [""] ++ out).
  rewrite !bind_app, !List.filter_app, !length_app, IH.
  rewrite (bind_single_lines [_]) by (repeat constructor; by apply question_line_single).
  change (List.filter starts_question [question_line s k (title b)])
    with (if starts_question (question_line s k (title b))
          then [question_line s k (title b)] else []).
  rewrite question_line_starts.
  change ([body b] ≫= Str.lines) with (Str.lines (body b) ++ []).
  rewrite app_nil_r.
  change (List.filter starts_question ([""] ≫= Str.lines)) with (@nil string).
  cbn [length]. reflexivity.
Qed.

Lemma sections_count blocks p : ∀ s,
  Forall (λ e, single_line e.1) p →
  (∀ old_id b, old_id ∈ plan_ids p → Dict.get old_id blocks = Some b →
               single_line (title b)) →
  length (List.filter starts_question
            ((sections_from blocks s p).1 ≫= Str.lines)) =
  sum_list_with header_like (written blocks p).
Proof.
  unfold written, plan_ids.
  induction p as [|[t qids] p IH]; intros s Hp Ht; [done|].
  inversion Hp as [|?? Ht1 Hp']; subst. cbn [fst] in Ht1.
  rewrite bind_cons in Ht |- *. cbn [snd] in Ht |- *.
  cbn [sections_from].
  pose proof (questions_count blocks s qids 1) as Hq.
  destruct (questions_from blocks s 1 qids) as [qout qlog].
  specialize (IH (S s) Hp').
  destruct (sections_from blocks (S s) p) as [out log]. cbn [fst] in *.
  change ("---" :: "" :: section_line s t :: "" :: qout ++ out)
    with (section_lines s t ++ qout ++ out).
  rewrite !bind_app, !List.filter_app, !length_app.
  rewrite omap_app, sum_list_with_app.
  rewrite Hq, IH.
  - rewrite bind_single_lines.
    2:{ repeat constructor; try done. by apply section_line_single. }
    done.
  - intros o b Ho. apply Ht. apply elem_of_app. by right.
  - intros o b Ho. apply Ht. apply elem_of_app. by left.
Qed.

(** X18.  The number [main] prints as the number of questions of the
    output is the number of lines of the output, the first apart, that
    start with [### ]: with single-line section titles in the plan, one
    for each block written and one more for each line of a body that
    starts so.  It is the number of blocks written only when no body
    has such a line. *)
Theorem migrate_question_count (p : plan) (removed : gset string) (text : string) :
  Forall (λ e, single_line e.1) p →
  let written := written (parse_raw text) p in
  new_q_count (migrate p removed text).1 =
    sum_list_with header_like written ∧
  (Forall (λ b, Forall (λ l, starts_question l = false) (Str.lines (body b)))
          written →
   new_q_count (migrate p removed text).1 = length written).
Proof.
  intros Hp written.
  assert (new_q_count (migrate p removed text).1 =
    sum_list_with header_like written) as Hcount.
  { rewrite new_q_count_lines.
    destruct trailer_lines as (_ & _ & Hts & Hps & _).
    unfold migrate, generate, Gen.run.
    pose proof (sections_count (parse_raw text) p 1 Hp) as Hs.
    destruct (sections_from (parse_raw text) 1 p) as [out log].
    cbn [fst] in *. rewrite lines_unlines by done.
    rewrite !bind_app, !(bind_single_lines preamble), !(bind_single_lines trailer)
      by done.
    change (List.tl (preamble ++ ?l)) with (List.tl preamble ++ l).
    rewrite !List.filter_app, !length_app, Hs.
    - assert (List.filter starts_question (List.tl preamble) = []) as ->
        by (by vm_compute).
      assert (List.filter starts_question trailer = []) as -> by (by vm_compute).
      simpl. by rewrite Nat.add_0_r.
    - intros o b _ Hget.
      by destruct (parse_raw_blocks text o b (elem_of_get _ _ _ Hget))
        as (_ & _ & ? & _). }
  split; [done|]. intros Hclean. rewrite Hcount. clear Hcount.
  induction Hclean as [|b l Hb _ IH]; [done|].
  cbn [sum_list_with length]. rewrite IH. unfold header_like. f_equal.
  clear IH. induction Hb as [|x r Hx _ IH']; [done|].
  cbn [List.filter]. by rewrite Hx.
Qed.

Lemma migrate_question_count_witness :
  let p : Gen.plan := [("Second", ["2.1"; "9.9"]); ("First", ["1.1"])] in
  let text := Str.unlines
    ["## 1. Old"; "### 1.1 One"; "body one"; "###  not a header"; "";
     "## 2. Older"; "### 2.1 Two"; "body two"; "---"] in
  length (Count.written (parse_raw text) p) = 2 ∧
  Count.new_q_count (migrate p ∅ text).1 = 3.
Proof.
  intros p text. split; [reflexivity|].
  refine (eq_trans (proj1 (migrate_question_count p ∅ text _)) _); [|reflexivity].
  repeat constructor.
Defined.

End question_count.

(** ** The command line of the server *)

Section server_port.
Import Server.
Context (int : string → option Z).

Lemma scan_no_flag args : ∀ port,
  "--port" ∉ removelast args → scan int port args = Some port.
Proof.
  induction args as [|a rest IH]; intros port Hno; [done|].
  destruct rest as [|v rest].
  { simpl. by destruct (decide (a = "--port")). }
  change (removelast (a :: v :: rest)) with (a :: removelast (v :: rest)) in Hno.
  apply not_elem_of_cons in Hno as [Ha Hrest].
  cbn [scan]. rewrite decide_False by done. by apply IH.
Qed.

Lemma scan_raises args : ∀ port,
  scan int port args = None ↔
  ∃ pre v rest, args = pre ++ "--port" :: v :: rest ∧ int v = None.
Proof.
  induction args as [|a rest IH]; intros port.
  { split; [done|]. intros (pre & v & r & H & _). by destruct pre. }
  cbn [scan]. destruct (decide (a = "--port")) as [->|Ha].
  - destruct rest as [|v rest].
    + split; [done|]. intros (pre & v & r & H & _).
      destruct pre as [|x [|y pre]]; done.
    + destruct (int v) as [n|] eqn:Hv.
      * rewrite IH. split.
        -- intros (pre & v' & r & -> & Hv'). exists ("--port" :: pre), v', r.
           by rewrite <-app_comm_cons.
        -- intros (pre & v' & r & H & Hv').
           destruct pre as [|x pre]; simpl in H.
           ++ injection H as <- <-. congruence.
           ++ injection H as <- H. by exists pre, v', r.
      * split; [|done]. intros _. by exists [], v, rest.
  - rewrite IH. split.
    + intros (pre & v' & r & -> & Hv'). exists (a :: pre), v', r.
      by rewrite <-app_comm_cons.
    + intros (pre & v' & r & H & Hv').
      destruct pre as [|x pre]; simpl in H.
      * injection H as -> _. done.
      * injection H as <- H. by exists pre, v', r.
Qed.

Lemma scan_flag port v rest :
  scan int port ("--port" :: v :: rest) =
  match int v with Some n => scan int n (v :: rest) | None => None end.
Proof.
  change (scan int port ("--port" :: v :: rest))
    with (if decide ("--port" = "--port")
          then match int v with Some n => scan int n (v :: rest) | None => None end
          else scan int port (v :: rest)).
  by rewrite decide_True.
Qed.

Lemma scan_other port a rest :
  a ≠ "--port" → scan int port (a :: rest) = scan int port rest.
Proof.
  intros Ha.
  change (scan int port (a :: rest))
    with (if decide (a = "--port")
          then match rest with
               | v :: _ => match int v with
                           | Some n => scan int n rest
                           | None => None
                           end
               | [] => scan int port rest
               end
          else scan int port rest).
  by rewrite decide_False.
Qed.

Lemma scan_last pre : ∀ port v rest,
  "--port" ∉ removelast (v :: rest) →
  scan int port (pre ++ "--port" :: v :: rest) ≠ None →
  scan int port (pre ++ "--port" :: v :: rest) = int v.
Proof.
  induction pre as [|a pre IH]; intros port v rest Hno Hok.
  - cbn [app] in *. rewrite scan_flag in *.
    destruct (int v) as [n|]; [|done]. by apply scan_no_flag.
  - rewrite <-app_comm_cons in *.
    destruct (decide (a = "--port")) as [->|Ha].
    + destruct (pre ++ "--port" :: v :: rest) as [|w l] eqn:E.
      { by destruct pre. }
      rewrite scan_flag in *.
      destruct (int w) as [n|]; [|done]. rewrite <-E in *. by apply IH.
    + rewrite scan_other in * by done. by apply IH.
Qed.


End server_port.
